(** * Portfolio Valuator: the time-series analytics engine

    A shallow embedding of the computation in the page component of the
    Portfolio repository (price lookup, position valuation, monthly
    aggregation, drop detection, annual extremes, crisis windows), with
    the properties its specification states.

    Conventions of the embedding.
    - A JavaScript number is an IEEE 754 binary64 value: Rocq's primitive
      [float], specified by [SpecFloat] through the [FloatAxioms].
    - A JavaScript string is a [string]; one [ascii] stands for one code
      unit, so code units above 255 are not represented. Relational
      operators on strings are the lexicographic order on code units,
      [String.compare]. [localeCompare], whose order is the host's
      collation, is a parameter of the functions that call it.
    - [null] and [undefined] are [None].
    - React state is a record; an event handler is a function from the
      state at the render that created it to the state after all of its
      setters have been applied.
    - The network ([fetch] and the CSV text it returns) is an explicit
      environment holding what each fetch yields. *)

From Stdlib Require Import Bool List String Ascii ZArith Lia Floats Permutation Sorted.
Import ListNotations.

Local Open Scope string_scope.
Local Open Scope list_scope.

(** ** JavaScript built-ins used by the page *)

Module JS.

(** *** Numbers *)

Definition number := float.

(** [ToBoolean] on a number: [+0], [-0] and [NaN] are falsy. *)
Definition truthy (x : number) : bool :=
  negb (PrimFloat.is_nan x || PrimFloat.is_zero x).

(** [Number.isFinite]. *)
Definition isFinite (x : number) : bool := PrimFloat.is_finite x.

(** [x > y] and [x >= y] are [y < x] and [y <= x]; both are false as
    soon as one side is [NaN]. *)
Definition gtb (x y : number) : bool := PrimFloat.ltb y x.
Definition geb (x y : number) : bool := PrimFloat.leb y x.

(** The binary64 value nearest to a non-negative integer (ties to even). *)
Definition of_Z (n : Z) : number :=
  SF2Prim (binary_normalize prec emax n 0 false).

(** The binary64 value nearest to [m * 10 ^ e10], for [0 <= m], rounded
    once, ties to even. A negative exponent divides [m * 2 ^ s] by the power
    of ten, with [s] large enough for the quotient to carry more than 53
    bits, and rounds the quotient with the location of the remainder. *)
Definition of_decimal (m e10 : Z) : number :=
  if (m =? 0)%Z then PrimFloat.zero
  else if (0 <=? e10)%Z then of_Z (m * 10 ^ e10)
  else
    let d := (10 ^ (- e10))%Z in
    let s := Z.max 0 (Z.log2 d + 55 - Z.log2 m) in
    let (q, r) := Z.div_eucl (m * 2 ^ s) d in
    SF2Prim (binary_round_aux prec emax false q (- s) (new_location d r)).

(** *** Strings *)

Definition str_geb (a b : string) : bool := String.leb b a.
Definition str_leb (a b : string) : bool := String.leb a b.
Definition str_ltb (a b : string) : bool := String.ltb a b.

(** [s.slice(0, n)]. *)
Definition slice0 (n : nat) (s : string) : string := substring 0 n s.

(** WhiteSpace and LineTerminator code units below 256. *)
Definition is_ws (c : ascii) : bool :=
  match N_of_ascii c with
  | 9%N | 10%N | 11%N | 12%N | 13%N | 32%N | 160%N => true
  | _ => false
  end.

Fixpoint trimStart (s : string) : string :=
  match s with
  | String c s' => if is_ws c then trimStart s' else s
  | EmptyString => s
  end.

Fixpoint rev_string (s acc : string) : string :=
  match s with
  | String c s' => rev_string s' (String c acc)
  | EmptyString => acc
  end.

Definition trimEnd (s : string) : string :=
  rev_string (trimStart (rev_string s "")) "".

Definition trim (s : string) : string := trimEnd (trimStart s).

(** [toUpperCase] on code units below 128: the letters a-z go to A-Z and
    the other code units are kept. (Of the code units from 128 to 255 some
    have an upper case, in one case of two units and in two cases above 255;
    the function is exact on text that has none of them, and the statements
    that rest on what it does to a letter are about such text.) *)
Definition upper_char (c : ascii) : ascii :=
  let n := N_of_ascii c in
  if ((97 <=? n) && (n <=? 122))%N then ascii_of_N (n - 32) else c.

Fixpoint toUpperCase (s : string) : string :=
  match s with
  | String c s' => String (upper_char c) (toUpperCase s')
  | EmptyString => EmptyString
  end.

(** [s.includes(c)] for a one-unit needle. *)
Fixpoint includes_char (c : ascii) (s : string) : bool :=
  match s with
  | String d s' => Ascii.eqb c d || includes_char c s'
  | EmptyString => false
  end.

(** [s.replace(a, b)] for one-unit [a] and [b]: the first occurrence only. *)
Fixpoint replace_first (a b : ascii) (s : string) : string :=
  match s with
  | String c s' => if Ascii.eqb c a then String b s' else String c (replace_first a b s')
  | EmptyString => EmptyString
  end.

(** [s.split(sep)] for a one-unit separator. *)
Fixpoint split_on (sep : ascii) (s cur : string) : list string :=
  match s with
  | String c s' =>
      if Ascii.eqb c sep then rev_string cur "" :: split_on sep s' ""
      else split_on sep s' (String c cur)
  | EmptyString => [rev_string cur ""]
  end.

Definition split (sep : ascii) (s : string) : list string := split_on sep s "".

(** *** Numeric literals in strings *)

Definition digit_of (base : Z) (c : ascii) : option Z :=
  let n := Z.of_N (N_of_ascii c) in
  let v :=
    if ((48 <=? n) && (n <=? 57))%Z then Some (n - 48)%Z
    else if ((97 <=? n) && (n <=? 102))%Z then Some (n - 87)%Z
    else if ((65 <=? n) && (n <=? 70))%Z then Some (n - 55)%Z
    else None in
  match v with
  | Some d => if (d <? base)%Z then Some d else None
  | None => None
  end.

(** Reads the longest run of digits: the value accumulated, how many were
    read, and the rest of the string. *)
Fixpoint read_digits (base : Z) (s : string) (acc cnt : Z) : Z * Z * string :=
  match s with
  | String c s' =>
      match digit_of base c with
      | Some d => read_digits base s' (base * acc + d) (cnt + 1)
      | None => (acc, cnt, s)
      end
  | EmptyString => (acc, cnt, s)
  end.

Definition read_sign (s : string) : bool * string :=
  match s with
  | String "+" r => (false, r)
  | String "-" r => (true, r)
  | _ => (false, s)
  end.

(** The ExponentPart after the digits, when one is there: [e] or [E], an
    optional sign, at least one digit. *)
Definition read_exponent (s : string) : Z * string :=
  match s with
  | String c r =>
      if Ascii.eqb c "e" || Ascii.eqb c "E" then
        let (neg, r1) := read_sign r in
        let '(v, n, r2) := read_digits 10 r1 0 0 in
        if (n =? 0)%Z then (0%Z, s) else ((if neg then - v else v)%Z, r2)
      else (0%Z, s)
  | EmptyString => (0%Z, s)
  end.

Definition signed (neg : bool) (x : number) : number :=
  if neg then PrimFloat.opp x else x.

(** The longest prefix of [s] that is a StrDecimalLiteral, as its value and
    what follows it; [None] when no prefix is one. *)
Definition read_decimal (s : string) : option (number * string) :=
  let (neg, s1) := read_sign s in
  if prefix "Infinity" s1 then
    Some (signed neg PrimFloat.infinity, substring 8 (String.length s1 - 8) s1)
  else
    let '(ip, ni, s2) := read_digits 10 s1 0 0 in
    let '(m, nf, s3) :=
      match s2 with
      | String "." r =>
          let '(m, nf, r') := read_digits 10 r ip 0 in
          if ((ni =? 0) && (nf =? 0))%Z then (ip, 0%Z, s2) else (m, nf, r')
      | _ => (ip, 0%Z, s2)
      end in
    if (ni + nf =? 0)%Z then None
    else
      let (e, s4) := read_exponent s3 in
      Some (signed neg (of_decimal m (e - nf)), s4).

(** [parseFloat(s)]. *)
Definition parseFloat (s : string) : number :=
  match read_decimal (trimStart s) with
  | Some (x, _) => x
  | None => PrimFloat.nan
  end.

Definition read_radix (base : Z) (s : string) : number :=
  let '(v, n, r) := read_digits base s 0 0 in
  if (n =? 0)%Z then PrimFloat.nan
  else match r with EmptyString => of_Z v | _ => PrimFloat.nan end.

(** [Number(s)] on a string: the whole trimmed string must be a numeric
    literal; the empty string is [0]. *)
Definition Number (s : string) : number :=
  match trim s with
  | EmptyString => PrimFloat.zero
  | String "0" (String c r) as t =>
      if Ascii.eqb c "x" || Ascii.eqb c "X" then read_radix 16 r
      else if Ascii.eqb c "o" || Ascii.eqb c "O" then read_radix 8 r
      else if Ascii.eqb c "b" || Ascii.eqb c "B" then read_radix 2 r
      else match read_decimal t with
           | Some (x, EmptyString) => x
           | _ => PrimFloat.nan
           end
  | t => match read_decimal t with
         | Some (x, EmptyString) => x
         | _ => PrimFloat.nan
         end
  end.

End JS.

(** ** Data model *)

(** One line of the daily history CSV, every cell a string. *)
Record DailyRow := mkDailyRow {
  Date : string;
  Open : string;
  High : string;
  Low : string;
  Close : string;
  Volume : string
}.

Inductive Currency := USD | EUR.

Definition Currency_eqb (a b : Currency) : bool :=
  match a, b with
  | USD, USD | EUR, EUR => true
  | _, _ => false
  end.

(** A position entered in the form. *)
Record Row := mkRow {
  id : JS.number;
  ticker : string;
  amount : JS.number;
  currency : Currency;
  date : string
}.

(** The object pushed on [results] by [calculate]. *)
Record PositionResult := mkPositionResult {
  res_id : JS.number;
  symbol : string;
  purchaseDateUsed : string;
  purchaseClose : JS.number;
  amountInvested : JS.number;
  amountOriginal : JS.number;
  res_currency : Currency;
  shares : JS.number;
  latestPrice : JS.number;
  currentValueUSD : JS.number
}.

Record MonthClose := mkMonthClose {
  mc_month : string;
  close : JS.number
}.

Record MonthlyPoint := mkMonthlyPoint {
  month : string;
  valueUSD : JS.number;
  mom : option JS.number
}.

Record YearExtreme := mkYearExtreme {
  year : string;
  minUSD : JS.number;
  maxUSD : JS.number;
  minMonth : string;
  maxMonth : string;
  minEUR : option JS.number;
  maxEUR : option JS.number
}.

Record MarketEvent := mkMarketEvent {
  ev_id : string;
  ev_name : string;
  ev_startMonth : string;
  ev_endMonth : string
}.

Record MarketEventPerf := mkMarketEventPerf {
  perf_id : string;
  perf_name : string;
  startMonth : string;
  endMonth : string;
  startValue : option JS.number;
  endValue : option JS.number;
  absChange : option JS.number;
  pctChange : option JS.number;
  maxDrawdown : option JS.number;
  troughMonth : option string;
  recoveryMonth : option string;
  monthsToRecoveryFromStart : option JS.number;
  monthsToRecoveryFromTrough : option JS.number
}.

(** What a handler can throw, by the message it carries. *)
Inductive Error :=
| HistFetchFailed (sym : string)
| NoTradingDay (ymd sym : string)
| QuoteFetchFailed
| FxFetchFailed
| MissingField.

(** A computation that returns or throws. *)
Inductive result (A : Type) :=
| Ok (a : A)
| Throw (e : Error).

Arguments Ok {A} a.
Arguments Throw {A} e.

Definition bind {A B : Type} (c : result A) (k : A -> result B) : result B :=
  match c with
  | Ok a => k a
  | Throw e => Throw e
  end.

Notation "x <- c ;; k" := (bind c (fun x => k))
  (at level 61, c at next level, right associativity).

(** A [for ... of] loop whose body may throw: the first throw ends it. *)
Fixpoint for_each {A B : Type} (body : A -> result B) (l : list A) : result (list B) :=
  match l with
  | [] => Ok []
  | a :: l' =>
      b <- body a ;;
      bs <- for_each body l' ;;
      Ok (b :: bs)
  end.

(** The network, as what each fetch of the page yields, the same throughout
    one run of a handler. [histRows sym] is the parsed CSV of the history of
    [sym], [None] when the response is not ok. [latestQuotes syms] is the map
    built by [fetchLatestQuotes], as its lookup, [None] when it throws.
    [eurusdQuote] is the value [fetchEURUSD] returns, [None] when it
    throws. *)
Record Env := mkEnv {
  histRows : string -> option (list DailyRow);
  latestQuotes : list string -> option (string -> option JS.number);
  eurusdQuote : option JS.number
}.

Record Calc := mkCalc {
  loading : bool;
  results : list PositionResult
}.

(** The component's state (the paging and autocomplete fields, which no
    computation reads, are left out). [error = None] is the empty message. *)
Record State := mkState {
  rows : list Row;
  useEur : bool;
  fx : option JS.number;
  calc : Calc;
  error : option Error;
  dropThresholdPct : JS.number;
  dropsLoading : bool;
  monthlySeries : list MonthlyPoint;
  bigDrops : list MonthlyPoint
}.

(** ** Helpers of the page *)

Definition asNum (v : option string) : JS.number :=
  match v with
  | None => PrimFloat.nan
  | Some v =>
      let s := JS.trim v in
      if String.eqb s "" || String.eqb s "N/D" || String.eqb (JS.toUpperCase s) "NAN"
      then PrimFloat.nan
      else
        let n := JS.Number (JS.replace_first "," "." s) in
        if JS.isFinite n then n else PrimFloat.nan
  end.

Definition normalizeTicker (t : string) : string :=
  let sym := JS.toUpperCase (JS.trim t) in
  if JS.includes_char "." sym then sym else sym ++ ".US".

Definition MARKET_EVENTS : list MarketEvent :=
  [ mkMarketEvent "dotcom" "Bolha dot-com" "2000-03" "2002-10";
    mkMarketEvent "gfc" "Crise financeira 2008" "2007-10" "2009-03";
    mkMarketEvent "covid" "Crash COVID-19" "2020-02" "2020-04";
    mkMarketEvent "inflation2022"
      ("Bear market infla" ++ String (ascii_of_nat 231) (String (ascii_of_nat 227) "o 2022"))
      "2021-11" "2022-10" ].

(** The [i]-th element of [s.split("-").map(Number)], destructured: a
    missing element is [undefined], which arithmetic turns into [NaN]. *)
Definition split_number (s : string) (i : nat) : JS.number :=
  match nth_error (JS.split "-" s) i with
  | Some x => JS.Number x
  | None => PrimFloat.nan
  end.

Definition monthsBetween (a b : string) : JS.number :=
  let ya := split_number a 0 in
  let ma := split_number a 1 in
  let yb := split_number b 0 in
  let mb := split_number b 1 in
  ((yb - ya) * 12 + (mb - ma))%float.

(** ** Price History Normalizer *)

Record HistLookup := mkHistLookup {
  dateUsed : string;
  hist_close : JS.number;
  allRows : list DailyRow
}.

Definition fetchHistoricalCloseOnOrAfter (env : Env) (sym ymd : string)
  : result HistLookup :=
  match histRows env sym with
  | None => Throw (HistFetchFailed sym)
  | Some rows =>
      match find (fun r => JS.str_geb (Date r) ymd) rows with
      | None => Throw (NoTradingDay ymd sym)
      | Some target => Ok (mkHistLookup (Date target) (JS.parseFloat (Close target)) rows)
      end
  end.

(** [byMonth.set(m, r)] on a [Map] kept as its entries in insertion order:
    a key already there keeps its place and takes the new value. *)
Fixpoint map_set {V : Type} (k : string) (v : V) (m : list (string * V)) : list (string * V) :=
  match m with
  | [] => [(k, v)]
  | (k', v') :: m' =>
      if String.eqb k' k then (k', v) :: m' else (k', v') :: map_set k v m'
  end.

Fixpoint map_get {V : Type} (k : string) (m : list (string * V)) : option V :=
  match m with
  | [] => None
  | (k', v') :: m' => if String.eqb k' k then Some v' else map_get k m'
  end.

Definition str_truthy (s : string) : bool := negb (String.eqb s "").

Definition groupByMonthEnd (rows : list DailyRow) (startDateYmd : option string)
  : list MonthClose :=
  let skip (r : DailyRow) :=
    match startDateYmd with
    | Some d => str_truthy d && JS.str_ltb (Date r) d
    | None => false
    end in
  let byMonth :=
    fold_left
      (fun byMonth r =>
         if skip r then byMonth
         else map_set (JS.slice0 7 (Date r)) r byMonth)
      rows [] in
  map (fun e => mkMonthClose (fst e) (JS.parseFloat (Close (snd e)))) byMonth.

(** ** Position Valuator: [calculate] *)

Definition missing_field (r : Row) : bool :=
  negb (str_truthy (ticker r)) || negb (JS.truthy (amount r)) || negb (str_truthy (date r)).

(** [r.currency === "EUR" ? (eurusdNow ? amount * eurusdNow : amount) : amount]:
    a rate that is [null], [NaN] or zero is falsy. *)
Definition amountUSD_of (r : Row) (eurusdNow : option JS.number) : JS.number :=
  match currency r with
  | EUR =>
      match eurusdNow with
      | Some rate => if JS.truthy rate then (amount r * rate)%float else amount r
      | None => amount r
      end
  | USD => amount r
  end.

(** [lastRow?.Close] for [lastRow = allRows.at(-1)]. *)
Definition last_close (rows : list DailyRow) : option string :=
  match rev rows with
  | r :: _ => Some (Close r)
  | [] => None
  end.

(** The body of the loop of [calculate] for one row. *)
Definition valuePosition (env : Env) (quoteMap : string -> option JS.number)
  (eurusdNow : option JS.number) (r : Row) : result PositionResult :=
  let symbol := normalizeTicker (ticker r) in
  if missing_field r then Throw MissingField
  else
    hist <- fetchHistoricalCloseOnOrAfter env symbol (date r) ;;
    let amountUSD := amountUSD_of r eurusdNow in
    let shares := (amountUSD / hist_close hist)%float in
    let curPrice :=
      match quoteMap (JS.toUpperCase symbol) with
      | Some c => if JS.isFinite c then c else asNum (last_close (allRows hist))
      | None => asNum (last_close (allRows hist))
      end in
    let curValueUSD := (shares * curPrice)%float in
    Ok (mkPositionResult (id r) symbol (dateUsed hist) (hist_close hist)
          amountUSD (amount r) (currency r) shares curPrice curValueUSD).

Definition symbols (st : State) : list string :=
  map (fun r => normalizeTicker (ticker r)) (rows st).

Definition needFx (st : State) : bool :=
  useEur st || existsb (fun x => Currency_eqb (currency x) EUR) (rows st).

(** [Promise.all] of the two fetches: the quote map and, when a rate is
    needed, the rate. When both reject, the rejection of the first listed is
    the one reported here. *)
Definition fetchQuotesAndRate (env : Env) (st : State)
  : result ((string -> option JS.number) * option JS.number) :=
  match latestQuotes env (symbols st) with
  | None => Throw QuoteFetchFailed
  | Some quoteMap =>
      if needFx st then
        match eurusdQuote env with
        | None => Throw FxFetchFailed
        | Some rate => Ok (quoteMap, Some rate)
        end
      else Ok (quoteMap, None)
  end.

(** [eurusd ?? (useEur ? fx : null)], with the [fx] of the render. *)
Definition eurusdNow_of (st : State) (eurusd : option JS.number) : option JS.number :=
  match eurusd with
  | Some rate => Some rate
  | None => if useEur st then fx st else None
  end.

Definition option_truthy (x : option JS.number) : bool :=
  match x with
  | Some v => JS.truthy v
  | None => false
  end.

(** The [try] block of [calculate]: the [fx] to be set, if any, and the
    outcome of valuing the rows in order. *)
Definition calculate_try (env : Env) (st : State)
  : option JS.number * result (list PositionResult) :=
  match fetchQuotesAndRate env st with
  | Throw e => (fx st, Throw e)
  | Ok (quoteMap, eurusd) =>
      let fx' := if useEur st && option_truthy eurusd then eurusd else fx st in
      (fx', for_each (valuePosition env quoteMap (eurusdNow_of st eurusd)) (rows st))
  end.

Definition set_calc (st : State) (fx' : option JS.number) (c : Calc) (e : option Error) : State :=
  mkState (rows st) (useEur st) fx' c e (dropThresholdPct st) (dropsLoading st)
    (monthlySeries st) (bigDrops st).

(** The state while [calculate] is awaiting: after [setError("")] and
    [setCalc({ loading: true, results: [] })]. *)
Definition calculate_pending (st : State) : State :=
  set_calc st (fx st) (mkCalc true []) None.

(** The state once [calculate] has settled. *)
Definition calculate (env : Env) (st : State) : State :=
  match calculate_try env st with
  | (fx', Ok results) => set_calc st fx' (mkCalc false results) None
  | (fx', Throw e) => set_calc st fx' (mkCalc false []) (Some e)
  end.

(** ** Portfolio Monthly Aggregator and Drop Detector: [computeMonthlyDrops] *)

Record SymbolSeries := mkSymbolSeries {
  ss_symbol : string;
  ss_shares : JS.number;
  monthSeries : list MonthClose
}.

(** The body of the first loop of [computeMonthlyDrops] for one row. *)
Definition symbolSeries (env : Env) (st : State) (r : Row) : result SymbolSeries :=
  let symbol := normalizeTicker (ticker r) in
  if missing_field r then Throw MissingField
  else
    hist <- fetchHistoricalCloseOnOrAfter env symbol (date r) ;;
    let amountUSD := amountUSD_of r (fx st) in
    let shares := (amountUSD / hist_close hist)%float in
    Ok (mkSymbolSeries symbol shares (groupByMonthEnd (allRows hist) (Some (date r)))).

(** [allMonths.add(m)] on a [Set] kept in insertion order. *)
Definition set_add (m : string) (s : list string) : list string :=
  if existsb (String.eqb m) s then s else s ++ [m].

Definition allMonths (perSymbol : list SymbolSeries) : list string :=
  fold_left
    (fun acc s => fold_left (fun acc m => set_add (mc_month m) acc) (monthSeries s) acc)
    perSymbol [].

(** [Array.prototype.sort()] with the default order, on strings: ascending
    by code units, stable. *)
Fixpoint insert_sorted (x : string) (l : list string) : list string :=
  match l with
  | [] => [x]
  | y :: l' => if JS.str_leb x y then x :: l else y :: insert_sorted x l'
  end.

Definition sort_strings (l : list string) : list string :=
  fold_right insert_sorted [] l.

(** The value of the portfolio in month [m]. *)
Definition monthValue (perSymbol : list SymbolSeries) (m : string) : JS.number :=
  fold_left
    (fun v s =>
       match find (fun x => String.eqb (mc_month x) m) (monthSeries s) with
       | Some rec => (v + ss_shares s * close rec)%float
       | None => v
       end)
    perSymbol PrimFloat.zero.

Definition portfolioSeries (perSymbol : list SymbolSeries) : list (string * JS.number) :=
  filter (fun p => JS.gtb (snd p) 0%float)
    (map (fun m => (m, monthValue perSymbol m)) (sort_strings (allMonths perSymbol))).

(** [portfolioSeries.map((p, i) => ...)]: [prev] is [None] at index 0 and
    the value at [i - 1] after. *)
Definition mom_of (prev : option JS.number) (v : JS.number) : option JS.number :=
  match prev with
  | None => None
  | Some prev => if JS.gtb prev 0%float then Some (v / prev - 1)%float else None
  end.

Fixpoint withMoM_from (prev : option JS.number) (l : list (string * JS.number))
  : list MonthlyPoint :=
  match l with
  | [] => []
  | (m, v) :: l' => mkMonthlyPoint m v (mom_of prev v) :: withMoM_from (Some v) l'
  end.

Definition withMoM (l : list (string * JS.number)) : list MonthlyPoint :=
  withMoM_from None l.

(** [-Math.abs(dropThresholdPct) / 100]. *)
Definition threshold_of (dropThresholdPct : JS.number) : JS.number :=
  (- PrimFloat.abs dropThresholdPct / 100)%float.

Definition is_drop (threshold : JS.number) (p : MonthlyPoint) : bool :=
  match mom p with
  | Some c => PrimFloat.leb c threshold
  | None => false
  end.

Definition detectDrops (dropThresholdPct : JS.number) (series : list MonthlyPoint)
  : list MonthlyPoint :=
  filter (is_drop (threshold_of dropThresholdPct)) series.

(** [setDropThresholdPct(t)]. *)
Definition set_dropThresholdPct (t : JS.number) (st : State) : State :=
  mkState (rows st) (useEur st) (fx st) (calc st) (error st) t (dropsLoading st)
    (monthlySeries st) (bigDrops st).

Definition set_series (st : State) (e : option Error) (series drops : list MonthlyPoint) : State :=
  mkState (rows st) (useEur st) (fx st) (calc st) e (dropThresholdPct st) false series drops.

(** The [try] block of [computeMonthlyDrops]: the series with its changes. *)
Definition monthly_try (env : Env) (st : State) : result (list MonthlyPoint) :=
  perSymbol <- for_each (symbolSeries env st) (rows st) ;;
  Ok (withMoM (portfolioSeries perSymbol)).

(** The state while [computeMonthlyDrops] is awaiting: after [setError("")]
    and [setDropsLoading(true)]. *)
Definition computeMonthlyDrops_pending (st : State) : State :=
  mkState (rows st) (useEur st) (fx st) (calc st) None (dropThresholdPct st) true
    (monthlySeries st) (bigDrops st).

(** The state once [computeMonthlyDrops] has settled. *)
Definition computeMonthlyDrops (env : Env) (st : State) : State :=
  match monthly_try env st with
  | Ok series => set_series st None series (detectDrops (dropThresholdPct st) series)
  | Throw e => set_series st (Some e) [] []
  end.

(** ** Annual Extremes Calculator: [yearExtremes] *)

(** [rate ? v / rate : otherwise]. *)
Definition eur_or (rate : option JS.number) (v : JS.number) (otherwise : option JS.number)
  : option JS.number :=
  match rate with
  | Some x => if JS.truthy x then Some (v / x)%float else otherwise
  | None => otherwise
  end.

(** The two updates of the entry of a year already in the map. *)
Definition update_extremes (rate : option JS.number) (p : MonthlyPoint) (current : YearExtreme)
  : YearExtreme :=
  let c1 :=
    if PrimFloat.ltb (valueUSD p) (minUSD current)
    then mkYearExtreme (year current) (valueUSD p) (maxUSD current) (month p) (maxMonth current)
           (eur_or rate (valueUSD p) (minEUR current)) (maxEUR current)
    else current in
  if JS.gtb (valueUSD p) (maxUSD c1)
  then mkYearExtreme (year c1) (minUSD c1) (valueUSD p) (minMonth c1) (month p)
         (minEUR c1) (eur_or rate (valueUSD p) (maxEUR c1))
  else c1.

(** The body of the loop over the series. Updating [current] in place is
    setting its key again: the entry keeps its position. *)
Definition year_step (rate : option JS.number) (map : list (string * YearExtreme))
  (p : MonthlyPoint) : list (string * YearExtreme) :=
  let year := JS.slice0 4 (month p) in
  match map_get year map with
  | None =>
      map_set year
        (mkYearExtreme year (valueUSD p) (valueUSD p) (month p) (month p)
           (eur_or rate (valueUSD p) None) (eur_or rate (valueUSD p) None))
        map
  | Some current => map_set year (update_extremes rate p current) map
  end.

Definition year_map (rate : option JS.number) (series : list MonthlyPoint)
  : list (string * YearExtreme) :=
  fold_left (year_step rate) series [].

(** [a.localeCompare(b)], as the sign of the number it returns: [Lt] for a
    negative one, [Eq] for zero, [Gt] for a positive one. The order is that
    of the collation of the host's locale, which the language leaves to the
    implementation: it is a parameter of [yearExtremes]. *)
Definition Collation := string -> string -> comparison.

(** [a.year.localeCompare(b.year) <= 0]. *)
Definition year_leb (localeCompare : Collation) (a b : YearExtreme) : bool :=
  match localeCompare (year a) (year b) with
  | Gt => false
  | _ => true
  end.

(** [sort] with that comparator, which the order of a collation makes a
    consistent one: ascending, stable. *)
Fixpoint insert_year (localeCompare : Collation) (x : YearExtreme) (l : list YearExtreme)
  : list YearExtreme :=
  match l with
  | [] => [x]
  | y :: l' =>
      if year_leb localeCompare x y then x :: l else y :: insert_year localeCompare x l'
  end.

Definition sort_years (localeCompare : Collation) (l : list YearExtreme) : list YearExtreme :=
  fold_right (insert_year localeCompare) [] l.

Definition yearExtremes_of (localeCompare : Collation) (rate : option JS.number)
  (series : list MonthlyPoint) : list YearExtreme :=
  match series with
  | [] => []
  | _ => sort_years localeCompare (map snd (year_map rate series))
  end.

Definition yearExtremes (localeCompare : Collation) (st : State) : list YearExtreme :=
  yearExtremes_of localeCompare (fx st) (monthlySeries st).

(** ** Crisis Window Analyzer: [eventPerformances] *)

(** The variables of the drawdown loop. *)
Record Scan := mkScan {
  peak : JS.number;
  peakMonth : string;
  troughValue : JS.number;
  sc_troughMonth : string;
  worstDD : JS.number
}.

Definition scan_init (first : MonthlyPoint) : Scan :=
  mkScan (valueUSD first) (month first) (valueUSD first) (month first) 0%float.

Definition scan_step (s : Scan) (p : MonthlyPoint) : Scan :=
  let s1 :=
    if JS.gtb (valueUSD p) (peak s)
    then mkScan (valueUSD p) (month p) (troughValue s) (sc_troughMonth s) (worstDD s)
    else s in
  if JS.gtb (peak s1) 0%float then
    let dd := (valueUSD p / peak s1 - 1)%float in
    if PrimFloat.ltb dd (worstDD s1)
    then mkScan (peak s1) (peakMonth s1) (valueUSD p) (month p) dd
    else s1
  else s1.

Definition drawdown_scan (first : MonthlyPoint) (inRange : list MonthlyPoint) : Scan :=
  fold_left scan_step inRange (scan_init first).

(** [findIndex]: [None] is [-1]. *)
Fixpoint findIndex {A : Type} (f : A -> bool) (l : list A) : option nat :=
  match l with
  | [] => None
  | a :: l' => if f a then Some 0 else option_map S (findIndex f l')
  end.

(** The loop from [idxTrough + 1] that stops at the first value [>= peak]. *)
Definition recovery_search (series : list MonthlyPoint) (troughMonth : string)
  (peak : JS.number) : option string :=
  match findIndex (fun m => String.eqb (month m) troughMonth) series with
  | Some idxTrough =>
      option_map month
        (find (fun m => JS.geb (valueUSD m) peak) (skipn (S idxTrough) series))
  | None => None
  end.

Definition in_window (ev : MarketEvent) (p : MonthlyPoint) : bool :=
  JS.str_geb (month p) (ev_startMonth ev) && JS.str_leb (month p) (ev_endMonth ev).

Definition eventPerformance (series : list MonthlyPoint) (ev : MarketEvent)
  : MarketEventPerf :=
  let inRange := filter (in_window ev) series in
  match inRange with
  | [] =>
      mkMarketEventPerf (ev_id ev) (ev_name ev) (ev_startMonth ev) (ev_endMonth ev)
        None None None None None None None None None
  | first :: _ =>
      let startValue := valueUSD first in
      let endValue := valueUSD (last inRange first) in
      let absChange := (endValue - startValue)%float in
      let pctChange :=
        if JS.gtb startValue 0%float then Some (absChange / startValue)%float else None in
      let s := drawdown_scan first inRange in
      let recoveryMonth := recovery_search series (sc_troughMonth s) (peak s) in
      let monthsFromStart :=
        option_map (monthsBetween (ev_startMonth ev)) recoveryMonth in
      let monthsFromTrough :=
        option_map (monthsBetween (sc_troughMonth s)) recoveryMonth in
      mkMarketEventPerf (ev_id ev) (ev_name ev) (ev_startMonth ev) (ev_endMonth ev)
        (Some startValue) (Some endValue) (Some absChange) pctChange
        (Some (worstDD s)) (Some (sc_troughMonth s)) recoveryMonth
        monthsFromStart monthsFromTrough
  end.

Definition eventPerformances_of (series : list MonthlyPoint) : list MarketEventPerf :=
  match series with
  | [] => []
  | _ => map (eventPerformance series) MARKET_EVENTS
  end.

Definition eventPerformances (st : State) : list MarketEventPerf :=
  eventPerformances_of (monthlySeries st).

(** ** Inputs of the scenarios *)

Definition scenarioA_history : list DailyRow :=
  [mkDailyRow "2000-01-03" "9" "11" "8" "10" "1000"].

Definition scenarioA_env : Env :=
  mkEnv (fun _ => Some scenarioA_history) (fun _ => Some (fun _ => None)) (Some 1.5%float).

Definition zeroClose_history : list DailyRow :=
  [mkDailyRow "2000-01-03" "0" "0" "0" "0" "0"].

Definition zeroClose_env : Env :=
  mkEnv (fun _ => Some zeroClose_history) (fun _ => Some (fun _ => None)) (Some 1.5%float).

Definition initial_state (rows : list Row) (fx : option JS.number) : State :=
  mkState rows true fx (mkCalc false []) None 15%float false [] [].

Definition usd_position : Row := mkRow 1%float "NVDA" 1000%float USD "2000-01-01".

Definition eur_position : Row := mkRow 1%float "NVDA" 1000%float EUR "2000-01-01".

(** Scenario D: the rate quote does not parse ([NaN]), and no rate is stored. *)
Definition scenarioD_env : Env :=
  mkEnv (fun _ => Some scenarioA_history) (fun _ => Some (fun _ => None)) (Some PrimFloat.nan).

Definition scenarioD_state : State := initial_state [eur_position] None.

(** The retrieval of the rate fails: [fetchEURUSD] throws. *)
Definition rateDown_env : Env :=
  mkEnv (fun _ => Some scenarioA_history) (fun _ => Some (fun _ => None)) None.

(** A position whose purchase date is after the whole history. *)
Definition late_position : Row := mkRow 2%float "MSFT" 1000%float USD "2000-02-01".

(** Scenario B: the monthly values 100, 90, 95, 70. *)
Definition scenarioB_values : list (string * JS.number) :=
  [("2020-01", 100%float); ("2020-02", 90%float); ("2020-03", 95%float); ("2020-04", 70%float)].

Definition point (m : string) (v : JS.number) : MonthlyPoint := mkMonthlyPoint m v None.

Definition dotcom : MarketEvent := mkMarketEvent "dotcom" "Bolha dot-com" "2000-03" "2002-10".

(** Scenario C: the values 100, 150, 120, 80, 200 inside one window. *)
Definition scenarioC_series : list MonthlyPoint :=
  [point "2000-03" 100%float; point "2000-04" 150%float; point "2000-05" 120%float;
   point "2000-06" 80%float; point "2000-07" 200%float].

(** The peak is raised after the trough: trough 50 under the peak 100, then
    120 and a new peak of 200. *)
Definition revised_peak_series : list MonthlyPoint :=
  [point "2000-03" 100%float; point "2000-04" 50%float; point "2000-05" 120%float;
   point "2000-06" 200%float; point "2000-07" 190%float].

(** The lowest value, 90, is not the largest decline: 500 under 1000 is. *)
Definition lowest_is_not_trough_series : list MonthlyPoint :=
  [point "2000-03" 100%float; point "2000-04" 90%float; point "2000-05" 1000%float;
   point "2000-06" 500%float].

(** ** The words of the specification on the drawdown scan *)

(** The running peak after the points of [l]: the first point's value,
    replaced by each later value that exceeds it. *)
Definition running_peak (first : MonthlyPoint) (l : list MonthlyPoint) : JS.number :=
  fold_left (fun pk p => if JS.gtb (valueUSD p) pk then valueUSD p else pk) l (valueUSD first).

(** The decline of the point at index [i] from the running peak that
    includes it. *)
Definition peak_at (first : MonthlyPoint) (l : list MonthlyPoint) (i : nat) : JS.number :=
  running_peak first (firstn (S i) l).

Definition drawdown_at (first : MonthlyPoint) (l : list MonthlyPoint) (i : nat) (p : MonthlyPoint)
  : JS.number :=
  (valueUSD p / peak_at first l i - 1)%float.

(** What the loop has established after the points of [l]. *)
Record scan_invariant (first : MonthlyPoint) (l : list MonthlyPoint) (s : Scan) : Prop := {
  inv_worst_nonpos : PrimFloat.leb (worstDD s) 0 = true;
  inv_none_below :
    forall i p, nth_error l i = Some p ->
      JS.gtb (peak_at first l i) 0%float = true ->
      PrimFloat.ltb (drawdown_at first l i p) (worstDD s) = false;
  inv_trough :
    (worstDD s = 0%float /\ sc_troughMonth s = month first /\ troughValue s = valueUSD first) \/
    (exists j t,
        nth_error l j = Some t /\
        sc_troughMonth s = month t /\ troughValue s = valueUSD t /\
        JS.gtb (peak_at first l j) 0%float = true /\
        worstDD s = drawdown_at first l j t /\
        PrimFloat.ltb (worstDD s) 0 = true /\
        forall i p, i < j -> nth_error l i = Some p ->
          JS.gtb (peak_at first l i) 0%float = true ->
          PrimFloat.leb (drawdown_at first l i p) (worstDD s) = false)
}.

(** ** The words of the specification on the annual extremes *)

(** The year of a point: the first four code units of its month. *)
Definition year_of (p : MonthlyPoint) : string := JS.slice0 4 (month p).

(** [val], reached in month [mon], is the extreme of the points of year [k]
    in [l] for the order [no_worse], and [mon] is the month of the first of
    them to reach it: each earlier one is strictly beaten ([better]). *)
Definition tracked (better no_worse : JS.number -> JS.number -> bool)
  (l : list MonthlyPoint) (k : string) (val : JS.number) (mon : string) : Prop :=
  (forall q, In q l -> year_of q = k -> no_worse val (valueUSD q) = true) /\
  exists before best after,
    l = before ++ best :: after /\
    year_of best = k /\ month best = mon /\ valueUSD best = val /\
    forall q, In q before -> year_of q = k -> better val (valueUSD q) = true.

(** [x] is not [NaN]. *)
Definition comparable (x : JS.number) : Prop := PrimFloat.leb x x = true.

(** No value of the series is [NaN]. *)
Definition comparable_series (series : list MonthlyPoint) : Prop :=
  Forall (fun p => comparable (valueUSD p)) series.

Definition min_tracked := tracked PrimFloat.ltb PrimFloat.leb.
Definition max_tracked := tracked (fun x y => PrimFloat.ltb y x) (fun x y => PrimFloat.leb y x).

(** What the loop of [yearExtremes] has built after the points of [l]. *)
Record years_invariant (l : list MonthlyPoint) (m : list (string * YearExtreme)) : Prop := {
  yi_keys : NoDup (map fst m);
  yi_present : forall p, In p l -> exists e, map_get (year_of p) m = Some e;
  yi_entry :
    forall k e, map_get k m = Some e ->
      year e = k /\
      min_tracked l k (minUSD e) (minMonth e) /\
      max_tracked l k (maxUSD e) (maxMonth e)
}.

(** ** Rounding in binary64: the notions the proofs about division use *)

Module Binary64.

Local Open Scope Z_scope.

Abbreviation emin64 := (-1074).

(** [mrs] locates the rational [N / D]: its integer part and, in the round
    and sticky bits, how the fraction compares to one half. *)
Definition located (mrs : shr_record) (N D : Z) : Prop :=
  let m := shr_m mrs in
  0 <= m /\ m * D <= N < (m + 1) * D /\
  match shr_r mrs, shr_s mrs with
  | false, false => N = m * D
  | false, true => m * D < N /\ 2 * (N - m * D) < D
  | true, false => 2 * (N - m * D) = D
  | true, true => D < 2 * (N - m * D)
  end.

(** The number of units of [2 ^ emin] in a non-negative value that is a
    zero, a canonical finite number or an infinity standing for an
    overflow. *)
Definition repr (r : spec_float) (I : Z) : Prop :=
  match r with
  | S754_zero false => I = 0
  | S754_finite false m e =>
      canonical_mantissa prec emax m e = true /\ emin64 <= e /\ e <= emax - prec /\
      I = Zpos m * 2 ^ (e - emin64)
  | S754_infinity false => 2 ^ (emax - emin64) <= I
  | _ => False
  end.

(** The end of [binary_round_aux]: the rounded mantissa is normalised again
    and checked for overflow. *)
Definition finalize (k E : Z) : spec_float :=
  let '(mrs, e) := shr_fexp prec emax k E loc_Exact in
  match shr_m mrs with
  | 0 => S754_zero false
  | Zpos m => if e <=? emax - prec then S754_finite false m e else S754_infinity false
  | Zneg _ => S754_nan
  end.

(** [k * 2 ^ E'] is [Num / Den] rounded to an integer multiple of [2 ^ E'],
    where [E'] places [Num / Den] in its binade (or is zero below them). *)
Definition nearest (k E' Num Den : Z) : Prop :=
  0 <= E' /\ 0 <= k /\
  2 * Z.abs (k * (2 ^ E' * Den) - Num) <= 2 ^ E' * Den /\
  Num < 2 ^ (E' + 53) * Den /\
  (0 < E' -> 2 ^ (E' + 52) * Den <= Num).

Definition rounded (r : spec_float) (Num Den : Z) : Prop :=
  exists k E', nearest k E' Num Den /\ repr r (k * 2 ^ E').

End Binary64.

(** ** The words of the specification on the Drop Detector *)

(** [l1] is [l2] with some elements left out, the others in their order. *)
Inductive subsequence {A : Type} : list A -> list A -> Prop :=
| subsequence_nil : subsequence [] []
| subsequence_skip (x : A) (l1 l2 : list A) : subsequence l1 l2 -> subsequence l1 (x :: l2)
| subsequence_keep (x : A) (l1 l2 : list A) : subsequence l1 l2 -> subsequence (x :: l1) (x :: l2).

(** The change of the point is defined and [<= -t / 100]. *)
Definition dropped_by (t : JS.number) (p : MonthlyPoint) : bool :=
  match mom p with
  | Some c => PrimFloat.leb c (- t / 100)%float
  | None => false
  end.

(** The points come in strictly ascending order of their months. *)
Definition chronological (series : list MonthlyPoint) : Prop :=
  StronglySorted (fun p q => JS.str_ltb (month p) (month q) = true) series.

(** ** The words used on [groupByMonthEnd] *)

(** The records [groupByMonthEnd] keeps: all of them without a start date
    (or with an empty one), and otherwise those whose date is not before
    it. *)
Definition on_or_after (startDateYmd : option string) (r : DailyRow) : bool :=
  match startDateYmd with
  | Some d => negb (str_truthy d && JS.str_ltb (Date r) d)
  | None => true
  end.

Definition month_of (r : DailyRow) : string := JS.slice0 7 (Date r).

(** [r] is the last element of [l] filed under the key [k]: no element
    with that key follows it. *)
Definition last_with {R : Type} (key : R -> string) (l : list R) (k : string) (r : R) : Prop :=
  exists before after,
    l = before ++ r :: after /\ key r = k /\
    forall r', In r' after -> key r' <> k.

(** [r] is a record of [l] that no record of its month follows. *)
Definition last_of_month (l : list DailyRow) (r : DailyRow) : Prop :=
  last_with month_of l (month_of r) r.

(** The distinct months of [l], each at its first occurrence. *)
Definition months_seen (l : list DailyRow) : list string :=
  fold_left (fun acc r => set_add (month_of r) acc) l [].

(** ** The words used on [normalizeTicker] *)

(** [s] does not start with white space. *)
Definition no_lead (s : string) : Prop :=
  match s with
  | String c _ => JS.is_ws c = false
  | EmptyString => True
  end.

(** [s] neither starts nor ends with white space. *)
Definition trimmed (s : string) : Prop :=
  no_lead s /\ no_lead (JS.rev_string s "").

(** Every code unit of [s] is below 128: text on which [JS.toUpperCase] is
    the [toUpperCase] of the language. *)
Fixpoint ascii_text (s : string) : bool :=
  match s with
  | String c s' => (N_of_ascii c <? 128)%N && ascii_text s'
  | EmptyString => true
  end.

(** ** The threshold input *)

(** [Math.min(a, b)] and [Math.max(a, b)]: [NaN] as soon as one argument
    is [NaN], and [-0] counted below [+0]. *)
Definition Math_min (a b : JS.number) : JS.number :=
  if PrimFloat.is_nan a || PrimFloat.is_nan b then PrimFloat.nan
  else if PrimFloat.ltb a b then a
  else if PrimFloat.ltb b a then b
  else if PrimFloat.get_sign a then a else b.

Definition Math_max (a b : JS.number) : JS.number :=
  if PrimFloat.is_nan a || PrimFloat.is_nan b then PrimFloat.nan
  else if PrimFloat.ltb a b then b
  else if PrimFloat.ltb b a then a
  else if PrimFloat.get_sign a then b else a.

(** What the [onChange] of the threshold input stores for the text [value]
    of the field: [Math.max(1, Math.min(100, Number(value)))]. *)
Definition threshold_input (value : string) : JS.number :=
  Math_max 1%float (Math_min 100%float (JS.Number value)).

Definition onThresholdChange (value : string) (st : State) : State :=
  set_dropThresholdPct (threshold_input value) st.

(** An event for which [eventPerformance] has no data: every field after
    the window is [null]. *)
Definition no_data (perf : MarketEventPerf) : Prop :=
  startValue perf = None /\ endValue perf = None /\ absChange perf = None /\
  pctChange perf = None /\ maxDrawdown perf = None /\ troughMonth perf = None /\
  recoveryMonth perf = None /\ monthsToRecoveryFromStart perf = None /\
  monthsToRecoveryFromTrough perf = None.

(** ** The form: [handleChange], [addRow], [removeRow] *)

(** The calls of [handleChange] the form makes: the key with the value the
    field hands over (the text of the input, or the option chosen). *)
Inductive Edit :=
| EditTicker (val : string)
| EditAmount (val : string)
| EditCurrency (val : Currency)
| EditDate (val : string).

(** [{ ...r, [key]: key === "amount" ? Number(val) : val }]. *)
Definition edit_row (e : Edit) (r : Row) : Row :=
  match e with
  | EditTicker val => mkRow (id r) val (amount r) (currency r) (date r)
  | EditAmount val => mkRow (id r) (ticker r) (JS.Number val) (currency r) (date r)
  | EditCurrency val => mkRow (id r) (ticker r) (amount r) val (date r)
  | EditDate val => mkRow (id r) (ticker r) (amount r) (currency r) val
  end.

(** [setRows(f)]. *)
Definition setRows (f : list Row -> list Row) (st : State) : State :=
  mkState (f (rows st)) (useEur st) (fx st) (calc st) (error st) (dropThresholdPct st)
    (dropsLoading st) (monthlySeries st) (bigDrops st).

Definition handleChange (i : JS.number) (e : Edit) (st : State) : State :=
  setRows (map (fun r => if PrimFloat.eqb (id r) i then edit_row e r else r)) st.

(** [(rows.at(-1)?.id ?? 0) + 1]. *)
Definition nextId (rows : list Row) : JS.number :=
  match rev rows with
  | r :: _ => (id r + 1)%float
  | [] => (0 + 1)%float
  end.

Definition newRow (rows : list Row) : Row :=
  mkRow (nextId rows) "" 1000%float EUR "2015-01-02".

Definition addRow (st : State) : State :=
  setRows (fun old => old ++ [newRow (rows st)]) st.

Definition removeRow (i : JS.number) (st : State) : State :=
  setRows (filter (fun r => negb (PrimFloat.eqb (id r) i))) st.

(** The rows the form starts with. *)
Definition initial_rows : list Row :=
  [ mkRow 1%float "NVDA" 1000%float EUR "2000-01-05";
    mkRow 2%float "MSFT" 1000%float EUR "2000-01-05";
    mkRow 3%float "GOOGL" 1000%float EUR "2004-08-19" ].

(** ** The pages of the table of drops *)

(** The page and the page size are whole numbers the component sets itself
    (1, a step of one from the page before, one of the options 10, 20, 50
    and 100), and the length of the list is one: they are naturals here,
    [Math.ceil(n / d)] being the quotient rounded up. *)
Definition ceil_div (n d : nat) : nat := (n + d - 1) / d.

Definition totalPages (len pageSize : nat) : nat := Nat.max 1 (ceil_div len pageSize).

Definition page_start (page pageSize : nat) : nat := (page - 1) * pageSize.

Definition page_end (len page pageSize : nat) : nat :=
  Nat.min len (page_start page pageSize + pageSize).

(** [l.slice(start, end)] for whole [0 <= start] and [0 <= end]. *)
Definition slice {A : Type} (start end_ : nat) (l : list A) : list A :=
  firstn (end_ - start) (skipn start l).

(** The rows of the table:
    [showAll ? bigDrops : bigDrops.slice(start, end)]. *)
Definition visibleDrops (showAll : bool) (page pageSize : nat) (drops : list MonthlyPoint)
  : list MonthlyPoint :=
  if showAll then drops
  else slice (page_start page pageSize) (page_end (List.length drops) page pageSize) drops.

(** The two page buttons. *)
Definition previousPage (p : nat) : nat := Nat.max 1 (p - 1).

Definition followingPage (len pageSize p : nat) : nat :=
  Nat.min (Nat.max 1 (ceil_div len pageSize)) (p + 1).

(** ** CSV responses: [parseCSV], [fetchLatestQuotes], [fetchEURUSD] *)

(** [s.split(/\r?\n/)]: a line ends at a line feed, and a carriage return
    right before it is part of the separator. *)
Fixpoint split_lines (s cur : string) : list string :=
  match s with
  | String c s' =>
      if Ascii.eqb c "010" then JS.rev_string cur "" :: split_lines s' ""
      else if Ascii.eqb c "013" then
        match s' with
        | String d s'' =>
            if Ascii.eqb d "010" then JS.rev_string cur "" :: split_lines s'' ""
            else split_lines s' (String c cur)
        | EmptyString => split_lines s' (String c cur)
        end
      else split_lines s' (String c cur)
  | EmptyString => [JS.rev_string cur ""]
  end.

(** The names of the properties of [Object.prototype], which an object
    literal inherits. *)
Definition Object_prototype : list string :=
  ["constructor"; "hasOwnProperty"; "isPrototypeOf"; "propertyIsEnumerable";
   "toLocaleString"; "toString"; "valueOf"; "__proto__";
   "__defineGetter__"; "__defineSetter__"; "__lookupGetter__"; "__lookupSetter__"].

Definition inherited (key : string) : bool := existsb (String.eqb key) Object_prototype.

(** A parsed line: the object [row], as its own properties in the order in
    which the loop over the headers has created them, each holding a cell
    or [undefined]. *)
Definition CsvRow := list (string * option string).

(** What [r[key]] evaluates to: a cell, [undefined], or what
    [Object.prototype] has under [key] (a function, and under [__proto__]
    the prototype itself). *)
Inductive Value :=
| Text (s : string)
| Undefined
| Inherited (key : string).

(** [row[h] = v] for [v] a string or [undefined]: an own property is
    created or set again, except under [__proto__], where the assignment
    calls the setter of [Object.prototype], which ignores a value that is no
    object. *)
Definition assign (h : string) (v : option string) (r : CsvRow) : CsvRow :=
  if String.eqb h "__proto__" then r else map_set h v r.

(** [r[key]]: the own property, and failing that the one of
    [Object.prototype]. *)
Definition field (key : string) (r : CsvRow) : Value :=
  match map_get key r with
  | Some (Some s) => Text s
  | Some None => Undefined
  | None => if inherited key then Inherited key else Undefined
  end.

(** [headers.forEach((h, i) => (row[h] = cells[i]))] on the cells of
    [line]. *)
Definition csv_row (headers : list string) (line : string) : CsvRow :=
  let cells := JS.split "," line in
  fst (fold_left (fun acc h => (assign h (nth_error cells (snd acc)) (fst acc), S (snd acc)))
         headers ([], 0)).

Definition parseCSV (text : string) : list CsvRow :=
  match split_lines (JS.trim text) "" with
  | header :: lines => map (csv_row (JS.split "," header)) (filter str_truthy lines)
  | [] => []
  end.

(** [asNum(v)] on what a row holds: the text of a function or of the
    prototype is no number. *)
Definition asNum_of (v : Value) : JS.number :=
  match v with
  | Text s => asNum (Some s)
  | Undefined => asNum None
  | Inherited _ => PrimFloat.nan
  end.

(** [(r["Symbol"] || "").toUpperCase()]. ([Symbol] is no property of
    [Object.prototype]: what the row holds under it is a cell or
    [undefined].) *)
Definition quote_symbol (r : CsvRow) : string :=
  JS.toUpperCase (match field "Symbol" r with Text s => s | _ => "" end).

Definition quote_close (r : CsvRow) : JS.number := asNum_of (field "Close" r).

(** The [Map] [fetchLatestQuotes] builds from the parsed rows, each symbol
    with the [close] of its entry. *)
Definition quoteMap_of (rows : list CsvRow) : list (string * JS.number) :=
  fold_left (fun m r => map_set (quote_symbol r) (quote_close r) m) rows [].

(** [fetchLatestQuotes] on the body of the response ([None] when the
    response is not ok), as the lookup [key => map.get(key)?.close]; [None]
    when it throws. *)
Definition fetchLatestQuotes (response : option string)
  : option (string -> option JS.number) :=
  match response with
  | Some text => Some (fun key => map_get key (quoteMap_of (parseCSV text)))
  | None => None
  end.

(** [fetchEURUSD] on the body of the response: [None] when it throws,
    which it does on a response that is not ok and, reading [rows[0]], on one
    with no data line. *)
Definition fetchEURUSD (response : option string) : option JS.number :=
  match response with
  | Some text =>
      match parseCSV text with
      | r :: _ =>
          Some (match field "Close" r with
                | Text s => JS.parseFloat s
                | _ => PrimFloat.nan
                end)
      | [] => None
      end
  | None => None
  end.

(** The cells of a row are text with code units below 128. *)
Definition ascii_row (r : CsvRow) : Prop :=
  Forall (fun kv => match snd kv with Some s => ascii_text s = true | None => True end) r.

(** The index of the last occurrence of [h] in [hs]. *)
Fixpoint last_index (h : string) (hs : list string) : option nat :=
  match hs with
  | [] => None
  | x :: hs' =>
      match last_index h hs' with
      | Some j => Some (S j)
      | None => if String.eqb x h then Some 0 else None
      end
  end.

(** A response of the quote service for two symbols, the first in lower
    case and with a close that is not a number. *)
Definition quotes_response : string :=
  "Symbol,Date,Time,Open,High,Low,Close,Volume" ++ String "013" (String "010" "") ++
  "nvda.us,2024-01-02,22:00:00,1,2,1,N/D,10" ++ String "013" (String "010" "") ++
  "MSFT.US,2024-01-02,22:00:00,1,2,1,370.5,10" ++ String "013" (String "010" "").

(** ** Whole numbers in binary64 *)

(** The binary64 value of the integer [n]: exactly [n] for a magnitude
    below [2 ^ 53]. *)
Definition whole (n : Z) : JS.number :=
  if (n <? 0)%Z then (- JS.of_Z (- n))%float else JS.of_Z n.

(** The value of [s] read as a run of decimal digits, from the value [acc]
    of the digits before it; [None] when a code unit of [s] is no digit. *)
Fixpoint numeral_value (s : string) (acc : Z) : option Z :=
  match s with
  | String c s' =>
      match JS.digit_of 10 c with
      | Some d => numeral_value s' (10 * acc + d)%Z
      | None => None
      end
  | EmptyString => Some acc
  end.

(** [s] is a non-empty run of decimal digits, of value [v]. *)
Definition numeral (s : string) (v : Z) : Prop :=
  s <> "" /\ numeral_value s 0 = Some v.

(** ** The totals under the table of positions *)

Record Totals := mkTotals {
  investedUSD : JS.number;
  investedOriginalEUR : JS.number;
  investedOriginalUSD : JS.number;
  curUSD : JS.number;
  curEUR : option JS.number;
  plUSD : JS.number;
  plPct : JS.number
}.

(** [results.reduce((s, r) => s + f(r), 0)]. *)
Definition sum_of (f : PositionResult -> JS.number) (l : list PositionResult) : JS.number :=
  fold_left (fun s r => (s + f r)%float) l 0%float.

(** [r.currency === c ? Number(r.amountOriginal) : 0]. *)
Definition original_in (c : Currency) (r : PositionResult) : JS.number :=
  if Currency_eqb (res_currency r) c then amountOriginal r else 0%float.

(** The [totals] of the render of [st]. *)
Definition totals (st : State) : Totals :=
  let rs := results (calc st) in
  let investedUSD := sum_of amountInvested rs in
  let curUSD := sum_of currentValueUSD rs in
  let curEUR :=
    match fx st with
    | Some eurusd =>
        if useEur st && JS.truthy eurusd then Some (curUSD / eurusd)%float else None
    | None => None
    end in
  let plUSD := (curUSD - investedUSD)%float in
  let plPct :=
    if JS.gtb investedUSD 0%float then (plUSD / investedUSD * 100)%float else 0%float in
  mkTotals investedUSD (sum_of (original_in EUR) rs) (sum_of (original_in USD) rs)
    curUSD curEUR plUSD plPct.

(** The sum of the amounts of the currency [c] in a list of amounts with
    their currencies. *)
Definition amount_in (c : Currency) (l : list (Currency * Z)) : Z :=
  fold_left (fun s p => if Currency_eqb (fst p) c then (s + snd p)%Z else s) l 0%Z.

(** ** The pager of the table of drops, as a transition system *)

(** The state of the pager at a committed render: the drops, the page, the
    page size, whether all rows are shown, and whether the effect on
    [bigDrops] and [dropThresholdPct] is yet to run. The effect runs after
    the render that brought new drops or a new threshold is committed: that
    render has the new drops with the page as it was. *)
Record Pager := mkPager {
  shown : list MonthlyPoint;
  page : nat;
  pageSize : nat;
  showAll : bool;
  resetDue : bool
}.

(** The state of the pager at the first render, whose effect is to run. *)
Definition initial_pager : Pager := mkPager [] 1 20 false true.

(** What the user and the component can do to the pager: the two page
    buttons, the choice of a page size among the options (which goes back to
    page 1), the button that shows all rows or pages again, a render with a
    new list of drops or a new threshold (after which the effect is due),
    and the effect itself (page 1, paged). *)
Inductive pager_step : Pager -> Pager -> Prop :=
| step_previous (p : Pager) :
    pager_step p (mkPager (shown p) (previousPage (page p)) (pageSize p) (showAll p) (resetDue p))
| step_following (p : Pager) :
    pager_step p
      (mkPager (shown p) (followingPage (List.length (shown p)) (pageSize p) (page p))
         (pageSize p) (showAll p) (resetDue p))
| step_pageSize (p : Pager) (n : nat) :
    In n [10; 20; 50; 100] ->
    pager_step p (mkPager (shown p) 1 n (showAll p) (resetDue p))
| step_showAll (p : Pager) :
    pager_step p (mkPager (shown p) (page p) (pageSize p) (negb (showAll p)) (resetDue p))
| step_drops (p : Pager) (drops : list MonthlyPoint) :
    pager_step p (mkPager drops (page p) (pageSize p) (showAll p) true)
| step_effect (p : Pager) :
    resetDue p = true ->
    pager_step p (mkPager (shown p) 1 (pageSize p) false false).

Inductive pager_reachable : Pager -> Prop :=
| reachable_initial : pager_reachable initial_pager
| reachable_step (p q : Pager) : pager_reachable p -> pager_step p q -> pager_reachable q.

(** Twenty-five drops, for three pages of ten. *)
Definition many_drops : list MonthlyPoint := repeat (point "2020-03" 70%float) 25.

(** The render before the effect, when five drops replace twenty-five
    while the pager is on page 3 of 3, ten rows a page. *)
Definition stale_pager : Pager := mkPager scenarioC_series 3 10 false true.

(** ** The page as a transition system *)

(** The state of the first render. *)
Definition page_state : State :=
  mkState initial_rows true None (mkCalc false []) None 15%float false [] [].

(** [setUseEur(checked)]. *)
Definition setUseEur (checked : bool) (st : State) : State :=
  mkState (rows st) checked (fx st) (calc st) (error st) (dropThresholdPct st)
    (dropsLoading st) (monthlySeries st) (bigDrops st).

(** One event of the page, handled to its end: the two computations, with
    whatever the network answers, the edits of the form, the check box and
    the threshold input. *)
Inductive page_step : State -> State -> Prop :=
| step_calculate (env : Env) (st : State) : page_step st (calculate env st)
| step_computeMonthlyDrops (env : Env) (st : State) : page_step st (computeMonthlyDrops env st)
| step_handleChange (i : JS.number) (e : Edit) (st : State) : page_step st (handleChange i e st)
| step_addRow (st : State) : page_step st (addRow st)
| step_removeRow (i : JS.number) (st : State) : page_step st (removeRow i st)
| step_setUseEur (checked : bool) (st : State) : page_step st (setUseEur checked st)
| step_threshold (value : string) (st : State) : page_step st (onThresholdChange value st).

Inductive page_reachable : State -> Prop :=
| page_initial : page_reachable page_state
| page_next (st st' : State) : page_reachable st -> page_step st st' -> page_reachable st'.

(** The stored rate is absent or usable: neither zero nor [NaN]. *)
Definition usable_or_absent (fx : option JS.number) : Prop :=
  match fx with
  | Some x => JS.truthy x = true
  | None => True
  end.

(** ** Calendar months *)

(** [s] is the month [m] of the year [y], written [YYYY-MM]. *)
Definition month_text (s : string) (y m : Z) : Prop :=
  exists ys ms,
    s = (ys ++ String "-" ms)%string /\
    numeral ys y /\ numeral ms m /\
    String.length ys = 4 /\ String.length ms = 2 /\
    (1 <= m <= 12)%Z.

(** The months of the series are calendar months. *)
Definition calendar_series (series : list MonthlyPoint) : Prop :=
  Forall (fun p => exists y m, month_text (month p) y m) series.

(** ** The words of the specification on the order of the years *)

(** The number the year of an entry stands for when it is written in
    digits ([0] when it is not). *)
Definition year_number (y : YearExtreme) : Z :=
  match numeral_value (year y) 0 with
  | Some v => v
  | None => 0%Z
  end.

(** The year of the entry is written with four digits. *)
Definition four_digit_year (y : YearExtreme) : Prop :=
  String.length (year y) = 4 /\ numeral (year y) (year_number y).

(** The months of the series start with a year of four digits, as the
    months [YYYY-MM] of an aggregated series do. *)
Definition four_digit_years (series : list MonthlyPoint) : Prop :=
  Forall (fun p => String.length (year_of p) = 4 /\ exists v, numeral (year_of p) v) series.

(** What is asked of the collation of the host: two runs of digits of the
    same length come in the order of the numbers they stand for. *)
Definition orders_digits (localeCompare : Collation) : Prop :=
  forall a b va vb,
    numeral a va -> numeral b vb -> String.length a = String.length b ->
    localeCompare a b = (va ?= vb)%Z.

(** A series whose years do not come in order. *)
Definition unordered_years_series : list MonthlyPoint :=
  [point "2001-02" 120%float; point "2000-03" 100%float; point "2001-01" 90%float;
   point "1999-12" 80%float].

(** ** The window of an event, in calendar months *)

(** The number of the month [s], written [YYYY-MM], counting twelve per
    year ([0] for a string that is not written so). *)
Definition month_index (s : string) : Z :=
  match numeral_value (substring 0 4 s) 0, numeral_value (substring 5 2 s) 0 with
  | Some y, Some m => (y * 12 + m)%Z
  | _, _ => 0%Z
  end.

(** The month of [p] is no earlier than the first month of the event and no
    later than its last month, as calendar months. *)
Definition in_calendar_window (ev : MarketEvent) (p : MonthlyPoint) : bool :=
  (month_index (ev_startMonth ev) <=? month_index (month p))%Z &&
  (month_index (month p) <=? month_index (ev_endMonth ev))%Z.

(** What the row [perf] of the crisis table shows of the event [ev] on the
    series: the event and its window; as start and end values those of the
    first and of the last point of the series in the window; no figure at
    all when no point of the series is in the window, and the start value,
    end value, change, maximum drawdown and trough month as soon as one is. *)
Definition row_of_event (series : list MonthlyPoint) (ev : MarketEvent)
  (perf : MarketEventPerf) : Prop :=
  perf_id perf = ev_id ev /\ perf_name perf = ev_name ev /\
  startMonth perf = ev_startMonth ev /\ endMonth perf = ev_endMonth ev /\
  startValue perf = option_map valueUSD (find (in_calendar_window ev) series) /\
  endValue perf = option_map valueUSD (find (in_calendar_window ev) (rev series)) /\
  ((forall p, In p series -> in_calendar_window ev p = false) -> no_data perf) /\
  (forall p, In p series -> in_calendar_window ev p = true ->
     startValue perf <> None /\ endValue perf <> None /\ absChange perf <> None /\
     maxDrawdown perf <> None /\ troughMonth perf <> None).

(** * Properties *)

(** ** Lists: the first element that satisfies a test *)

Section FindFirst.

Context {A : Type} (f : A -> bool).

Lemma find_Some_split (l : list A) (t : A) :
  find f l = Some t <->
  exists before after,
    l = before ++ t :: after /\
    (forall x, In x before -> f x = false) /\
    f t = true.
Proof.
  induction l as [|a l IH]; simpl.
  - split; [discriminate|].
    intros (before & after & E & _). destruct before; discriminate.
  - destruct (f a) eqn:Fa; split.
    + intros [= ->]. exists [], l. simpl. auto using in_nil.
      repeat split; auto. intros x [].
    + intros (before & after & E & Hb & Ht).
      destruct before as [|b before]; simpl in E; injection E as -> E.
      * reflexivity.
      * rewrite (Hb b) in Fa by (left; reflexivity). discriminate.
    + intros H. apply IH in H as (before & after & -> & Hb & Ht).
      exists (a :: before), after. repeat split; auto.
      intros x [<-|Hx]; auto.
    + intros (before & after & E & Hb & Ht).
      destruct before as [|b before]; simpl in E; injection E as -> E.
      * congruence.
      * apply IH. exists before, after. repeat split; auto.
        intros x Hx. apply Hb. right. exact Hx.
Qed.

Lemma find_None_iff (l : list A) :
  find f l = None <-> forall x, In x l -> f x = false.
Proof.
  split.
  - intros H x Hx. exact (find_none f l H x Hx).
  - induction l as [|a l IH]; simpl; intros H; [reflexivity|].
    rewrite (H a) by (left; reflexivity). apply IH. intros x Hx. apply H. right. exact Hx.
Qed.

End FindFirst.

(** ** Loops that may throw *)

Lemma for_each_throws {A B : Type} (body : A -> result B) (l : list A) (a : A) (e : Error) :
  In a l -> body a = Throw e -> exists e', for_each body l = Throw e'.
Proof.
  induction l as [|b l IH]; simpl; [intros []|].
  intros [->|Hin] Ha.
  - rewrite Ha. simpl. eauto.
  - destruct (body b); simpl; eauto.
    destruct (IH Hin Ha) as [e' ->]. simpl. eauto.
Qed.

Lemma for_each_length {A B : Type} (body : A -> result B) (l : list A) (bs : list B) :
  for_each body l = Ok bs -> List.length bs = List.length l.
Proof.
  revert bs. induction l as [|a l IH]; simpl; intros bs.
  - intros [= <-]. reflexivity.
  - destruct (body a); simpl; [|discriminate].
    destruct (for_each body l); simpl; [|discriminate].
    intros [= <-]. simpl. f_equal. apply IH. reflexivity.
Qed.

Lemma for_each_In {A B : Type} (body : A -> result B) (l : list A) (bs : list B) (b : B) :
  for_each body l = Ok bs -> In b bs -> exists a, In a l /\ body a = Ok b.
Proof.
  revert bs. induction l as [|a l IH]; simpl; intros bs.
  - intros [= <-] [].
  - destruct (body a) as [b0|] eqn:Ea; simpl; [|discriminate].
    destruct (for_each body l) as [bs0|]; simpl; [|discriminate].
    intros [= <-] [<-|Hin].
    + exists a. auto.
    + destruct (IH bs0 eq_refl Hin) as (a' & Ha' & Hb). exists a'. auto.
Qed.

(** ** The order of binary64 values *)

Module FloatOrder.

Ltac sf_compare_cases :=
  repeat match goal with
  | |- context [Z.compare ?a ?b] => destruct (Z.compare_spec a b)
  | |- context [Pos.compare_cont Eq ?a ?b] =>
      change (Pos.compare_cont Eq a b) with (Pos.compare a b);
      destruct (Pos.compare_spec a b)
  end.

(** Decides an order fact on [spec_float]s by cases on their shapes. *)
Ltac sf_order :=
  unfold SFltb, SFleb, SFeqb, SFcompare;
  repeat match goal with
  | x : spec_float |- _ => destruct x as [[]|[]| |[] ? ?]
  end;
  simpl; try congruence; try reflexivity;
  sf_compare_cases; simpl; intros; subst; try congruence; try lia.

Lemma SFltb_trans x y z : SFltb x y = true -> SFltb y z = true -> SFltb x z = true.
Proof. sf_order. Qed.

Lemma SFltb_leb_trans x y z : SFltb x y = true -> SFleb y z = true -> SFltb x z = true.
Proof. sf_order. Qed.

Lemma SFleb_ltb_trans x y z : SFleb x y = true -> SFltb y z = true -> SFltb x z = true.
Proof. sf_order. Qed.

Lemma SFleb_trans x y z : SFleb x y = true -> SFleb y z = true -> SFleb x z = true.
Proof. sf_order. Qed.

Lemma SFltb_leb x y : SFltb x y = true -> SFleb x y = true.
Proof. sf_order. Qed.

Lemma SFltb_not_leb x y : SFltb x y = true -> SFleb y x = false.
Proof. sf_order. Qed.

Lemma SFleb_not_ltb x y : SFleb x y = true -> SFltb y x = false.
Proof. sf_order. Qed.

Lemma SFnot_ltb_leb x y :
  SFleb x x = true -> SFleb y y = true -> SFltb x y = false -> SFleb y x = true.
Proof. sf_order. Qed.

Lemma SFltb_comparable x y : SFltb x y = true -> SFleb x x = true /\ SFleb y y = true.
Proof. sf_order. Qed.

Lemma SFleb_comparable x y : SFleb x y = true -> SFleb x x = true /\ SFleb y y = true.
Proof. sf_order. Qed.

Lemma SFabs_idem x : SFabs (SFabs x) = SFabs x.
Proof. destruct x; reflexivity. Qed.

Lemma SFabs_pos x : SFltb (S754_zero false) x = true -> SFabs x = x.
Proof. destruct x as [[]|[]| |[] ? ?]; simpl; intros H; solve [reflexivity | discriminate H]. Qed.

Local Open Scope float_scope.

Lemma ltb_trans x y z : (x <? y) = true -> (y <? z) = true -> (x <? z) = true.
Proof. rewrite !ltb_spec. apply SFltb_trans. Qed.

Lemma ltb_leb_trans x y z : (x <? y) = true -> (y <=? z) = true -> (x <? z) = true.
Proof. rewrite !ltb_spec, leb_spec. apply SFltb_leb_trans. Qed.

Lemma leb_ltb_trans x y z : (x <=? y) = true -> (y <? z) = true -> (x <? z) = true.
Proof. rewrite !ltb_spec, leb_spec. apply SFleb_ltb_trans. Qed.

Lemma leb_trans x y z : (x <=? y) = true -> (y <=? z) = true -> (x <=? z) = true.
Proof. rewrite !leb_spec. apply SFleb_trans. Qed.

Lemma ltb_leb x y : (x <? y) = true -> (x <=? y) = true.
Proof. rewrite ltb_spec, leb_spec. apply SFltb_leb. Qed.

Lemma ltb_not_leb x y : (x <? y) = true -> (y <=? x) = false.
Proof. rewrite ltb_spec, leb_spec. apply SFltb_not_leb. Qed.

Lemma leb_not_ltb x y : (x <=? y) = true -> (y <? x) = false.
Proof. rewrite ltb_spec, leb_spec. apply SFleb_not_ltb. Qed.

Lemma not_ltb_leb x y : comparable x -> comparable y -> (x <? y) = false -> (y <=? x) = true.
Proof. unfold comparable. rewrite ltb_spec, !leb_spec. apply SFnot_ltb_leb. Qed.

Lemma ltb_comparable x y : (x <? y) = true -> comparable x /\ comparable y.
Proof. unfold comparable. rewrite ltb_spec, !leb_spec. apply SFltb_comparable. Qed.

Lemma leb_comparable x y : (x <=? y) = true -> comparable x /\ comparable y.
Proof. unfold comparable. rewrite !leb_spec. apply SFleb_comparable. Qed.

Lemma abs_idem x : abs (abs x) = abs x.
Proof. apply Prim2SF_inj. rewrite !abs_spec. apply SFabs_idem. Qed.

Lemma abs_pos x : (0 <? x) = true -> abs x = x.
Proof.
  rewrite ltb_spec. intros H. apply Prim2SF_inj. rewrite abs_spec.
  apply SFabs_pos. exact H.
Qed.

End FloatOrder.

(** ** Division in binary64 is monotone *)

Module Binary64Facts.

Import Binary64.

Local Open Scope Z_scope.

(** A positive number of [d] binary digits lies in [[2 ^ (d - 1), 2 ^ d)]. *)
Lemma digits2_pos_bounds (p : positive) :
  2 ^ (Zpos (digits2_pos p) - 1) <= Zpos p < 2 ^ Zpos (digits2_pos p).
Proof.
  induction p as [p IH|p IH|]; simpl digits2_pos.
  - rewrite Pos2Z.inj_succ. replace (Z.succ (Zpos (digits2_pos p)) - 1) with (Z.succ (Zpos (digits2_pos p) - 1)) by lia.
    rewrite !Z.pow_succ_r by lia. lia.
  - rewrite Pos2Z.inj_succ. replace (Z.succ (Zpos (digits2_pos p)) - 1) with (Z.succ (Zpos (digits2_pos p) - 1)) by lia.
    rewrite !Z.pow_succ_r by lia. lia.
  - simpl. lia.
Qed.

Lemma Zdigits2_bounds (m : Z) : 0 < m -> 2 ^ (Zdigits2 m - 1) <= m < 2 ^ Zdigits2 m.
Proof. destruct m; try lia. intros _. apply digits2_pos_bounds. Qed.

Lemma Zdigits2_nonneg m : 0 <= m -> 0 <= Zdigits2 m.
Proof. destruct m; simpl; lia. Qed.


(** One shift to the right halves the rational a record locates. *)
Lemma shr_1_located (mrs : shr_record) (N D : Z) :
  0 < D -> located mrs N D -> located (shr_1 mrs) N (2 * D).
Proof.
  intros HD. destruct mrs as [m r s]. unfold located. cbn [shr_m shr_r shr_s].
  intros (Hm & Hb & Hloc).
  destruct m as [|[p|p|]|p]; try lia;
    try pose proof (Pos2Z.inj_xI p) as Hp; try pose proof (Pos2Z.inj_xO p) as Hp';
    destruct r, s; cbn [shr_1 shr_m shr_r shr_s orb]; nia.
Qed.

Lemma pow2_xI (n : positive) : 2 ^ Zpos n~1 = 2 ^ Zpos n * (2 ^ Zpos n * 2).
Proof.
  rewrite (Pos2Z.inj_xI n). replace (2 * Zpos n + 1) with (Zpos n + Zpos n + 1) by lia.
  rewrite !Z.pow_add_r by lia. change (2 ^ 1) with 2. ring.
Qed.

Lemma pow2_xO (n : positive) : 2 ^ Zpos n~0 = 2 ^ Zpos n * 2 ^ Zpos n.
Proof.
  rewrite (Pos2Z.inj_xO n). replace (2 * Zpos n) with (Zpos n + Zpos n) by lia.
  rewrite !Z.pow_add_r by lia. ring.
Qed.

Lemma pow2_pos (n : Z) : 0 <= n -> 0 < 2 ^ n.
Proof. intros. apply Z.pow_pos_nonneg; lia. Qed.

Lemma iter_pos_shr_1_located (n : positive) :
  forall mrs N D, 0 < D -> located mrs N D ->
    located (iter_pos shr_1 n mrs) N (2 ^ Zpos n * D).
Proof.
  induction n as [n IH|n IH|]; intros mrs N D HD H; cbn [iter_pos].
  - pose proof (pow2_pos (Zpos n) ltac:(lia)) as Hpow.
    apply shr_1_located in H; [|exact HD].
    apply IH in H; [|lia]. apply IH in H; [|nia].
    replace (2 ^ Zpos n~1 * D) with (2 ^ Zpos n * (2 ^ Zpos n * (2 * D))); [exact H|].
    rewrite pow2_xI. ring.
  - pose proof (pow2_pos (Zpos n) ltac:(lia)) as Hpow.
    apply IH in H; [|exact HD]. apply IH in H; [|nia].
    replace (2 ^ Zpos n~0 * D) with (2 ^ Zpos n * (2 ^ Zpos n * D)); [exact H|].
    rewrite pow2_xO. ring.
  - apply shr_1_located; assumption.
Qed.

(** Shifting by [n] bits, as [shr] does it. *)
Lemma shr_located (mrs : shr_record) (e n N D : Z) :
  0 < D -> located mrs N D ->
  located (fst (shr mrs e n)) N (2 ^ Z.max n 0 * D) /\ snd (shr mrs e n) = e + Z.max n 0.
Proof.
  intros HD H. destruct n as [|n|n]; cbn [shr fst snd].
  - split; [|lia]. change (2 ^ Z.max 0 0 * D) with (1 * D). rewrite Z.mul_1_l. exact H.
  - split; [|lia]. replace (Z.max (Zpos n) 0) with (Zpos n) by lia.
    apply iter_pos_shr_1_located; assumption.
  - split; [|lia]. change (2 ^ Z.max (Zneg n) 0 * D) with (1 * D). rewrite Z.mul_1_l. exact H.
Qed.

(** The quotient [q] and the location of the remainder [r] locate
    [(q * d + r) / d]. *)
Lemma new_location_located (d q r : Z) :
  0 < d -> 0 <= q -> 0 <= r < d ->
  located (shr_record_of_loc q (new_location d r)) (q * d + r) d.
Proof.
  intros Hd Hq Hr. unfold new_location, new_location_even, new_location_odd.
  destruct (Z.even d) eqn:Ev.
  - destruct (Z.eqb_spec r 0) as [->|Hr0]; cbn [shr_record_of_loc].
    + unfold located. cbn [shr_m shr_r shr_s]. lia.
    + destruct (Z.compare_spec (2 * r) d); unfold located; cbn [shr_record_of_loc shr_m shr_r shr_s]; lia.
  - assert (Hodd : Z.odd d = true) by (rewrite <- Z.negb_even, Ev; reflexivity).
    apply Z.odd_spec in Hodd as [h Hh].
    destruct (Z.eqb_spec r 0) as [->|Hr0]; cbn [shr_record_of_loc].
    + unfold located. cbn [shr_m shr_r shr_s]. lia.
    + destruct (Z.compare_spec (2 * r + 1) d); unfold located; cbn [shr_record_of_loc shr_m shr_r shr_s]; lia.
Qed.

(** Rounding a located rational to nearest even moves it by at most one
    half. *)
Lemma round_nearest_even_located (mrs : shr_record) (N D : Z) :
  0 < D -> located mrs N D ->
  let k := round_nearest_even (shr_m mrs) (loc_of_shr_record mrs) in
  shr_m mrs <= k <= shr_m mrs + 1 /\ 2 * Z.abs (k * D - N) <= D.
Proof.
  intros HD. destruct mrs as [m r s]. unfold located. cbn [shr_m shr_r shr_s].
  intros (Hm & Hb & Hloc).
  destruct r, s; cbn [loc_of_shr_record round_nearest_even]; try destruct (Z.even m); nia.
Qed.

Lemma fexp64 (e : Z) : fexp prec emax e = Z.max (e - 53) emin64.
Proof. reflexivity. Qed.

Lemma pow2_lt_inv (a b : Z) : 0 <= b -> 2 ^ a < 2 ^ b -> a < b.
Proof. intros Hb H. apply (Z.pow_lt_mono_r_iff 2); lia. Qed.

Lemma pow2_le_mono (a b : Z) : 0 <= a <= b -> 2 ^ a <= 2 ^ b.
Proof. intros. apply Z.pow_le_mono_r; lia. Qed.

Lemma pow2_lt_mono (a b : Z) : 0 <= a < b -> 2 ^ a < 2 ^ b.
Proof. intros. apply Z.pow_lt_mono_r; lia. Qed.

Lemma located_exact (k : Z) : 0 <= k -> located (shr_record_of_loc k loc_Exact) k 1.
Proof. intros. unfold located. cbn [shr_record_of_loc shr_m shr_r shr_s]. lia. Qed.

(** A canonical mantissa has at most 53 bits, and exactly 53 above the
    least exponent. *)
Lemma canonical_units (m : positive) (e : Z) :
  canonical_mantissa prec emax m e = true ->
  Zpos m < 2 ^ 53 /\ (emin64 < e -> 2 ^ 52 <= Zpos m) /\ emin64 <= e.
Proof.
  unfold canonical_mantissa. rewrite fexp64. intros H. apply Z.eqb_eq in H.
  destruct (digits2_pos_bounds m) as [H1 H2].
  set (d := Zpos (digits2_pos m)) in *. assert (0 < d) by (unfold d; lia).
  split; [|split].
  - assert (d <= 53) by lia. pose proof (pow2_le_mono d 53 ltac:(lia)). lia.
  - intros He. assert (d = 53) by lia. replace 52 with (d - 1) by lia. exact H1.
  - lia.
Qed.

(** The end of the rounding represents [k * 2 ^ E] whenever [k] has at most
    53 bits, or is [2 ^ 53], and is normal above the least exponent. *)
Lemma finalize_repr (k E : Z) :
  emin64 <= E -> 0 <= k <= 2 ^ 53 -> (emin64 < E -> 2 ^ 52 <= k) ->
  repr (finalize k E) (k * 2 ^ (E - emin64)).
Proof.
  intros HE Hk Hnorm. unfold finalize, shr_fexp.
  destruct (shr_located (shr_record_of_loc k loc_Exact) E
              (fexp prec emax (Zdigits2 k + E) - E) k 1 ltac:(lia) (located_exact k ltac:(lia)))
    as [Hloc He].
  destruct (shr _ E _) as [mrs e]. cbn [fst snd] in Hloc, He.
  rewrite fexp64 in Hloc, He.
  destruct Hloc as (Hm & Hb & _). rewrite Z.mul_1_r in Hb.
  assert (Hover : emax - prec < e -> emin64 < E).
  { unfold emax, prec. intros. destruct (Z.eq_dec k 0) as [->|Hk0].
    - change (Zdigits2 0) with 0 in He. lia.
    - pose proof (Zdigits2_bounds k ltac:(lia)) as [D1 D2].
      assert (Zdigits2 k <= 54).
      { assert (Zdigits2 k - 1 < 54); [|lia]. apply pow2_lt_inv; [lia|].
        change (2 ^ 54) with (2 * 2 ^ 53). lia. }
      lia. }
  destruct (Z.eq_dec k 0) as [->|Hk0].
  - (* zero *)
    assert (shr_m mrs = 0).
    { assert (0 < 2 ^ Z.max (Z.max (Zdigits2 0 + E - 53) emin64 - E) 0) by (apply pow2_pos; lia). nia. }
    rewrite H. cbn. reflexivity.
  - pose proof (Zdigits2_bounds k ltac:(lia)) as [D1 D2].
    set (d := Zdigits2 k) in *.
    assert (Hd : 0 < d) by (unfold d; destruct k; cbn; lia).
    destruct (Z.eq_dec k (2 ^ 53)) as [Ek|Nk].
    + (* the rounding reached the next binade *)
      assert (d = 54).
      { assert (d - 1 < 54) by (apply pow2_lt_inv; [lia|]; change (2 ^ 54) with (2 * 2 ^ 53); lia).
        assert (53 < d) by (apply pow2_lt_inv; lia). lia. }
      replace (Z.max (Z.max (d + E - 53) emin64 - E) 0) with 1 in Hb, He by lia.
      change (2 ^ 1) with 2 in Hb.
      assert (Em : shr_m mrs = 2 ^ 52) by (change (2 ^ 53) with (2 * 2 ^ 52) in Ek; lia).
      rewrite Em. change (2 ^ 52) with (Zpos (2 ^ 52)%positive).
      destruct (Z.leb_spec e (emax - prec)).
      * cbn [repr]. split; [|split; [lia|split; [lia|]]].
        -- unfold canonical_mantissa. rewrite fexp64. apply Z.eqb_eq.
           change (Zpos (digits2_pos (2 ^ 52)%positive)) with 53. lia.
        -- subst e. replace (E + 1 - emin64) with (Z.succ (E - emin64)) by lia.
           rewrite Z.pow_succ_r by lia. rewrite Ek.
           change (2 ^ 53) with (2 * 2 ^ 52). change (Zpos (2 ^ 52)%positive) with (2 ^ 52). ring.
      * cbn [repr]. rewrite Ek, <- Z.pow_add_r by lia.
        apply pow2_le_mono. unfold emax, prec in *. lia.
    + (* no further shift *)
      assert (d <= 53).
      { assert (d - 1 < 53); [|lia]. apply pow2_lt_inv; lia. }
      assert (Hcanon : Z.max (d + E - 53) emin64 = E).
      { destruct (Z.eq_dec E emin64); [lia|].
        assert (52 < d) by (apply pow2_lt_inv; [lia|]; specialize (Hnorm ltac:(lia)); lia). lia. }
      rewrite Hcanon in Hb, He. replace (Z.max (E - E) 0) with 0 in Hb, He by lia.
      change (2 ^ 0) with 1 in Hb.
      assert (Em : shr_m mrs = k) by lia. rewrite Em.
      destruct k as [|pk|pk]; try lia.
      destruct (Z.leb_spec e (emax - prec)).
      * cbn [repr]. split; [|split; [lia|split; [lia|]]].
        -- unfold canonical_mantissa. rewrite fexp64. apply Z.eqb_eq.
           change (Zpos (digits2_pos pk)) with d. lia.
        -- subst e. replace (E + 0) with E by lia. reflexivity.
      * cbn [repr]. specialize (Hover ltac:(lia)). specialize (Hnorm Hover).
        assert (2 ^ (emax - emin64) <= 2 ^ 52 * 2 ^ (E - emin64)).
        { rewrite <- Z.pow_add_r by lia. apply pow2_le_mono. unfold emax, prec in *. lia. }
        assert (0 < 2 ^ (E - emin64)) by (apply pow2_pos; lia). nia.
Qed.

Lemma binary_round_aux_finalize (q e : Z) (l : location) :
  binary_round_aux prec emax false q e l
  = finalize (round_nearest_even (shr_m (fst (shr_fexp prec emax q e l)))
                (loc_of_shr_record (fst (shr_fexp prec emax q e l))))
      (snd (shr_fexp prec emax q e l)).
Proof.
  unfold binary_round_aux, finalize. destruct (shr_fexp prec emax q e l) as [mrs' e'].
  reflexivity.
Qed.

Lemma Zdigits2_lt (q : Z) : 0 <= q -> q < 2 ^ Zdigits2 q.
Proof.
  intros Hq. destruct (Z.eq_dec q 0) as [->|Hq0]; [reflexivity|].
  apply Zdigits2_bounds. lia.
Qed.

Lemma Zdigits2_ge (q a : Z) : 0 <= a -> 2 ^ a <= q -> a + 1 <= Zdigits2 q.
Proof.
  intros Ha Hq. assert (0 < q) by (pose proof (pow2_pos a Ha); lia).
  pose proof (Zdigits2_lt q ltac:(lia)). pose proof (Zdigits2_nonneg q ltac:(lia)).
  assert (a < Zdigits2 q); [|lia]. apply pow2_lt_inv; lia.
Qed.

(** The value of a quotient before rounding, between two integers scaled
    by powers of two, and the rounding of it that [SFdiv] returns. *)
Lemma SFdiv_core_shape (mx my : positive) (ex ey : Z) :
  let d1 := Zpos (digits2_pos mx) in
  let d2 := Zpos (digits2_pos my) in
  let e' := Z.min (fexp prec emax (d1 + ex - (d2 + ey))) (ex - ey) in
  let s := ex - ey - e' in
  let m' := Zpos mx * 2 ^ s in
  let q := m' / Zpos my in
  let n := Z.max (fexp prec emax (Zdigits2 q + e') - e') 0 in
  exists k,
    0 <= k /\
    2 * Z.abs (k * (2 ^ n * Zpos my) - m') <= 2 ^ n * Zpos my /\
    SFdiv prec emax (S754_finite false mx ex) (S754_finite false my ey) = finalize k (e' + n).
Proof.
  intros d1 d2 e' s m' q n.
  assert (Hs : 0 <= s) by (unfold s, e'; lia).
  unfold SFdiv, SFdiv_core_binary. cbn [xorb].
  change (Zdigits2 (Zpos mx)) with d1. change (Zdigits2 (Zpos my)) with d2.
  fold e'. fold s.
  assert (Em : match s with
               | 0 => Zpos mx
               | Zpos _ => Z.shiftl (Zpos mx) s
               | Zneg _ => 0
               end = m').
  { unfold m'. destruct s as [|ps|ps] eqn:Es; [cbn; lia| |lia].
    rewrite Z.shiftl_mul_pow2 by lia. reflexivity. }
  rewrite Em.
  pose proof (Z_div_mod m' (Zpos my) ltac:(lia)) as Hdm.
  unfold Z.div in q. destruct (Z.div_eucl m' (Zpos my)) as [q0 r] eqn:Edm. cbn [fst] in q.
  destruct Hdm as [Hm' Hr].
  assert (Hm'0 : 0 <= m') by (unfold m'; pose proof (pow2_pos s Hs); lia).
  assert (Hq : 0 <= q0) by nia.
  rewrite binary_round_aux_finalize. unfold shr_fexp.
  destruct (shr_located (shr_record_of_loc q0 (new_location (Zpos my) r)) e'
              (fexp prec emax (Zdigits2 q0 + e') - e') (q0 * Zpos my + r) (Zpos my)
              ltac:(lia) (new_location_located (Zpos my) q0 r ltac:(lia) Hq Hr)) as [Hloc He].
  fold q in Hloc, He. fold n in Hloc, He.
  destruct (shr _ e' _) as [mrs e1]. cbn [fst snd] in *.
  pose proof (pow2_pos n ltac:(unfold n; lia)) as Hn.
  destruct (round_nearest_even_located mrs (q0 * Zpos my + r) (2 ^ n * Zpos my) ltac:(nia) Hloc)
    as [Hk Hk2].
  exists (round_nearest_even (shr_m mrs) (loc_of_shr_record mrs)).
  split; [destruct Hloc; lia|]. split.
  - replace m' with (q0 * Zpos my + r) by lia. exact Hk2.
  - rewrite He. reflexivity.
Qed.

(** The exponent [e' + n] at which the quotient is rounded is at least the
    least exponent, and the quotient lies in the binade of that exponent. *)
Lemma SFdiv_core_bounds (mx my : positive) (ex ey : Z) :
  let d1 := Zpos (digits2_pos mx) in
  let d2 := Zpos (digits2_pos my) in
  let e' := Z.min (fexp prec emax (d1 + ex - (d2 + ey))) (ex - ey) in
  let s := ex - ey - e' in
  let m' := Zpos mx * 2 ^ s in
  let q := m' / Zpos my in
  let n := Z.max (fexp prec emax (Zdigits2 q + e') - e') 0 in
  emin64 <= e' + n /\
  m' < 2 ^ (n + 53) * Zpos my /\
  (emin64 < e' + n -> 2 ^ (n + 52) * Zpos my <= m').
Proof.
  intros d1 d2 e' s m' q n.
  assert (He' : e' = Z.min (Z.max (d1 + ex - (d2 + ey) - 53) emin64) (ex - ey)) by reflexivity.
  assert (Hsd : s = ex - ey - e') by reflexivity.
  assert (Hmd : m' = Zpos mx * 2 ^ s) by reflexivity.
  assert (Hnd : n = Z.max (Z.max (Zdigits2 q + e' - 53) emin64 - e') 0) by reflexivity.
  assert (Hs : 0 <= s) by lia.
  pose proof (pow2_pos s Hs) as Hps.
  assert (Hm'0 : 0 < m') by nia.
  assert (Hq0 : 0 <= q) by (apply Z.div_pos; lia).
  assert (Hqm : q * Zpos my <= m' < (q + 1) * Zpos my).
  { unfold q. pose proof (Z.mul_div_le m' (Zpos my) ltac:(lia)).
    pose proof (Z.mul_succ_div_gt m' (Zpos my) ltac:(lia)). lia. }
  pose proof (Zdigits2_lt q Hq0) as Hql.
  pose proof (Zdigits2_nonneg q Hq0) as Hdq0.
  pose proof (fun a => Zdigits2_ge q a) as Hdge.
  pose proof (Zdigits2_bounds q) as Hdb.
  assert (Hd0 : q = 0 -> Zdigits2 q = 0) by (intros ->; reflexivity).
  destruct (digits2_pos_bounds mx) as [Hx1 Hx2]. fold d1 in Hx1, Hx2.
  destruct (digits2_pos_bounds my) as [Hy1 Hy2]. fold d2 in Hy1, Hy2.
  assert (Hd1 : 0 < d1) by (unfold d1; lia). assert (Hd2 : 0 < d2) by (unfold d2; lia).
  clearbody d1 d2 e' s m' q n.
  set (dq := Zdigits2 q) in *. clearbody dq.
  assert (Hn0 : 0 <= n) by lia.
  split; [|split].
  - lia.
  - assert (dq <= n + 53) by lia.
    pose proof (pow2_le_mono dq (n + 53) ltac:(lia)).
    assert ((q + 1) * Zpos my <= 2 ^ (n + 53) * Zpos my)
      by (apply Z.mul_le_mono_nonneg_r; lia).
    lia.
  - intros HE.
    destruct (Z.ltb_spec 0 (Z.max (dq + e' - 53) emin64 - e')) as [Hn'|Hn'].
    + (* the quotient is shifted right *)
      assert (En : n = dq - 53) by lia.
      assert (2 ^ (dq - 1) <= q).
      { apply Hdb. destruct (Z.eq_dec q 0) as [E0|]; [|lia]. specialize (Hd0 E0). lia. }
      replace (n + 52) with (dq - 1) by lia.
      assert (2 ^ (dq - 1) * Zpos my <= q * Zpos my) by (apply Z.mul_le_mono_nonneg_r; lia).
      lia.
    + (* the quotient has at most 53 bits already *)
      assert (En : n = 0) by lia. rewrite En in *. change (2 ^ (0 + 52)) with (2 ^ 52).
      destruct (Z.le_gt_cases (Z.max (d1 + ex - (d2 + ey) - 53) emin64) (ex - ey)) as [Hc|Hc].
      * assert (Ee : e' = d1 + ex - (d2 + ey) - 53) by lia.
        assert (Es : s = 53 - d1 + d2) by lia.
        assert (Hp : 2 ^ (d1 - 1) * 2 ^ s = 2 ^ 52 * 2 ^ d2).
        { rewrite <- !Z.pow_add_r by lia. f_equal. lia. }
        rewrite Hmd. apply Z.le_trans with (2 ^ 52 * 2 ^ d2);
          [apply Z.mul_le_mono_nonneg_l; lia|].
        rewrite <- Hp. apply Z.mul_le_mono_nonneg_r; lia.
      * exfalso.
        assert (Ee : e' = ex - ey) by lia.
        assert (Es : s = 0) by lia.
        assert (Em : m' = Zpos mx) by (rewrite Hmd, Es; change (2 ^ 0) with 1; lia).
        assert (Hd : 53 < d1 - d2) by lia.
        assert (Hdq : dq <= 53) by lia.
        assert (Hp : 2 ^ (d1 - 1) = 2 ^ (d1 - 1 - d2) * 2 ^ d2).
        { rewrite <- Z.pow_add_r by lia. f_equal. lia. }
        assert (Hqb : 2 ^ (d1 - 1 - d2) <= q).
        { pose proof (pow2_pos (d1 - 1 - d2) ltac:(lia)).
          assert (2 ^ (d1 - 1 - d2) * Zpos my < 2 ^ (d1 - 1 - d2) * 2 ^ d2)
            by (apply Z.mul_lt_mono_pos_l; lia).
          assert (2 ^ (d1 - 1 - d2) < q + 1)
            by (apply (Z.mul_lt_mono_pos_r (Zpos my)); lia).
          lia. }
        pose proof (Hdge (d1 - 1 - d2) ltac:(lia) Hqb). lia.
Qed.

(** A nearest integer in the binade of [E'] has at most 53 bits, or is
    [2 ^ 53], and at least 53 bits when [E'] is not the least exponent. *)
Lemma nearest_mantissa (k E' Num Den : Z) :
  0 < Den -> nearest k E' Num Den -> k <= 2 ^ 53 /\ (0 < E' -> 2 ^ 52 <= k).
Proof.
  intros HD (HE & Hk & H1 & H2 & H3).
  pose proof (pow2_pos E' HE) as HU.
  assert (E53 : 2 ^ (E' + 53) = 2 ^ E' * 2 ^ 53) by (apply Z.pow_add_r; lia).
  assert (E52 : 2 ^ (E' + 52) = 2 ^ E' * 2 ^ 52) by (apply Z.pow_add_r; lia).
  rewrite E53 in H2. rewrite E52 in H3.
  set (W := 2 ^ E' * Den) in *. assert (0 < W) by (unfold W; nia).
  replace (2 ^ E' * 2 ^ 53 * Den) with (2 ^ 53 * W) in H2 by (unfold W; ring).
  replace (2 ^ E' * 2 ^ 52 * Den) with (2 ^ 52 * W) in H3 by (unfold W; ring).
  clearbody W. split.
  - assert (2 * (k * W) < (2 * 2 ^ 53 + 1) * W) by lia.
    assert (2 * k < 2 * 2 ^ 53 + 1) by nia. lia.
  - intros HE'. specialize (H3 HE').
    assert ((2 * 2 ^ 52 - 1) * W <= 2 * (k * W)) by lia.
    assert (2 * 2 ^ 52 - 1 <= 2 * k) by nia. lia.
Qed.

(** Rounding to nearest is monotone: a larger numerator over the same
    denominator does not round to less. *)
Lemma nearest_mono (k1 E1 Num1 k2 E2 Num2 Den : Z) :
  0 < Den -> Num1 < Num2 ->
  nearest k1 E1 Num1 Den -> nearest k2 E2 Num2 Den ->
  k1 * 2 ^ E1 <= k2 * 2 ^ E2.
Proof.
  intros HD Hlt N1 N2.
  destruct (nearest_mantissa _ _ _ _ HD N1) as [Hk1 _].
  destruct (nearest_mantissa _ _ _ _ HD N2) as [_ Hk2].
  destruct N1 as (HE1 & Hk10 & P1 & P1b & P1c).
  destruct N2 as (HE2 & Hk20 & P2 & P2b & P2c).
  pose proof (pow2_pos E1 HE1) as HU1. pose proof (pow2_pos E2 HE2) as HU2.
  destruct (Z.lt_trichotomy E1 E2) as [L|[E|G]].
  - specialize (Hk2 ltac:(lia)).
    assert (H : 2 ^ 53 * 2 ^ E1 <= 2 ^ 52 * 2 ^ E2).
    { rewrite <- !Z.pow_add_r by lia. apply pow2_le_mono. lia. }
    apply Z.le_trans with (2 ^ 53 * 2 ^ E1); [apply Z.mul_le_mono_nonneg_r; lia|].
    apply Z.le_trans with (2 ^ 52 * 2 ^ E2); [exact H|].
    apply Z.mul_le_mono_nonneg_r; lia.
  - subst E2. set (W := 2 ^ E1 * Den) in *.
    assert (HW : 0 < W) by (apply Z.mul_pos_pos; lia).
    clearbody W.
    assert (k1 < k2 + 1) by (apply (Z.mul_lt_mono_pos_r W); lia).
    apply Z.mul_le_mono_nonneg_r; lia.
  - exfalso. specialize (P1c ltac:(lia)).
    assert (H : 2 ^ (E2 + 53) <= 2 ^ (E1 + 52)) by (apply pow2_le_mono; lia).
    assert (2 ^ (E2 + 53) * Den <= 2 ^ (E1 + 52) * Den)
      by (apply Z.mul_le_mono_nonneg_r; lia).
    lia.
Qed.

(** On canonical positive numbers, [SFleb] is the order of the values. *)
Lemma canonical_leb_units (m1 m2 : positive) (e1 e2 : Z) :
  canonical_mantissa prec emax m1 e1 = true ->
  canonical_mantissa prec emax m2 e2 = true ->
  (SFleb (S754_finite false m1 e1) (S754_finite false m2 e2) = true <->
   Zpos m1 * 2 ^ (e1 - emin64) <= Zpos m2 * 2 ^ (e2 - emin64)).
Proof.
  intros C1 C2.
  destruct (canonical_units _ _ C1) as (H1 & N1 & E1).
  destruct (canonical_units _ _ C2) as (H2 & N2 & E2).
  pose proof (pow2_pos (e1 - emin64) ltac:(lia)) as P1.
  pose proof (pow2_pos (e2 - emin64) ltac:(lia)) as P2.
  unfold SFleb, SFcompare. FloatOrder.sf_compare_cases; subst.
  - split; [lia|reflexivity].
  - split; [intros _; nia|reflexivity].
  - split; [discriminate|]. intros. exfalso. nia.
  - split; [intros _|reflexivity]. specialize (N2 ltac:(lia)).
    assert (2 ^ 53 * 2 ^ (e1 - emin64) <= 2 ^ 52 * 2 ^ (e2 - emin64)).
    { rewrite <- !Z.pow_add_r by lia. apply pow2_le_mono. lia. }
    nia.
  - split; [discriminate|]. intros Hle. exfalso. specialize (N1 ltac:(lia)).
    assert (2 ^ 53 * 2 ^ (e2 - emin64) <= 2 ^ 52 * 2 ^ (e1 - emin64)).
    { rewrite <- !Z.pow_add_r by lia. apply pow2_le_mono. lia. }
    nia.
Qed.

Lemma repr_mono (r1 r2 : spec_float) (I1 I2 : Z) :
  repr r1 I1 -> repr r2 I2 -> I1 <= I2 -> SFleb r1 r2 = true.
Proof.
  destruct r1 as [[]|[]| |[] m1 e1]; cbn [repr]; try tauto;
    destruct r2 as [[]|[]| |[] m2 e2]; cbn [repr]; try tauto; try reflexivity.
  - intros H1 -> H. exfalso.
    assert (0 < 2 ^ (emax - emin64)) by (apply pow2_pos; unfold emax; lia). lia.
  - intros H1 (C2 & E2 & E2' & ->) H. exfalso.
    destruct (canonical_units _ _ C2) as (H2 & _).
    assert (2 ^ 53 * 2 ^ (e2 - emin64) <= 2 ^ (emax - emin64)).
    { rewrite <- Z.pow_add_r by lia. apply pow2_le_mono. unfold emax, prec in *. lia. }
    pose proof (pow2_pos (e2 - emin64) ltac:(lia)). nia.
  - intros (C1 & E1 & E1' & ->) -> H. exfalso.
    pose proof (pow2_pos (e1 - emin64) ltac:(lia)). nia.
  - intros (C1 & E1 & E1' & ->) (C2 & E2 & E2' & ->) H.
    apply canonical_leb_units; assumption.
Qed.

Lemma rounded_mono (r1 r2 : spec_float) (Num1 Num2 Den : Z) :
  0 < Den -> Num1 < Num2 ->
  rounded r1 Num1 Den -> rounded r2 Num2 Den -> SFleb r1 r2 = true.
Proof.
  intros HD Hlt (k1 & E1 & N1 & R1) (k2 & E2 & N2 & R2).
  eapply repr_mono; eauto. eapply nearest_mono; eauto.
Qed.

(** [SFdiv] on positive finite numbers returns the quotient of their values
    rounded to nearest, both scaled to integers. *)
Lemma SFdiv_rounded (mx my : positive) (ex ey : Z) :
  emin64 <= ex ->
  rounded (SFdiv prec emax (S754_finite false mx ex) (S754_finite false my ey))
    (Zpos mx * 2 ^ (ex - emin64 + Z.max 0 (- ey)))
    (Zpos my * 2 ^ (ey + Z.max 0 (- ey))).
Proof.
  intros Hex.
  destruct (SFdiv_core_shape mx my ex ey) as (k & Hk & Hnear & ->).
  destruct (SFdiv_core_bounds mx my ex ey) as (HE & Hlt & Hge).
  set (d1 := Zpos (digits2_pos mx)) in *. set (d2 := Zpos (digits2_pos my)) in *.
  set (e' := Z.min (fexp prec emax (d1 + ex - (d2 + ey))) (ex - ey)) in *.
  assert (He' : e' = Z.min (Z.max (d1 + ex - (d2 + ey) - 53) emin64) (ex - ey)) by reflexivity.
  set (s := ex - ey - e') in *.
  set (m' := Zpos mx * 2 ^ s) in *.
  set (n := Z.max (fexp prec emax (Zdigits2 (m' / Zpos my) + e') - e') 0) in *.
  assert (Hn : 0 <= n) by (unfold n; lia).
  assert (Hs : 0 <= s) by (unfold s; lia).
  assert (Hsd : s = ex - ey - e') by reflexivity.
  assert (Hmd : m' = Zpos mx * 2 ^ s) by reflexivity.
  clearbody n m' s e' d1 d2.
  set (c := Z.max 0 (- ey)).
  set (F := ey + c + e' - emin64).
  assert (HF : 0 <= F) by (unfold F, c; lia).
  pose proof (pow2_pos F HF) as HpF. pose proof (pow2_pos n Hn) as Hpn.
  assert (ENum : Zpos mx * 2 ^ (ex - emin64 + c) = m' * 2 ^ F).
  { rewrite Hmd, <- Z.mul_assoc, <- Z.pow_add_r by lia. do 2 f_equal. unfold F. lia. }
  assert (EDen : forall j, 0 <= j ->
            2 ^ (e' + n - emin64 + j) * (Zpos my * 2 ^ (ey + c))
            = 2 ^ (n + j) * Zpos my * 2 ^ F).
  { intros j Hj.
    replace (2 ^ (e' + n - emin64 + j) * (Zpos my * 2 ^ (ey + c)))
      with (Zpos my * (2 ^ (e' + n - emin64 + j) * 2 ^ (ey + c))) by ring.
    rewrite <- Z.pow_add_r by (unfold c; lia).
    replace (2 ^ (n + j) * Zpos my * 2 ^ F) with (Zpos my * (2 ^ (n + j) * 2 ^ F)) by ring.
    rewrite <- Z.pow_add_r by lia. do 2 f_equal. unfold F. lia. }
  assert (Hnearest : nearest k (e' + n - emin64) (Zpos mx * 2 ^ (ex - emin64 + c))
                       (Zpos my * 2 ^ (ey + c))).
  { unfold nearest. rewrite ENum.
    pose proof (EDen 0 ltac:(lia)) as E0. rewrite !Z.add_0_r in E0. rewrite E0.
    rewrite (EDen 53), (EDen 52) by lia.
    split; [lia|]. split; [exact Hk|]. split; [|split].
    - replace (k * (2 ^ n * Zpos my * 2 ^ F) - m' * 2 ^ F)
        with ((k * (2 ^ n * Zpos my) - m') * 2 ^ F) by ring.
      rewrite Z.abs_mul, (Z.abs_eq (2 ^ F)) by lia. rewrite Z.mul_assoc.
      apply Z.mul_le_mono_nonneg_r; lia.
    - apply Z.mul_lt_mono_pos_r; lia.
    - intros HE'. specialize (Hge ltac:(lia)). apply Z.mul_le_mono_nonneg_r; lia. }
  exists k, (e' + n - emin64). split; [exact Hnearest|].
  assert (HDen : 0 < Zpos my * 2 ^ (ey + c)).
  { apply Z.mul_pos_pos; [lia|]. apply pow2_pos. unfold c. lia. }
  destruct (nearest_mantissa _ _ _ _ HDen Hnearest) as [Hk53 Hk52].
  replace (e' + n) with (e' + n - emin64 + emin64) at 1 by lia.
  replace (e' + n - emin64) with (e' + n - emin64 + emin64 - emin64) at 2 by lia.
  apply finalize_repr; lia.
Qed.

Lemma SFdiv_repr_nonnan (mx my : positive) (ex ey : Z) :
  emin64 <= ex ->
  exists I, repr (SFdiv prec emax (S754_finite false mx ex) (S754_finite false my ey)) I.
Proof.
  intros Hex. destruct (SFdiv_rounded mx my ex ey Hex) as (k & E' & _ & R). eauto.
Qed.

Lemma repr_leb_refl (r : spec_float) (I : Z) : repr r I -> SFleb r r = true.
Proof.
  destruct r as [[]|[]| |[] m e]; cbn [repr]; try tauto; try reflexivity.
  intros _. unfold SFleb, SFcompare. rewrite Z.compare_refl.
  change (Pos.compare_cont Eq m m) with (Pos.compare m m). rewrite Pos.compare_refl. reflexivity.
Qed.

Lemma repr_leb_infinity (r : spec_float) (I : Z) :
  repr r I -> SFleb r (S754_infinity false) = true.
Proof. destruct r as [[]|[]| |[] m e]; cbn [repr]; try tauto; reflexivity. Qed.

(** Dividing by a positive finite number is monotone on the positive
    finite numbers. *)
Lemma SFdiv_mono_finite (m1 m2 my : positive) (e1 e2 ey : Z) :
  canonical_mantissa prec emax m1 e1 = true ->
  canonical_mantissa prec emax m2 e2 = true ->
  SFleb (S754_finite false m1 e1) (S754_finite false m2 e2) = true ->
  SFleb (SFdiv prec emax (S754_finite false m1 e1) (S754_finite false my ey))
        (SFdiv prec emax (S754_finite false m2 e2) (S754_finite false my ey)) = true.
Proof.
  intros C1 C2 Hle.
  destruct (canonical_units _ _ C1) as (_ & _ & E1).
  destruct (canonical_units _ _ C2) as (_ & _ & E2).
  pose proof (SFdiv_rounded m1 my e1 ey E1) as R1.
  pose proof (SFdiv_rounded m2 my e2 ey E2) as R2.
  apply canonical_leb_units in Hle; [|assumption..].
  set (c := Z.max 0 (- ey)) in *.
  pose proof (pow2_pos c ltac:(unfold c; lia)) as Hc.
  pose proof (pow2_pos (ey + c) ltac:(unfold c; lia)) as Hd.
  assert (HN : forall m e, emin64 <= e ->
            Zpos m * 2 ^ (e - emin64 + c) = Zpos m * 2 ^ (e - emin64) * 2 ^ c).
  { intros m e He. rewrite Z.pow_add_r by (unfold c; lia). ring. }
  rewrite HN in R1, R2 by assumption.
  destruct (Z.eq_dec (Zpos m1 * 2 ^ (e1 - emin64)) (Zpos m2 * 2 ^ (e2 - emin64))) as [E|NE].
  - assert (Hge : SFleb (S754_finite false m2 e2) (S754_finite false m1 e1) = true)
      by (apply canonical_leb_units; [assumption..|lia]).
    assert (Heq : e1 = e2 /\ m1 = m2).
    { assert (Hle' : SFleb (S754_finite false m1 e1) (S754_finite false m2 e2) = true)
        by (apply canonical_leb_units; [assumption..|lia]).
      revert Hge Hle'. unfold SFleb, SFcompare. FloatOrder.sf_compare_cases; try discriminate; auto; lia. }
    destruct Heq as [-> ->]. destruct R1 as (k & E' & _ & R). eapply repr_leb_refl; eauto.
  - eapply rounded_mono; [| |exact R1|exact R2]; nia.
Qed.

Lemma binary_round_aux_opp (q e : Z) (l : location) :
  binary_round_aux prec emax true q e l = SFopp (binary_round_aux prec emax false q e l).
Proof.
  unfold binary_round_aux. destruct (shr_fexp prec emax q e l) as [mrs' e'].
  destruct (shr_fexp prec emax _ e' loc_Exact) as [mrs'' e''].
  destruct (shr_m mrs''); [reflexivity| |reflexivity].
  destruct (e'' <=? emax - prec); reflexivity.
Qed.

Lemma SFleb_opp (a b : spec_float) : SFleb (SFopp a) (SFopp b) = SFleb b a.
Proof.
  unfold SFleb, SFcompare.
  destruct a as [[]|[]| |[] m1 e1], b as [[]|[]| |[] m2 e2]; cbn [SFopp negb]; try reflexivity;
    rewrite (Z.compare_antisym e1 e2);
    change (Pos.compare_cont Eq m1 m2) with (Pos.compare m1 m2);
    change (Pos.compare_cont Eq m2 m1) with (Pos.compare m2 m1);
    rewrite (Pos.compare_antisym m1 m2);
    destruct (Z.compare e1 e2); cbn [CompOpp]; try reflexivity;
    destruct (Pos.compare m1 m2); reflexivity.
Qed.

Lemma SFdiv_opp_finite (m my : positive) (e ey : Z) :
  SFdiv prec emax (S754_finite true m e) (S754_finite false my ey)
  = SFopp (SFdiv prec emax (S754_finite false m e) (S754_finite false my ey)).
Proof.
  unfold SFdiv. destruct (SFdiv_core_binary prec emax (Zpos m) e (Zpos my) ey) as [[mz ez] lz].
  cbn [xorb]. apply binary_round_aux_opp.
Qed.

(** The quotients of the opposites of two positive numbers by a positive
    finite number come in the opposite order. *)
Lemma SFdiv_opp_antimono (x1 x2 : spec_float) (my : positive) (ey : Z) :
  valid_binary x1 = true -> valid_binary x2 = true ->
  SFltb (S754_zero false) x1 = true ->
  SFleb x1 x2 = true ->
  SFleb (SFdiv prec emax (SFopp x2) (S754_finite false my ey))
        (SFdiv prec emax (SFopp x1) (S754_finite false my ey)) = true.
Proof.
  intros V1 V2 Hpos Hle.
  destruct x1 as [[]|[]| |[] m1 e1]; try discriminate Hpos;
    destruct x2 as [[]|[]| |[] m2 e2]; try discriminate Hle; try reflexivity;
    cbn [SFopp negb]; rewrite ?SFdiv_opp_finite.
  - (* infinity after a finite number *)
    change (SFdiv prec emax (S754_infinity true) (S754_finite false my ey))
      with (SFopp (S754_infinity false)).
    rewrite SFleb_opp.
    cbn [valid_binary] in V1. unfold bounded in V1. apply andb_prop in V1 as [C1 _].
    destruct (canonical_units _ _ C1) as (_ & _ & E1).
    destruct (SFdiv_repr_nonnan m1 my e1 ey E1) as [I HI].
    eapply repr_leb_infinity; eauto.
  - (* two finite numbers *)
    cbn [valid_binary] in V1, V2. unfold bounded in V1, V2.
    apply andb_prop in V1 as [C1 _]. apply andb_prop in V2 as [C2 _].
    rewrite SFleb_opp. apply SFdiv_mono_finite; assumption.
Qed.

Local Open Scope float_scope.

(** The cut-off of the Drop Detector, [-|t| / 100], does not increase with
    a positive [t]. *)
Lemma div100_opp_antimono (t1 t2 : float) :
  (0 <? t1) = true -> (t1 <=? t2) = true ->
  ((- abs t2) / 100 <=? (- abs t1) / 100) = true.
Proof.
  intros Hpos Hle.
  assert (Hpos2 : (0 <? t2) = true).
  { revert Hpos Hle. rewrite !ltb_spec, leb_spec.
    unfold SFltb, SFleb, SFcompare. change (Prim2SF 0) with (S754_zero false).
    destruct (Prim2SF t1) as [[]|[]| |[] m1 e1]; try discriminate;
      destruct (Prim2SF t2) as [[]|[]| |[] m2 e2]; try discriminate; reflexivity. }
  rewrite leb_spec, !div_spec, !opp_spec, !abs_spec.
  assert (A1 : SFabs (Prim2SF t1) = Prim2SF t1).
  { revert Hpos. rewrite ltb_spec. change (Prim2SF 0) with (S754_zero false).
    destruct (Prim2SF t1) as [[]|[]| |[] m1 e1]; try discriminate; reflexivity. }
  assert (A2 : SFabs (Prim2SF t2) = Prim2SF t2).
  { revert Hpos2. rewrite ltb_spec. change (Prim2SF 0) with (S754_zero false).
    destruct (Prim2SF t2) as [[]|[]| |[] m1 e1]; try discriminate; reflexivity. }
  rewrite A1, A2.
  change (Prim2SF 100) with (S754_finite false 7036874417766400 (-46)).
  apply SFdiv_opp_antimono.
  - apply Prim2SF_valid.
  - apply Prim2SF_valid.
  - rewrite ltb_spec in Hpos. exact Hpos.
  - rewrite leb_spec in Hle. exact Hle.
Qed.

End Binary64Facts.

(** ** Numeric literals *)

Example parseFloat_samples :
  JS.parseFloat "10" = 10%float /\
  JS.parseFloat " 2.5e2 USD" = 250%float /\
  JS.parseFloat "-0.5" = (-0.5)%float /\
  JS.parseFloat "0" = 0%float /\
  JS.parseFloat "1e400" = PrimFloat.infinity /\
  PrimFloat.is_nan (JS.parseFloat "N/D") = true /\
  PrimFloat.is_nan (JS.parseFloat "") = true.
Proof. vm_compute. repeat split; reflexivity. Qed.

Example asNum_samples :
  asNum (Some "179,5") = 179.5%float /\
  asNum (Some " 0x10 ") = 16%float /\
  PrimFloat.is_nan (asNum (Some "N/D")) = true /\
  PrimFloat.is_nan (asNum (Some "Infinity")) = true /\
  PrimFloat.is_nan (asNum (Some "12 USD")) = true /\
  PrimFloat.is_nan (asNum None) = true.
Proof. vm_compute. repeat split; reflexivity. Qed.

Example monthsBetween_sample : monthsBetween "2000-03" "2002-10" = 31%float.
Proof. vm_compute. reflexivity. Qed.

(** ** Price History Normalizer *)

(** C3. Whatever the order of the history, [fetchHistoricalCloseOnOrAfter]
    returns the first record whose date is [>=] the target (every record
    before it has a smaller date), with that record's date and parsed close;
    it throws NoTradingDay exactly when no record has a date [>=] the
    target. On the history [[{2000-01-03, close 10}]] and the date
    2000-01-01, the close used is 10 and the date used is 2000-01-03. *)
Theorem closeOnOrAfter_first_record (env : Env) (sym ymd : string) (rows : list DailyRow) :
  histRows env sym = Some rows ->
  (forall h,
      fetchHistoricalCloseOnOrAfter env sym ymd = Ok h <->
      exists before target after,
        rows = before ++ target :: after /\
        (forall r, In r before -> JS.str_geb (Date r) ymd = false) /\
        JS.str_geb (Date target) ymd = true /\
        h = mkHistLookup (Date target) (JS.parseFloat (Close target)) rows) /\
  (fetchHistoricalCloseOnOrAfter env sym ymd = Throw (NoTradingDay ymd sym) <->
   forall r, In r rows -> JS.str_geb (Date r) ymd = false) /\
  fetchHistoricalCloseOnOrAfter scenarioA_env "NVDA.US" "2000-01-01"
  = Ok (mkHistLookup "2000-01-03" 10%float scenarioA_history).
Proof.
  intros Hrows. unfold fetchHistoricalCloseOnOrAfter at 1 2. rewrite Hrows.
  split; [|split].
  - intros h. split.
    + destruct (find _ rows) as [target|] eqn:F; [|discriminate].
      intros [= <-]. apply find_Some_split in F as (before & after & E & Hb & Ht).
      exists before, target, after. auto.
    + intros (before & target & after & E & Hb & Ht & ->).
      assert (F : find (fun r => JS.str_geb (Date r) ymd) rows = Some target).
      { apply find_Some_split. exists before, after. auto. }
      rewrite F. reflexivity.
  - rewrite <- find_None_iff. destruct (find _ rows); split; congruence.
  - vm_compute. reflexivity.
Qed.

Lemma closeOnOrAfter_first_record_witness :
  fetchHistoricalCloseOnOrAfter scenarioA_env "NVDA.US" "2000-01-05"
  = Throw (NoTradingDay "2000-01-05" "NVDA.US").
Proof.
  apply (closeOnOrAfter_first_record scenarioA_env "NVDA.US" "2000-01-05" scenarioA_history).
  - reflexivity.
  - intros r [<-|[]]. reflexivity.
Defined.

(** ** Position Valuator *)

(** The body of the loop throws exactly for a missing field or a failed
    lookup of the purchase day; the quotes, the rate and the close play no
    part in it. *)
Lemma valuePosition_throw_iff env qm rate r e :
  valuePosition env qm rate r = Throw e <->
  (missing_field r = true /\ e = MissingField) \/
  (missing_field r = false /\
   fetchHistoricalCloseOnOrAfter env (normalizeTicker (ticker r)) (date r) = Throw e).
Proof.
  unfold valuePosition. destruct (missing_field r).
  - split; [intros [= <-]; auto|]. intros [[_ ->]|[? _]]; [reflexivity|discriminate].
  - destruct (fetchHistoricalCloseOnOrAfter _ _ _); simpl.
    + split; [discriminate|]. intros [[? _]|[_ ?]]; discriminate.
    + split; [intros [= <-]; auto|]. intros [[? _]|[_ [= <-]]]; [discriminate|reflexivity].
Qed.

Lemma symbolSeries_throw_iff env st r e :
  symbolSeries env st r = Throw e <->
  (missing_field r = true /\ e = MissingField) \/
  (missing_field r = false /\
   fetchHistoricalCloseOnOrAfter env (normalizeTicker (ticker r)) (date r) = Throw e).
Proof.
  unfold symbolSeries. destruct (missing_field r).
  - split; [intros [= <-]; auto|]. intros [[_ ->]|[? _]]; [reflexivity|discriminate].
  - destruct (fetchHistoricalCloseOnOrAfter _ _ _); simpl.
    + split; [discriminate|]. intros [[? _]|[_ ?]]; discriminate.
    + split; [intros [= <-]; auto|]. intros [[? _]|[_ [= <-]]]; [discriminate|reflexivity].
Qed.

Lemma division_by_invalid_close (a : JS.number) :
  JS.isFinite (a / 0)%float = false /\ JS.isFinite (a / PrimFloat.nan)%float = false.
Proof.
  unfold JS.isFinite, is_finite, is_nan, is_infinity.
  rewrite !eqb_spec, !abs_spec, !div_spec.
  change (Prim2SF 0) with (S754_zero false).
  change (Prim2SF PrimFloat.nan) with S754_nan.
  change (Prim2SF infinity) with (S754_infinity false).
  destruct (Prim2SF a) as [[]|[]| |[] ? ?]; split; reflexivity.
Qed.

(** C1, as the code has it. No valuation fails on account of the purchase
    close: the loop body throws only MissingField, a failed history fetch or
    NoTradingDay; as soon as the purchase day resolves, the position is
    valued with [shares = amountUSD / purchaseClose] whatever the close, in
    [calculate] and in [computeMonthlyDrops] alike, and a close that is zero
    or [NaN] makes the quotient non-finite. *)
Theorem valuation_never_rejects_a_close (env : Env) (qm : string -> option JS.number)
  (rate : option JS.number) (st : State) (r : Row) :
  (forall e, valuePosition env qm rate r = Throw e ->
     e = MissingField \/
     e = HistFetchFailed (normalizeTicker (ticker r)) \/
     e = NoTradingDay (date r) (normalizeTicker (ticker r))) /\
  (forall h,
     missing_field r = false ->
     fetchHistoricalCloseOnOrAfter env (normalizeTicker (ticker r)) (date r) = Ok h ->
     (exists res,
        valuePosition env qm rate r = Ok res /\
        purchaseClose res = hist_close h /\
        shares res = (amountUSD_of r rate / hist_close h)%float) /\
     (exists s,
        symbolSeries env st r = Ok s /\
        ss_shares s = (amountUSD_of r (fx st) / hist_close h)%float)) /\
  (forall a, JS.isFinite (a / 0)%float = false /\ JS.isFinite (a / PrimFloat.nan)%float = false).
Proof.
  split; [|split].
  - intros e H. apply valuePosition_throw_iff in H as [[_ ->]|[_ H]]; [auto|].
    unfold fetchHistoricalCloseOnOrAfter in H.
    destruct (histRows env _); [|injection H as <-; auto].
    destruct (find _ _); [discriminate|]. injection H as <-; auto.
  - intros h Hm Hh. unfold valuePosition, symbolSeries. rewrite Hm, Hh. simpl.
    split; eexists; (split; [reflexivity|]); simpl; auto.
  - exact division_by_invalid_close.
Qed.

(** C1, refuted as stated: with a purchase close of zero the lookup
    resolves, the position is valued with infinitely many shares, and
    [calculate] ends without an error. *)
Lemma zero_close_is_valued :
  fetchHistoricalCloseOnOrAfter zeroClose_env "NVDA.US" "2000-01-01"
  = Ok (mkHistLookup "2000-01-03" 0%float zeroClose_history) /\
  map shares (results (calc (calculate zeroClose_env (initial_state [usd_position] None))))
  = [PrimFloat.infinity] /\
  error (calculate zeroClose_env (initial_state [usd_position] None)) = None /\
  map valueUSD (monthlySeries (computeMonthlyDrops zeroClose_env (initial_state [usd_position] None)))
  = [] /\
  error (computeMonthlyDrops zeroClose_env (initial_state [usd_position] None)) = None.
Proof. vm_compute. repeat split; reflexivity. Qed.

Lemma existsb_eur (l : list Row) (r : Row) :
  In r l -> currency r = EUR ->
  existsb (fun x => Currency_eqb (currency x) EUR) l = true.
Proof.
  intros Hin Hc. apply existsb_exists. exists r. split; [exact Hin|].
  rewrite Hc. reflexivity.
Qed.

(** C8. A position in EUR makes [calculate] fetch the rate. When that fetch
    fails, [calculate] does not fall back on the amounts entered: it ends
    with the error of a failed fetch and with no result. When the fetch
    yields a number, every result in EUR has as its amount invested the
    amount entered times the rate if the rate is usable, and the amount
    entered itself if the rate is [NaN] or zero. The amount entered is the
    amount in USD whenever the rate in effect is [null], [NaN] or zero, as
    it is in [computeMonthlyDrops] (which fetches no rate) when the stored
    rate is; and whether the valuation of a position throws does not depend
    on the rate. In scenario D (amount 1000, a rate that does not parse) the
    amount invested is 1000 and no error is set. *)
Theorem eur_amount_without_usable_rate (env : Env) (st : State) (r : Row) :
  In r (rows st) ->
  currency r = EUR ->
  needFx st = true /\
  (eurusdQuote env = None ->
     results (calc (calculate env st)) = [] /\
     (error (calculate env st) = Some QuoteFetchFailed \/
      error (calculate env st) = Some FxFetchFailed)) /\
  (forall x res,
     eurusdQuote env = Some x ->
     In res (results (calc (calculate env st))) ->
     res_currency res = EUR ->
     amountInvested res
     = if JS.truthy x then (amountOriginal res * x)%float else amountOriginal res) /\
  (forall rate, option_truthy rate = false -> amountUSD_of r rate = amount r) /\
  (forall qm rate rate' e,
     valuePosition env qm rate r = Throw e <-> valuePosition env qm rate' r = Throw e) /\
  (option_truthy (fx st) = false ->
   forall s h, symbolSeries env st r = Ok s ->
     fetchHistoricalCloseOnOrAfter env (normalizeTicker (ticker r)) (date r) = Ok h ->
     ss_shares s = (amount r / hist_close h)%float) /\
  map amountInvested (results (calc (calculate scenarioD_env scenarioD_state)))
  = [1000%float] /\
  error (calculate scenarioD_env scenarioD_state) = None /\
  error (computeMonthlyDrops scenarioD_env scenarioD_state) = None.
Proof.
  intros Hin Hc.
  assert (Hneed : needFx st = true).
  { unfold needFx. rewrite (existsb_eur _ _ Hin Hc). apply orb_true_r. }
  assert (Ha : forall rate, option_truthy rate = false -> amountUSD_of r rate = amount r).
  { intros rate Hrate. unfold amountUSD_of. rewrite Hc. destruct rate as [x|]; [|reflexivity].
    simpl in Hrate. rewrite Hrate. reflexivity. }
  split; [exact Hneed|]. split; [|split; [|split; [exact Ha|split; [|split]]]].
  - intros Hq. unfold calculate, calculate_try, fetchQuotesAndRate.
    rewrite Hneed, Hq. destruct (latestQuotes env (symbols st)); simpl; auto.
  - intros x res Hq. unfold calculate, calculate_try, fetchQuotesAndRate.
    rewrite Hneed, Hq. destruct (latestQuotes env (symbols st)) as [quoteMap|]; [|intros []].
    cbn [eurusdNow_of].
    destruct (for_each _ (rows st)) as [results|e] eqn:E; simpl; [|intros []].
    intros Hres Hcur. destruct (for_each_In _ _ _ _ E Hres) as (r' & _ & Hr').
    unfold valuePosition in Hr'. destruct (missing_field r'); [discriminate|].
    destruct (fetchHistoricalCloseOnOrAfter _ _ _); simpl in Hr'; [|discriminate].
    injection Hr' as <-. simpl in *. unfold amountUSD_of. rewrite Hcur. reflexivity.
  - intros qm rate rate' e. rewrite !valuePosition_throw_iff. reflexivity.
  - intros Hfx s h. unfold symbolSeries. destruct (missing_field r); [discriminate|].
    intros H Hh. rewrite Hh in H. simpl in H. injection H as <-. simpl.
    rewrite (Ha _ Hfx). reflexivity.
  - vm_compute. repeat split; reflexivity.
Qed.

Lemma eur_amount_without_usable_rate_witness :
  needFx scenarioD_state = true /\
  amountUSD_of eur_position (Some PrimFloat.nan) = 1000%float.
Proof.
  destruct (eur_amount_without_usable_rate scenarioD_env scenarioD_state eur_position)
    as (H1 & _ & _ & H4 & _).
  - left. reflexivity.
  - reflexivity.
  - split; [exact H1|]. apply (H4 (Some PrimFloat.nan)). reflexivity.
Defined.

(** C8, refuted as stated: with a position in EUR, no rate stored and a
    retrieval of the rate that fails, [calculate] values nothing and ends
    with the error of the failed fetch, where the claim has the amount
    entered used and no error raised. *)
Lemma failed_rate_fetch_aborts_calculate :
  rows scenarioD_state = [eur_position] /\
  currency eur_position = EUR /\
  fx scenarioD_state = None /\
  eurusdQuote rateDown_env = None /\
  results (calc (calculate rateDown_env scenarioD_state)) = [] /\
  error (calculate rateDown_env scenarioD_state) = Some FxFetchFailed.
Proof. vm_compute. repeat split; reflexivity. Qed.

(** C9. When the valuation of any position of the list throws, whatever
    the error, [calculate] ends with an empty list of results and an error
    set (the list was emptied when the attempt began, too), and
    [computeMonthlyDrops] ends with an empty monthly series, an empty list of
    drops and an error set. An attempt that ends without an error has valued
    every position. *)
Theorem failed_valuation_clears_results (env : Env) (st : State) (r : Row)
  (qm : string -> option JS.number) (rate : option JS.number) (e : Error) :
  In r (rows st) ->
  valuePosition env qm rate r = Throw e ->
  results (calc (calculate_pending st)) = [] /\
  results (calc (calculate env st)) = [] /\
  (exists e', error (calculate env st) = Some e') /\
  monthlySeries (computeMonthlyDrops env st) = [] /\
  bigDrops (computeMonthlyDrops env st) = [] /\
  (exists e', error (computeMonthlyDrops env st) = Some e') /\
  (forall env' st',
     error (calculate env' st') = None ->
     List.length (results (calc (calculate env' st'))) = List.length (rows st')) /\
  (forall env' st' e',
     error (calculate env' st') = Some e' -> results (calc (calculate env' st')) = []).
Proof.
  intros Hin Hthrow.
  assert (Hc : exists fx' e', calculate_try env st = (fx', Throw e')).
  { unfold calculate_try. destruct (fetchQuotesAndRate env st) as [[qm' eurusd]|e0]; [|eauto].
    destruct (for_each_throws (valuePosition env qm' (eurusdNow_of st eurusd)) (rows st) r e Hin)
      as [e' He'].
    - apply valuePosition_throw_iff. apply valuePosition_throw_iff in Hthrow. exact Hthrow.
    - rewrite He'. eauto. }
  assert (Hm : exists e', monthly_try env st = Throw e').
  { unfold monthly_try.
    destruct (for_each_throws (symbolSeries env st) (rows st) r e Hin) as [e' He'].
    - apply symbolSeries_throw_iff. apply valuePosition_throw_iff in Hthrow. exact Hthrow.
    - rewrite He'. simpl. eauto. }
  destruct Hc as (fx' & e1 & Hc). destruct Hm as (e2 & Hm).
  unfold calculate, computeMonthlyDrops. rewrite Hc, Hm. simpl.
  repeat split; eauto.
  - intros env' st'. destruct (calculate_try env' st') as [fx0 [res|e0]] eqn:E; simpl; [|discriminate].
    intros _. unfold calculate_try in E.
    destruct (fetchQuotesAndRate env' st') as [[qm' eurusd]|e0]; [|discriminate].
    injection E as _ E. exact (for_each_length _ _ _ E).
  - intros env' st' e'. destruct (calculate_try env' st') as [fx0 [res|e0]]; simpl;
      [discriminate|reflexivity].
Qed.

Lemma failed_valuation_clears_results_witness :
  results (calc (calculate scenarioA_env (initial_state [usd_position; late_position] None))) = [] /\
  error (calculate scenarioA_env (initial_state [usd_position; late_position] None))
  = Some (NoTradingDay "2000-02-01" "MSFT.US") /\
  List.length (results (calc (calculate scenarioA_env (initial_state [usd_position] None)))) = 1.
Proof.
  split; [|split; vm_compute; reflexivity].
  apply (failed_valuation_clears_results scenarioA_env
           (initial_state [usd_position; late_position] None) late_position
           (fun _ => None) None (NoTradingDay "2000-02-01" "MSFT.US")).
  - simpl. auto.
  - reflexivity.
Defined.

(** ** Portfolio Monthly Aggregator *)

Lemma withMoM_from_nth (l : list (string * JS.number)) :
  forall prev i p,
    nth_error (withMoM_from prev l) i = Some p ->
    exists m v,
      nth_error l i = Some (m, v) /\ month p = m /\ valueUSD p = v /\
      mom p = mom_of (match i with
                      | O => prev
                      | S j => option_map snd (nth_error l j)
                      end) v.
Proof.
  induction l as [|[m v] l IH]; intros prev i p; simpl.
  - destruct i; discriminate.
  - destruct i as [|i]; simpl.
    + intros [= <-]. exists m, v. auto.
    + intros H. destruct (IH _ _ _ H) as (m' & v' & Hn & Hm & Hv & Hmom).
      exists m', v'. repeat split; auto. rewrite Hmom.
      destruct i; reflexivity.
Qed.

Lemma withMoM_from_values (l : list (string * JS.number)) :
  forall prev, map (fun p => (month p, valueUSD p)) (withMoM_from prev l) = l.
Proof.
  induction l as [|[m v] l IH]; intros prev; simpl; [reflexivity|].
  rewrite IH. reflexivity.
Qed.

Lemma portfolioSeries_In (perSymbol : list SymbolSeries) (m : string) (v : JS.number) :
  In (m, v) (portfolioSeries perSymbol) <->
  In m (sort_strings (allMonths perSymbol)) /\ v = monthValue perSymbol m /\ JS.gtb v 0%float = true.
Proof.
  unfold portfolioSeries. rewrite filter_In, in_map_iff. simpl. split.
  - intros [(m' & [= -> <-] & Hin) Hv]. auto.
  - intros (Hin & -> & Hv). split; [exists m; auto|exact Hv].
Qed.

(** The series a run of [computeMonthlyDrops] stores is empty, after a throw,
    or the aggregate of the positions' series. *)
Lemma computeMonthlyDrops_series (env : Env) (st : State) :
  monthlySeries (computeMonthlyDrops env st) = [] \/
  exists perSymbol,
    for_each (symbolSeries env st) (rows st) = Ok perSymbol /\
    monthlySeries (computeMonthlyDrops env st) = withMoM (portfolioSeries perSymbol).
Proof.
  unfold computeMonthlyDrops, monthly_try.
  destruct (for_each _ _) as [perSymbol|e]; simpl; [right; eauto|left; reflexivity].
Qed.

(** Every value of an aggregated series is positive. *)
Lemma aggregated_values_positive (perSymbol : list SymbolSeries) (i : nat) (p : MonthlyPoint) :
  nth_error (withMoM (portfolioSeries perSymbol)) i = Some p ->
  JS.gtb (valueUSD p) 0%float = true.
Proof.
  intros H. apply withMoM_from_nth in H as (m & v & Hn & _ & -> & _).
  apply nth_error_In in Hn. apply portfolioSeries_In in Hn. tauto.
Qed.

(** C4. In the series aggregated from the positions, a month whose summed
    value is [<= 0] is not there; the first point has no change; the change
    of each later point is [value[i] / value[i-1] - 1], computed in binary64,
    and it is undefined exactly when [value[i-1] <= 0] (which no value of the
    series is, so no point after the first lacks its change). The same holds
    of the series [computeMonthlyDrops] stores. On the values 100, 90, 95,
    70 the changes are undefined, 90/100-1, 95/90-1 and 70/95-1. *)
Theorem aggregated_series_changes (perSymbol : list SymbolSeries) :
  let series := withMoM (portfolioSeries perSymbol) in
  (forall m,
     In m (sort_strings (allMonths perSymbol)) ->
     PrimFloat.leb (monthValue perSymbol m) 0 = true ->
     ~ In m (map month series)) /\
  (forall p, nth_error series 0 = Some p -> mom p = None) /\
  (forall i q p,
     nth_error series i = Some q ->
     nth_error series (S i) = Some p ->
     mom p = Some (valueUSD p / valueUSD q - 1)%float /\
     (mom p = None <-> PrimFloat.leb (valueUSD q) 0 = true)) /\
  (forall env st,
     let stored := monthlySeries (computeMonthlyDrops env st) in
     (forall p, nth_error stored 0 = Some p -> mom p = None) /\
     (forall i q p,
        nth_error stored i = Some q ->
        nth_error stored (S i) = Some p ->
        mom p = Some (valueUSD p / valueUSD q - 1)%float /\
        (mom p = None <-> PrimFloat.leb (valueUSD q) 0 = true))) /\
  map mom (withMoM scenarioB_values)
  = [None; Some (90 / 100 - 1)%float; Some (95 / 90 - 1)%float; Some (70 / 95 - 1)%float].
Proof.
  assert (Hfirst : forall ps p,
            nth_error (withMoM (portfolioSeries ps)) 0 = Some p -> mom p = None).
  { intros ps p H. apply withMoM_from_nth in H as (m & v & _ & _ & _ & ->). reflexivity. }
  assert (Hnext : forall ps i q p,
            nth_error (withMoM (portfolioSeries ps)) i = Some q ->
            nth_error (withMoM (portfolioSeries ps)) (S i) = Some p ->
            mom p = Some (valueUSD p / valueUSD q - 1)%float /\
            (mom p = None <-> PrimFloat.leb (valueUSD q) 0 = true)).
  { intros ps i q p Hq Hp.
    pose proof (aggregated_values_positive _ _ _ Hq) as Hpos.
    apply withMoM_from_nth in Hq as (mq & vq & Hnq & _ & Hvq & _).
    apply withMoM_from_nth in Hp as (mp & vp & Hnp & _ & Hvp & Hmom).
    rewrite Hnq in Hmom. simpl in Hmom. rewrite <- Hvq in Hmom. rewrite Hmom.
    unfold mom_of. rewrite Hpos, Hvp. split; [reflexivity|].
    split; [discriminate|]. intros Hle.
    unfold JS.gtb in Hpos. apply FloatOrder.ltb_not_leb in Hpos. congruence. }
  cbv zeta. split; [|split; [|split; [|split]]].
  - intros m Hin Hle Hm. apply in_map_iff in Hm as (p & <- & Hp).
    apply In_nth_error in Hp as [i Hi].
    pose proof (aggregated_values_positive _ _ _ Hi) as Hpos.
    apply withMoM_from_nth in Hi as (m' & v & Hn & Hm' & Hv & _).
    apply nth_error_In in Hn. apply portfolioSeries_In in Hn as (_ & Hval & _).
    rewrite Hm' in Hle. rewrite <- Hval, <- Hv in Hle.
    unfold JS.gtb in Hpos. apply FloatOrder.ltb_not_leb in Hpos. congruence.
  - apply Hfirst.
  - apply Hnext.
  - intros env st. destruct (computeMonthlyDrops_series env st) as [E|(ps & _ & E)]; rewrite E.
    + split; [intros p H; discriminate|]. intros [|i] q p H; discriminate.
    + split; [apply Hfirst|apply Hnext].
  - reflexivity.
Qed.

(** ** What every stored series satisfies *)

Lemma set_add_NoDup (m : string) (s : list string) : NoDup s -> NoDup (set_add m s).
Proof.
  intros Hnd. unfold set_add. destruct (existsb (String.eqb m) s) eqn:E; [exact Hnd|].
  apply NoDup_rev in Hnd. rewrite <- (rev_involutive (s ++ [m])).
  apply NoDup_rev. rewrite rev_app_distr. simpl. constructor; [|exact Hnd].
  rewrite <- in_rev. intros Hin.
  assert (existsb (String.eqb m) s = true).
  { apply existsb_exists. exists m. split; [exact Hin|apply String.eqb_refl]. }
  congruence.
Qed.

Lemma allMonths_NoDup (perSymbol : list SymbolSeries) : NoDup (allMonths perSymbol).
Proof.
  unfold allMonths.
  assert (H : forall ps acc, NoDup acc ->
            NoDup (fold_left
                     (fun acc s =>
                        fold_left (fun acc m => set_add (mc_month m) acc) (monthSeries s) acc)
                     ps acc)).
  { induction ps as [|s ps IH]; intros acc Hacc; simpl; [exact Hacc|].
    apply IH. generalize dependent acc.
    induction (monthSeries s) as [|m ms IHm]; intros acc Hacc; simpl; [exact Hacc|].
    apply IHm, set_add_NoDup, Hacc. }
  apply H. constructor.
Qed.

Lemma insert_sorted_perm (x : string) (l : list string) :
  Permutation (insert_sorted x l) (x :: l).
Proof.
  induction l as [|y l IH]; simpl; [reflexivity|].
  destruct (JS.str_leb x y); [reflexivity|].
  rewrite IH. apply perm_swap.
Qed.

Lemma sort_strings_perm (l : list string) : Permutation (sort_strings l) l.
Proof.
  induction l as [|x l IH]; simpl; [reflexivity|].
  rewrite insert_sorted_perm, IH. reflexivity.
Qed.

Lemma portfolioSeries_months (perSymbol : list SymbolSeries) :
  map fst (portfolioSeries perSymbol)
  = filter (fun m => JS.gtb (monthValue perSymbol m) 0%float)
      (sort_strings (allMonths perSymbol)).
Proof.
  unfold portfolioSeries.
  induction (sort_strings (allMonths perSymbol)) as [|m l IH]; simpl; [reflexivity|].
  destruct (JS.gtb (monthValue perSymbol m) 0%float); simpl; rewrite IH; reflexivity.
Qed.

Lemma withMoM_months (l : list (string * JS.number)) :
  map month (withMoM l) = map fst l.
Proof.
  unfold withMoM. rewrite <- (withMoM_from_values l None) at 2.
  rewrite map_map. reflexivity.
Qed.

(** The series [computeMonthlyDrops] stores has one point per month and
    positive values, none of them [NaN]. *)
Lemma stored_series_well_formed (env : Env) (st : State) :
  let stored := monthlySeries (computeMonthlyDrops env st) in
  NoDup (map month stored) /\
  Forall (fun p => JS.gtb (valueUSD p) 0%float = true) stored /\
  comparable_series stored.
Proof.
  cbv zeta. destruct (computeMonthlyDrops_series env st) as [E|(ps & _ & E)]; rewrite E.
  - repeat constructor.
  - assert (Hpos : Forall (fun p => JS.gtb (valueUSD p) 0%float = true)
                     (withMoM (portfolioSeries ps))).
    { apply Forall_forall. intros p Hp. apply In_nth_error in Hp as [i Hi].
      exact (aggregated_values_positive ps i p Hi). }
    split; [|split; [exact Hpos|]].
    + rewrite withMoM_months, portfolioSeries_months.
      apply NoDup_filter.
      apply (Permutation_NoDup (Permutation_sym (sort_strings_perm _))).
      apply allMonths_NoDup.
    + unfold comparable_series. eapply Forall_impl; [|exact Hpos].
      intros p Hp. exact (proj2 (FloatOrder.ltb_comparable _ _ Hp)).
Qed.

(** ** Drop Detector *)

(** C10. The detector compares against [-|t| / 100]: for every number [t],
    of any sign or size, the drops found with the threshold [t] are the drops
    found with [|t|], on any series and through [computeMonthlyDrops]. *)
Theorem drops_invariant_under_threshold_sign (t : JS.number) :
  threshold_of t = threshold_of (PrimFloat.abs t) /\
  (forall series, detectDrops t series = detectDrops (PrimFloat.abs t) series) /\
  (forall env st,
     bigDrops (computeMonthlyDrops env (set_dropThresholdPct t st))
     = bigDrops (computeMonthlyDrops env (set_dropThresholdPct (PrimFloat.abs t) st))).
Proof.
  assert (H : threshold_of t = threshold_of (PrimFloat.abs t)).
  { unfold threshold_of. rewrite FloatOrder.abs_idem. reflexivity. }
  split; [exact H|]. split.
  - intros series. unfold detectDrops. rewrite H. reflexivity.
  - intros env st. unfold computeMonthlyDrops, monthly_try. simpl.
    destruct (for_each _ _); simpl; [|reflexivity].
    unfold detectDrops. rewrite H. reflexivity.
Qed.

(** ** Drop Detector: the threshold *)

Lemma filter_subsequence {A : Type} (f : A -> bool) (l : list A) :
  subsequence (filter f l) l.
Proof.
  induction l as [|a l IH]; simpl; [constructor|].
  destruct (f a); constructor; exact IH.
Qed.

Lemma filter_stronger {A : Type} (f g : A -> bool) (l : list A) :
  (forall a, In a l -> g a = true -> f a = true) ->
  subsequence (filter g l) (filter f l) /\
  List.length (filter g l) <= List.length (filter f l).
Proof.
  induction l as [|a l IH]; simpl; intros H; [split; [constructor|lia]|].
  destruct IH as [IH1 IH2]; [intros; apply H; auto|].
  destruct (g a) eqn:G.
  - rewrite (H a) by auto. split; [constructor; exact IH1|simpl; lia].
  - destruct (f a); split; simpl; try constructor; auto; lia.
Qed.

Lemma subsequence_In {A : Type} (l1 l2 : list A) :
  subsequence l1 l2 -> forall a, In a l1 -> In a l2.
Proof.
  induction 1 as [|x l1 l2 _ IH|x l1 l2 _ IH]; intros a; simpl; [tauto|auto|].
  intros [->|Ha]; auto.
Qed.

Lemma threshold_of_positive (t : JS.number) :
  PrimFloat.ltb 0 t = true -> threshold_of t = (- t / 100)%float.
Proof. intros H. unfold threshold_of. rewrite (FloatOrder.abs_pos t H). reflexivity. Qed.

(** C5. For a positive threshold [t], the drops are the points of the
    series whose change is defined and [<= -t / 100], in the order of the
    series; and for positive thresholds [t1 <= t2], the drops at [t2] are
    among the drops at [t1], in the same order, so they are no more
    numerous - on any series and through [computeMonthlyDrops]. On the
    values 100, 90, 95, 70 and the threshold 15, the only drop is the last
    month, with the change 70/95 - 1. *)
Theorem drops_are_the_threshold_subsequence (t1 t2 : JS.number) (series : list MonthlyPoint) :
  PrimFloat.ltb 0 t1 = true ->
  PrimFloat.leb t1 t2 = true ->
  detectDrops t1 series = filter (dropped_by t1) series /\
  (forall p, In p (detectDrops t1 series) <->
             In p series /\ exists c, mom p = Some c /\ PrimFloat.leb c (- t1 / 100)%float = true) /\
  subsequence (detectDrops t1 series) series /\
  subsequence (detectDrops t2 series) (detectDrops t1 series) /\
  List.length (detectDrops t2 series) <= List.length (detectDrops t1 series) /\
  (forall env st,
     List.length (bigDrops (computeMonthlyDrops env (set_dropThresholdPct t2 st)))
     <= List.length (bigDrops (computeMonthlyDrops env (set_dropThresholdPct t1 st)))) /\
  detectDrops 15%float (withMoM scenarioB_values)
  = [mkMonthlyPoint "2020-04" 70%float (Some (70 / 95 - 1)%float)].
Proof.
  intros Hpos Hle.
  assert (Hthr : threshold_of t1 = (- t1 / 100)%float) by (apply threshold_of_positive, Hpos).
  assert (Hcut : PrimFloat.leb (threshold_of t2) (threshold_of t1) = true).
  { unfold threshold_of. apply Binary64Facts.div100_opp_antimono; assumption. }
  assert (Hdef : forall l, detectDrops t1 l = filter (dropped_by t1) l).
  { intros l. unfold detectDrops. apply filter_ext. intros p.
    unfold is_drop, dropped_by. rewrite Hthr. reflexivity. }
  assert (Hmono : forall l,
            subsequence (detectDrops t2 l) (detectDrops t1 l) /\
            List.length (detectDrops t2 l) <= List.length (detectDrops t1 l)).
  { intros l. unfold detectDrops. apply filter_stronger. intros p _.
    unfold is_drop. destruct (mom p) as [c|]; [|discriminate].
    intros H. eapply FloatOrder.leb_trans; eauto. }
  split; [apply Hdef|]. split; [|split; [|split; [|split; [|split]]]].
  - intros p. rewrite Hdef, filter_In. unfold dropped_by. split.
    + intros [Hin H]. split; [exact Hin|]. destruct (mom p) as [c|]; [eauto|discriminate].
    + intros [Hin (c & -> & H)]. auto.
  - unfold detectDrops. apply filter_subsequence.
  - apply Hmono.
  - apply Hmono.
  - intros env st. unfold computeMonthlyDrops, monthly_try. simpl.
    destruct (for_each _ _) as [perSymbol|e]; simpl; [apply Hmono|lia].
  - vm_compute. reflexivity.
Qed.

Lemma drops_are_the_threshold_subsequence_witness :
  List.length (detectDrops 20%float (withMoM scenarioB_values))
  <= List.length (detectDrops 15%float (withMoM scenarioB_values)).
Proof.
  apply (drops_are_the_threshold_subsequence 15%float 20%float (withMoM scenarioB_values));
    reflexivity.
Defined.

(** ** Annual Extremes Calculator *)

Section ExtremeTracking.

Variables better no_worse : JS.number -> JS.number -> bool.

Hypothesis better_trans :
  forall x y z, better x y = true -> no_worse y z = true -> better x z = true.
Hypothesis better_no_worse : forall x y, better x y = true -> no_worse x y = true.
Hypothesis not_better :
  forall x y, comparable x -> comparable y ->
              better x y = false -> no_worse y x = true.
Hypothesis no_worse_refl : forall x, comparable x -> no_worse x x = true.
Hypothesis no_worse_trans :
  forall x y z, no_worse x y = true -> no_worse y z = true -> no_worse x z = true.

Lemma tracked_first (l : list MonthlyPoint) (p : MonthlyPoint) :
  (forall q, In q l -> year_of q <> year_of p) ->
  comparable (valueUSD p) ->
  tracked better no_worse (l ++ [p]) (year_of p) (valueUSD p) (month p).
Proof.
  intros Hnew Hp. split.
  - intros q Hq Hy. apply in_app_or in Hq as [Hq|[<-|[]]].
    + destruct (Hnew q Hq Hy).
    + apply no_worse_refl, Hp.
  - exists l, p, []. repeat split; auto.
    intros q Hq Hy. destruct (Hnew q Hq Hy).
Qed.

Lemma tracked_other (l : list MonthlyPoint) (p : MonthlyPoint) (k : string)
  (val : JS.number) (mon : string) :
  tracked better no_worse l k val mon ->
  year_of p <> k ->
  tracked better no_worse (l ++ [p]) k val mon.
Proof.
  intros [Hb (before & best & after & -> & Hf)] Hk. split.
  - intros q Hq Hy. apply in_app_or in Hq as [Hq|[<-|[]]]; [auto|congruence].
  - exists before, best, (after ++ [p]). rewrite <- app_assoc. simpl. auto.
Qed.

Lemma tracked_update (l : list MonthlyPoint) (p : MonthlyPoint)
  (val : JS.number) (mon : string) :
  comparable_series (l ++ [p]) ->
  tracked better no_worse l (year_of p) val mon ->
  tracked better no_worse (l ++ [p]) (year_of p)
    (if better (valueUSD p) val then valueUSD p else val)
    (if better (valueUSD p) val then month p else mon).
Proof.
  intros Hc [Hb (before & best & after & -> & Hy & Hm & Hv & Hf)].
  assert (Hcp : comparable (valueUSD p)).
  { apply (proj1 (Forall_forall _ _) Hc). apply in_or_app. right. left. reflexivity. }
  assert (Hcv : comparable val).
  { rewrite <- Hv. apply (proj1 (Forall_forall _ _) Hc).
    apply in_or_app. left. apply in_or_app. right. left. reflexivity. }
  destruct (better (valueUSD p) val) eqn:E.
  - split.
    + intros q Hq Hyq. apply in_app_or in Hq as [Hq|[<-|[]]].
      * apply better_no_worse. eapply better_trans; eauto.
      * apply no_worse_refl, Hcp.
    + exists (before ++ best :: after), p, []. repeat split; auto.
      intros q Hq Hyq. eapply better_trans; eauto.
  - split.
    + intros q Hq Hyq. apply in_app_or in Hq as [Hq|[<-|[]]]; [auto|].
      apply not_better; auto.
    + exists before, best, (after ++ [p]). rewrite <- app_assoc. simpl. auto.
Qed.

End ExtremeTracking.

Lemma map_get_set {V : Type} (k k' : string) (v : V) (m : list (string * V)) :
  map_get k' (map_set k v m) = if String.eqb k k' then Some v else map_get k' m.
Proof.
  induction m as [|[k0 v0] m IH]; simpl.
  - destruct (String.eqb k k'); reflexivity.
  - destruct (String.eqb k0 k) eqn:E0; simpl.
    + apply String.eqb_eq in E0. subst k0. destruct (String.eqb k k'); reflexivity.
    + rewrite IH. destruct (String.eqb k0 k') eqn:E1; [|reflexivity].
      apply String.eqb_eq in E1. subst k0. rewrite String.eqb_sym, E0. reflexivity.
Qed.

Lemma map_get_In {V : Type} (k : string) (v : V) (m : list (string * V)) :
  map_get k m = Some v -> In (k, v) m.
Proof.
  induction m as [|[k0 v0] m IH]; simpl; [discriminate|].
  destruct (String.eqb k0 k) eqn:E; [|auto].
  apply String.eqb_eq in E. intros [= ->]. left. congruence.
Qed.

Lemma map_get_None_keys {V : Type} (k : string) (m : list (string * V)) :
  map_get k m = None -> ~ In k (map fst m).
Proof.
  induction m as [|[k0 v0] m IH]; simpl; [tauto|].
  destruct (String.eqb k0 k) eqn:E; [discriminate|].
  apply String.eqb_neq in E. intros H [?|?]; [congruence|]. apply IH; auto.
Qed.

Lemma In_map_get {V : Type} (k : string) (v : V) (m : list (string * V)) :
  NoDup (map fst m) -> In (k, v) m -> map_get k m = Some v.
Proof.
  induction m as [|[k0 v0] m IH]; simpl; [tauto|].
  intros Hnd [[= -> ->]|Hin].
  - rewrite String.eqb_refl. reflexivity.
  - inversion Hnd as [|? ? Hk0 Hnd']; subst.
    destruct (String.eqb k0 k) eqn:E; [|auto].
    apply String.eqb_eq in E. subst k0. exfalso. apply Hk0.
    apply in_map_iff. exists (k, v). auto.
Qed.

Lemma map_set_keys {V : Type} (k : string) (v : V) (m : list (string * V)) :
  map fst (map_set k v m)
  = match map_get k m with
    | Some _ => map fst m
    | None => map fst m ++ [k]
    end.
Proof.
  induction m as [|[k0 v0] m IH]; simpl; [reflexivity|].
  destruct (String.eqb k0 k) eqn:E; simpl; [reflexivity|].
  rewrite IH. destruct (map_get k m); reflexivity.
Qed.

Lemma map_set_NoDup {V : Type} (k : string) (v : V) (m : list (string * V)) :
  NoDup (map fst m) -> NoDup (map fst (map_set k v m)).
Proof.
  intros Hnd. rewrite map_set_keys. destruct (map_get k m) eqn:E; [exact Hnd|].
  apply map_get_None_keys in E.
  apply NoDup_rev in Hnd. rewrite <- (rev_involutive (map fst m ++ [k])).
  apply NoDup_rev. rewrite rev_app_distr. simpl. constructor; [|exact Hnd].
  rewrite <- in_rev. exact E.
Qed.

Lemma update_extremes_fields (rate : option JS.number) (p : MonthlyPoint) (c : YearExtreme) :
  let e := update_extremes rate p c in
  year e = year c /\
  minUSD e = (if PrimFloat.ltb (valueUSD p) (minUSD c) then valueUSD p else minUSD c) /\
  minMonth e = (if PrimFloat.ltb (valueUSD p) (minUSD c) then month p else minMonth c) /\
  maxUSD e = (if PrimFloat.ltb (maxUSD c) (valueUSD p) then valueUSD p else maxUSD c) /\
  maxMonth e = (if PrimFloat.ltb (maxUSD c) (valueUSD p) then month p else maxMonth c).
Proof.
  unfold update_extremes, JS.gtb.
  destruct (PrimFloat.ltb (valueUSD p) (minUSD c)); simpl;
    destruct (PrimFloat.ltb (maxUSD c) (valueUSD p)); simpl; auto.
Qed.

Lemma year_step_invariant (rate : option JS.number) (l : list MonthlyPoint)
  (m : list (string * YearExtreme)) (p : MonthlyPoint) :
  comparable_series (l ++ [p]) ->
  years_invariant l m ->
  years_invariant (l ++ [p]) (year_step rate m p).
Proof.
  intros Hc [Hk Hpres Hent].
  assert (Hcp : comparable (valueUSD p)).
  { apply (proj1 (Forall_forall _ _) Hc). apply in_or_app. right. left. reflexivity. }
  assert (Hother : forall k e, year_of p <> k -> map_get k m = Some e ->
            year e = k /\
            min_tracked (l ++ [p]) k (minUSD e) (minMonth e) /\
            max_tracked (l ++ [p]) k (maxUSD e) (maxMonth e)).
  { intros k e Hne He. destruct (Hent k e He) as (Hy & Hmin & Hmax).
    split; [exact Hy|]. split; apply tracked_other; auto. }
  unfold year_step. fold (year_of p).
  destruct (map_get (year_of p) m) as [current|] eqn:G.
  - (* the year has its entry *)
    destruct (Hent _ _ G) as (Hy & Hmin & Hmax).
    destruct (update_extremes_fields rate p current) as (Ey & Emin & Emm & Emax & EMm).
    constructor.
    + apply map_set_NoDup, Hk.
    + intros q Hq. rewrite map_get_set.
      destruct (String.eqb (year_of p) (year_of q)); [eauto|].
      apply in_app_or in Hq as [Hq|[<-|[]]]; [auto|eauto].
    + intros k e. rewrite map_get_set.
      destruct (String.eqb (year_of p) k) eqn:E.
      * apply String.eqb_eq in E. subst k. intros [= <-].
        split; [congruence|]. rewrite Emin, Emm, Emax, EMm. split.
        -- apply (tracked_update PrimFloat.ltb PrimFloat.leb); auto.
           ++ apply FloatOrder.ltb_leb_trans.
           ++ apply FloatOrder.ltb_leb.
           ++ intros x y Hx Hy0. apply FloatOrder.not_ltb_leb; auto.
        -- apply (tracked_update (fun x y => PrimFloat.ltb y x) (fun x y => PrimFloat.leb y x));
             auto.
           ++ intros x y z H1 H2. eapply FloatOrder.leb_ltb_trans; eauto.
           ++ intros x y. apply FloatOrder.ltb_leb.
           ++ intros x y Hx Hy0. apply FloatOrder.not_ltb_leb; auto.
      * apply String.eqb_neq in E. apply Hother, E.
  - (* the first point of its year *)
    assert (Hnew : forall q, In q l -> year_of q <> year_of p).
    { intros q Hq Hy. destruct (Hpres q Hq) as [e He]. congruence. }
    constructor.
    + apply map_set_NoDup, Hk.
    + intros q Hq. rewrite map_get_set.
      destruct (String.eqb (year_of p) (year_of q)) eqn:E; [eauto|].
      apply in_app_or in Hq as [Hq|[<-|[]]]; [auto|].
      rewrite String.eqb_refl in E. discriminate.
    + intros k e. rewrite map_get_set.
      destruct (String.eqb (year_of p) k) eqn:E.
      * apply String.eqb_eq in E. subst k. intros [= <-]. simpl.
        split; [reflexivity|]. split; apply tracked_first; auto.
      * apply String.eqb_neq in E. apply Hother, E.
Qed.

Lemma year_map_invariant (rate : option JS.number) (series : list MonthlyPoint) :
  comparable_series series ->
  years_invariant series (year_map rate series).
Proof.
  unfold year_map. induction series as [|p l IH] using rev_ind; intros Hc.
  - constructor; simpl.
    + constructor.
    + intros p [].
    + intros k e. discriminate.
  - rewrite fold_left_app. simpl. apply year_step_invariant; [exact Hc|].
    apply IH. unfold comparable_series in *. apply Forall_app in Hc. tauto.
Qed.

Lemma string_compare_trans (c : comparison) :
  forall s1 s2 s3,
    String.compare s1 s2 = c -> String.compare s2 s3 = c -> String.compare s1 s3 = c.
Proof.
  induction s1 as [|a1 s1 IH]; intros [|a2 s2] [|a3 s3]; simpl; try congruence.
  unfold Ascii.compare.
  destruct (N.compare_spec (N_of_ascii a1) (N_of_ascii a2)) as [E12|E12|E12];
    destruct (N.compare_spec (N_of_ascii a2) (N_of_ascii a3)) as [E23|E23|E23];
    destruct (N.compare_spec (N_of_ascii a1) (N_of_ascii a3)) as [E13|E13|E13];
    try congruence; try lia; eauto.
Qed.

Lemma str_leb_trans (a b c : string) :
  JS.str_leb a b = true -> JS.str_leb b c = true -> JS.str_leb a c = true.
Proof.
  unfold JS.str_leb, String.leb.
  destruct (String.compare a b) eqn:Eab; [| |discriminate];
    destruct (String.compare b c) eqn:Ebc; try discriminate; intros _ _.
  - apply String.compare_eq_iff in Eab. subst b. rewrite Ebc. reflexivity.
  - apply String.compare_eq_iff in Eab. subst b. rewrite Ebc. reflexivity.
  - apply String.compare_eq_iff in Ebc. subst c. rewrite Eab. reflexivity.
  - rewrite (string_compare_trans Lt _ _ _ Eab Ebc). reflexivity.
Qed.

Lemma insert_year_perm (localeCompare : Collation) (x : YearExtreme) (l : list YearExtreme) :
  Permutation (insert_year localeCompare x l) (x :: l).
Proof.
  induction l as [|y l IH]; simpl; [reflexivity|].
  destruct (year_leb localeCompare x y); [reflexivity|].
  rewrite IH. apply perm_swap.
Qed.

Lemma sort_years_perm (localeCompare : Collation) (l : list YearExtreme) :
  Permutation (sort_years localeCompare l) l.
Proof.
  induction l as [|x l IH]; simpl; [reflexivity|].
  rewrite insert_year_perm, IH. reflexivity.
Qed.


(** ** Crisis Window Analyzer *)

Lemma eventPerformance_nonempty (series : list MonthlyPoint) (ev : MarketEvent)
  (first : MonthlyPoint) (rest : list MonthlyPoint) :
  filter (in_window ev) series = first :: rest ->
  let s := drawdown_scan first (first :: rest) in
  maxDrawdown (eventPerformance series ev) = Some (worstDD s) /\
  troughMonth (eventPerformance series ev) = Some (sc_troughMonth s) /\
  recoveryMonth (eventPerformance series ev)
  = recovery_search series (sc_troughMonth s) (peak s).
Proof.
  intros H. unfold eventPerformance. rewrite H. simpl. auto.
Qed.

Lemma scan_step_peak (s : Scan) (p : MonthlyPoint) :
  peak (scan_step s p) = if JS.gtb (valueUSD p) (peak s) then valueUSD p else peak s.
Proof.
  unfold scan_step.
  destruct (JS.gtb (valueUSD p) (peak s)); simpl;
    repeat match goal with |- context [if ?c then _ else _] => destruct c; simpl end;
    reflexivity.
Qed.

Lemma drawdown_scan_peak (first : MonthlyPoint) (l : list MonthlyPoint) :
  peak (drawdown_scan first l) = running_peak first l.
Proof.
  unfold drawdown_scan, running_peak.
  change (valueUSD first) with (peak (scan_init first)).
  generalize (scan_init first). induction l as [|p l IH]; intros s; simpl; [reflexivity|].
  rewrite IH, scan_step_peak. reflexivity.
Qed.

Lemma drawdown_scan_snoc (first : MonthlyPoint) (l : list MonthlyPoint) (p : MonthlyPoint) :
  drawdown_scan first (l ++ [p]) = scan_step (drawdown_scan first l) p.
Proof. unfold drawdown_scan. rewrite fold_left_app. reflexivity. Qed.

Lemma running_peak_snoc (first : MonthlyPoint) (l : list MonthlyPoint) (p : MonthlyPoint) :
  running_peak first (l ++ [p])
  = if JS.gtb (valueUSD p) (running_peak first l) then valueUSD p else running_peak first l.
Proof. unfold running_peak. rewrite fold_left_app. reflexivity. Qed.

Lemma peak_at_snoc_old (first : MonthlyPoint) (l : list MonthlyPoint) (p : MonthlyPoint) (i : nat) :
  i < List.length l -> peak_at first (l ++ [p]) i = peak_at first l i.
Proof.
  intros Hi. unfold peak_at. rewrite firstn_app.
  replace (S i - List.length l) with 0 by lia. simpl. rewrite app_nil_r. reflexivity.
Qed.

Lemma peak_at_snoc_new (first : MonthlyPoint) (l : list MonthlyPoint) (p : MonthlyPoint) :
  peak_at first (l ++ [p]) (List.length l) = running_peak first (l ++ [p]).
Proof.
  unfold peak_at. rewrite firstn_all2; [reflexivity|]. rewrite length_app. simpl. lia.
Qed.

Lemma drawdown_scan_invariant (first : MonthlyPoint) (l : list MonthlyPoint) :
  scan_invariant first l (drawdown_scan first l).
Proof.
  induction l as [|p l IH] using rev_ind.
  - constructor; simpl.
    + reflexivity.
    + intros [|i] p H; discriminate.
    + left. auto.
  - destruct IH as [Hw Hnb Htr].
    pose proof (drawdown_scan_peak first (l ++ [p])) as Hpk.
    rewrite drawdown_scan_snoc in Hpk |- *.
    set (s := drawdown_scan first l) in *.
    assert (Hold : forall i q, nth_error (l ++ [p]) i = Some q -> i < List.length l ->
                     nth_error l i = Some q /\
                     peak_at first (l ++ [p]) i = peak_at first l i /\
                     drawdown_at first (l ++ [p]) i q = drawdown_at first l i q).
    { intros i q Hq Hi. rewrite nth_error_app1 in Hq by exact Hi.
      unfold drawdown_at. rewrite peak_at_snoc_old by exact Hi. auto. }
    assert (Hnew : forall i q, nth_error (l ++ [p]) i = Some q -> ~ i < List.length l ->
                     i = List.length l /\ q = p).
    { intros i q Hq Hi. assert (i < List.length (l ++ [p])) by (apply nth_error_Some; congruence).
      rewrite length_app in H. simpl in H. assert (i = List.length l) by lia. subst i.
      rewrite nth_error_app2, Nat.sub_diag in Hq by lia. simpl in Hq. split; congruence. }
    assert (Hlast : nth_error (l ++ [p]) (List.length l) = Some p).
    { rewrite nth_error_app2, Nat.sub_diag by lia. reflexivity. }
    (* the step, by cases on its tests *)
    unfold scan_step in Hpk |- *.
    set (s1 := if JS.gtb (valueUSD p) (peak s) then _ else s) in *.
    assert (Hw1 : worstDD s1 = worstDD s) by (unfold s1; destruct (JS.gtb _ _); reflexivity).
    assert (Ht1 : sc_troughMonth s1 = sc_troughMonth s /\ troughValue s1 = troughValue s)
      by (unfold s1; destruct (JS.gtb _ _); auto).
    assert (Hp1 : peak s1 = peak_at first (l ++ [p]) (List.length l)).
    { rewrite peak_at_snoc_new. rewrite <- Hpk.
      destruct (JS.gtb (peak s1) 0%float);
        [destruct (PrimFloat.ltb (valueUSD p / peak s1 - 1) (worstDD s1))|]; reflexivity. }
    clearbody s1.
    destruct (JS.gtb (peak s1) 0%float) eqn:Hpos;
      [destruct (PrimFloat.ltb (valueUSD p / peak s1 - 1) (worstDD s1)) eqn:Hlt|].
    + (* a new worst drawdown *)
      assert (Hdd : (valueUSD p / peak s1 - 1)%float
                    = drawdown_at first (l ++ [p]) (List.length l) p).
      { unfold drawdown_at. rewrite Hp1. reflexivity. }
      rewrite Hw1 in Hlt.
      constructor; simpl.
      * apply FloatOrder.ltb_leb. eapply FloatOrder.ltb_leb_trans; eauto.
      * intros i q Hq Hpi. destruct (Nat.lt_ge_cases i (List.length l)) as [Hi|Hi].
        -- destruct (Hold i q Hq Hi) as (Hq' & Hpe & ->). rewrite Hpe in Hpi.
           pose proof (Hnb i q Hq' Hpi) as Hn.
           match goal with |- ?b = false => destruct b eqn:E; [|reflexivity] end.
           rewrite (FloatOrder.ltb_trans _ _ _ E Hlt) in Hn. discriminate.
        -- destruct (Hnew i q Hq) as [-> ->]; [lia|]. rewrite <- Hdd.
           match goal with |- ?b = false => destruct b eqn:E; [|reflexivity] end.
           apply FloatOrder.ltb_not_leb in E as E'. apply FloatOrder.ltb_leb in E.
           congruence.
      * right. exists (List.length l), p. repeat split; auto.
        -- rewrite <- Hp1. exact Hpos.
        -- eapply FloatOrder.ltb_leb_trans; eauto.
        -- intros i q Hi Hq Hpi. destruct (Hold i q Hq Hi) as (Hq' & Hpe & ->).
           rewrite Hpe in Hpi. pose proof (Hnb i q Hq' Hpi) as Hn.
           match goal with |- ?b = false => destruct b eqn:E; [|reflexivity] end.
           rewrite (FloatOrder.leb_ltb_trans _ _ _ E Hlt) in Hn. discriminate.
    + (* the point does not beat the worst drawdown *)
      rewrite Hw1 in Hlt. destruct Ht1 as [Htm Htv].
      constructor; rewrite ?Hw1, ?Htm, ?Htv.
      * exact Hw.
      * intros i q Hq Hpi. destruct (Nat.lt_ge_cases i (List.length l)) as [Hi|Hi].
        -- destruct (Hold i q Hq Hi) as (Hq' & Hpe & ->). rewrite Hpe in Hpi. auto.
        -- destruct (Hnew i q Hq) as [-> ->]; [lia|].
           unfold drawdown_at. rewrite <- Hp1. exact Hlt.
      * destruct Htr as [Htr|(j & t & Hj & Hm & Hv & Hpj & Hwj & Hneg & Hfirst)]; [left; exact Htr|].
        assert (Hjl : j < List.length l) by (apply nth_error_Some; congruence).
        right. exists j, t. rewrite nth_error_app1 by exact Hjl.
        unfold drawdown_at in *. rewrite peak_at_snoc_old by exact Hjl.
        repeat split; auto.
        intros i q Hi Hq Hpi. assert (Hil : i < List.length l) by lia.
        destruct (Hold i q Hq Hil) as (Hq' & Hpe & _). rewrite Hpe in Hpi |- *. eauto.
    + (* no positive peak: nothing is compared *)
      destruct Ht1 as [Htm Htv].
      constructor; rewrite ?Hw1, ?Htm, ?Htv.
      * exact Hw.
      * intros i q Hq Hpi. destruct (Nat.lt_ge_cases i (List.length l)) as [Hi|Hi].
        -- destruct (Hold i q Hq Hi) as (Hq' & Hpe & ->). rewrite Hpe in Hpi. auto.
        -- destruct (Hnew i q Hq) as [-> ->]; [lia|]. rewrite <- Hp1 in Hpi. congruence.
      * destruct Htr as [Htr|(j & t & Hj & Hm & Hv & Hpj & Hwj & Hneg & Hfirst)]; [left; exact Htr|].
        assert (Hjl : j < List.length l) by (apply nth_error_Some; congruence).
        right. exists j, t. rewrite nth_error_app1 by exact Hjl.
        unfold drawdown_at in *. rewrite peak_at_snoc_old by exact Hjl.
        repeat split; auto.
        intros i q Hi Hq Hpi. assert (Hil : i < List.length l) by lia.
        destruct (Hold i q Hq Hil) as (Hq' & Hpe & _). rewrite Hpe in Hpi |- *. eauto.
Qed.

Lemma findIndex_Some {A : Type} (f : A -> bool) (l : list A) (i : nat) :
  findIndex f l = Some i ->
  exists x, nth_error l i = Some x /\ f x = true.
Proof.
  revert i. induction l as [|a l IH]; simpl; intros i; [discriminate|].
  destruct (f a) eqn:Fa.
  - intros [= <-]. exists a. auto.
  - destruct (findIndex f l) as [k|]; simpl; [|discriminate].
    intros [= <-]. exact (IH k eq_refl).
Qed.

Lemma findIndex_None {A : Type} (f : A -> bool) (l : list A) :
  findIndex f l = None -> forall x, In x l -> f x = false.
Proof.
  induction l as [|a l IH]; simpl; intros H x; [intros []|].
  destruct (f a) eqn:Fa; [discriminate|].
  destruct (findIndex f l); [discriminate|].
  intros [<-|Hx]; auto.
Qed.

(** With one point per month, the month of a point is found at the index
    of that point. *)
Lemma findIndex_month (series : list MonthlyPoint) (t : MonthlyPoint) :
  NoDup (map month series) ->
  In t series ->
  exists idx,
    findIndex (fun m => String.eqb (month m) (month t)) series = Some idx /\
    nth_error series idx = Some t.
Proof.
  intros Hnd Hin.
  destruct (findIndex _ series) as [idx|] eqn:F.
  - exists idx. split; [reflexivity|].
    apply findIndex_Some in F as (x & Hx & Hm). apply String.eqb_eq in Hm.
    apply In_nth_error in Hin as [k Hk].
    assert (E : nth_error (map month series) idx = nth_error (map month series) k).
    { rewrite !nth_error_map, Hx, Hk. simpl. congruence. }
    apply NoDup_nth_error in E; [congruence|exact Hnd|].
    rewrite length_map. apply nth_error_Some. congruence.
  - apply (findIndex_None _ _ F) in Hin. rewrite String.eqb_refl in Hin. discriminate.
Qed.

Lemma find_skipn_Some {A : Type} (f : A -> bool) (l : list A) (k : nat) (r : A) :
  find f (skipn k l) = Some r <->
  exists i, k <= i /\ nth_error l i = Some r /\ f r = true /\
            forall j y, k <= j -> j < i -> nth_error l j = Some y -> f y = false.
Proof.
  rewrite find_Some_split. split.
  - intros (before & after & E & Hb & Hr).
    exists (k + List.length before). split; [lia|].
    assert (Hn : forall n, nth_error l (k + n) = nth_error (before ++ r :: after) n).
    { intros n. rewrite <- E. symmetry. apply nth_error_skipn. }
    split; [|split; [exact Hr|]].
    + rewrite Hn, nth_error_app2, Nat.sub_diag by lia. reflexivity.
    + intros j y Hkj Hji Hy. replace j with (k + (j - k)) in Hy by lia.
      rewrite Hn, nth_error_app1 in Hy by lia. apply Hb. eapply nth_error_In; eauto.
  - intros (i & Hki & Hi & Hr & Hmin).
    assert (Hs : nth_error (skipn k l) (i - k) = Some r).
    { rewrite nth_error_skipn. replace (k + (i - k)) with i by lia. exact Hi. }
    apply nth_error_split in Hs as (before & after & E & Hlen).
    exists before, after. split; [exact E|]. split; [|exact Hr].
    intros x Hx. apply In_nth_error in Hx as [n Hn].
    assert (n < List.length before) by (apply nth_error_Some; congruence).
    apply (Hmin (k + n) x); try lia.
    rewrite <- nth_error_skipn, E, nth_error_app1 by lia. exact Hn.
Qed.

Lemma find_skipn_None {A : Type} (f : A -> bool) (l : list A) (k : nat) :
  find f (skipn k l) = None <->
  forall j y, k <= j -> nth_error l j = Some y -> f y = false.
Proof.
  rewrite find_None_iff. split.
  - intros H j y Hkj Hy. apply H. replace j with (k + (j - k)) in Hy by lia.
    rewrite <- nth_error_skipn in Hy. eapply nth_error_In; eauto.
  - intros H x Hx. apply In_nth_error in Hx as [n Hn].
    rewrite nth_error_skipn in Hn. apply (H (k + n) x); [lia|exact Hn].
Qed.

Lemma ltb_irrefl (x : float) : PrimFloat.ltb x x = false.
Proof.
  destruct (PrimFloat.ltb x x) eqn:E; [|reflexivity].
  pose proof (FloatOrder.ltb_not_leb _ _ E). pose proof (FloatOrder.ltb_leb _ _ E). congruence.
Qed.

(** The running peak is a value of the scanned points that none of them
    exceeds. *)
Lemma fold_peak_max (l : list MonthlyPoint) :
  forall pk0,
    let pk := fold_left (fun pk p => if JS.gtb (valueUSD p) pk then valueUSD p else pk) l pk0 in
    (pk = pk0 \/ PrimFloat.ltb pk0 pk = true) /\
    (pk = pk0 \/ exists q, In q l /\ pk = valueUSD q) /\
    (forall q, In q l -> JS.gtb (valueUSD q) pk = false).
Proof.
  induction l as [|p l IH]; intros pk0; simpl.
  - split; [auto|]. split; [auto|]. intros q [].
  - set (pk1 := if JS.gtb (valueUSD p) pk0 then valueUSD p else pk0).
    destruct (IH pk1) as (Hmono & Hval & Hmax).
    set (pk := fold_left _ l pk1) in *.
    assert (H01 : pk1 = pk0 /\ JS.gtb (valueUSD p) pk0 = false \/
                  pk1 = valueUSD p /\ PrimFloat.ltb pk0 pk1 = true).
    { unfold pk1. destruct (JS.gtb (valueUSD p) pk0) eqn:E; [right|left]; auto. }
    split; [|split].
    + destruct H01 as [[-> _]|[_ H01]]; [exact Hmono|].
      right. destruct Hmono as [->|Hmono]; [exact H01|].
      eapply FloatOrder.ltb_trans; eauto.
    + destruct Hval as [->|(q & Hq & ->)]; [|right; exists q; auto].
      destruct H01 as [[-> _]|[-> _]]; [left; reflexivity|right; exists p; auto].
    + intros q [<-|Hq]; [|auto]. unfold JS.gtb.
      destruct (PrimFloat.ltb pk (valueUSD p)) eqn:E; [|reflexivity].
      destruct H01 as [[E1 Hn]|[E1 _]]; rewrite E1 in Hmono.
      * unfold JS.gtb in Hn. destruct Hmono as [Hm|Hm].
        -- rewrite Hm in E. congruence.
        -- rewrite (FloatOrder.ltb_trans _ _ _ Hm E) in Hn. discriminate.
      * destruct Hmono as [Hm|Hm].
        -- rewrite Hm, ltb_irrefl in E. discriminate.
        -- rewrite <- (ltb_irrefl pk). symmetry. eapply FloatOrder.ltb_trans; eauto.
Qed.

(** The trough of the scan is a point of the window. *)
Lemma trough_in_window (first : MonthlyPoint) (rest : list MonthlyPoint) :
  let s := drawdown_scan first (first :: rest) in
  exists t, In t (first :: rest) /\ sc_troughMonth s = month t /\ troughValue s = valueUSD t.
Proof.
  destruct (drawdown_scan_invariant first (first :: rest)) as [_ _ Htr].
  destruct Htr as [(_ & Hm & Hv)|(j & t & Hj & Hm & Hv & _)].
  - exists first. simpl. auto.
  - exists t. split; [eapply nth_error_In; eauto|auto].
Qed.

(** C2, as the code has it. With one point per month, the search starts
    right after the index of the trough in the full series and returns the
    month of the first later point whose value is [>=] the running peak as
    the scan of the window left it: the largest value of the window, raised
    after the trough when a later point of the window exceeds the earlier
    peak. When no later point reaches it, there is no recovery month. *)
Theorem recovery_search_from_trough (series : list MonthlyPoint) (ev : MarketEvent)
  (first : MonthlyPoint) (rest : list MonthlyPoint) :
  NoDup (map month series) ->
  filter (in_window ev) series = first :: rest ->
  let s := drawdown_scan first (first :: rest) in
  let perf := eventPerformance series ev in
  exists idx t,
    nth_error series idx = Some t /\
    In t (first :: rest) /\
    troughMonth perf = Some (month t) /\
    troughValue s = valueUSD t /\
    (forall m,
       recoveryMonth perf = Some m <->
       exists i r,
         idx < i /\ nth_error series i = Some r /\ month r = m /\
         JS.geb (valueUSD r) (peak s) = true /\
         forall j r', idx < j -> j < i -> nth_error series j = Some r' ->
                      JS.geb (valueUSD r') (peak s) = false) /\
    (recoveryMonth perf = None <->
     forall j r', idx < j -> nth_error series j = Some r' ->
                  JS.geb (valueUSD r') (peak s) = false) /\
    peak s = running_peak first (first :: rest) /\
    (exists q, In q (first :: rest) /\ peak s = valueUSD q) /\
    (forall q, In q (first :: rest) -> JS.gtb (valueUSD q) (peak s) = false).
Proof.
  intros Hnd Hwin s perf.
  destruct (eventPerformance_nonempty series ev first rest Hwin) as (_ & Htm & Hrec).
  fold s in Htm, Hrec. fold perf in Htm, Hrec.
  destruct (trough_in_window first rest) as (t & Ht & Hm & Hv). fold s in Hm, Hv.
  assert (Hts : In t series).
  { rewrite <- Hwin in Ht. apply filter_In in Ht. tauto. }
  destruct (findIndex_month series t Hnd Hts) as (idx & Hidx & Hnth).
  exists idx, t. split; [exact Hnth|]. split; [exact Ht|].
  split; [congruence|]. split; [exact Hv|].
  assert (Hsearch : recoveryMonth perf
                    = option_map month
                        (find (fun m => JS.geb (valueUSD m) (peak s)) (skipn (S idx) series))).
  { rewrite Hrec. unfold recovery_search. rewrite Hm, Hidx. reflexivity. }
  split; [|split; [|split; [|split]]].
  - intros m. rewrite Hsearch. split.
    + destruct (find _ _) as [r|] eqn:F; [|discriminate]. intros [= <-].
      apply find_skipn_Some in F as (i & Hi & Hr & Hge & Hmin).
      exists i, r. repeat split; auto; try (intros j r' Hj Hji; apply Hmin; lia).
    + intros (i & r & Hi & Hr & <- & Hge & Hmin).
      assert (F : find (fun m => JS.geb (valueUSD m) (peak s)) (skipn (S idx) series) = Some r).
      { apply find_skipn_Some. exists i.
        repeat split; auto; try (intros j y Hj Hji; apply Hmin; lia). }
      rewrite F. reflexivity.
  - rewrite Hsearch. split.
    + destruct (find _ _) eqn:F; [discriminate|]. intros _ j r' Hj.
      apply (proj1 (find_skipn_None _ _ _) F). lia.
    + intros H. assert (F : find (fun m => JS.geb (valueUSD m) (peak s)) (skipn (S idx) series) = None).
      { apply find_skipn_None. intros j y Hj. apply H. lia. }
      rewrite F. reflexivity.
  - apply drawdown_scan_peak.
  - unfold s. rewrite drawdown_scan_peak. unfold running_peak.
    destruct (fold_peak_max (first :: rest) (valueUSD first)) as (_ & [E|Hq] & _).
    + exists first. split; [left; reflexivity|exact E].
    + exact Hq.
  - unfold s. rewrite drawdown_scan_peak.
    apply (fold_peak_max (first :: rest) (valueUSD first)).
Qed.

Lemma recovery_search_from_trough_witness :
  exists idx t,
    nth_error scenarioC_series idx = Some t /\
    In t scenarioC_series /\
    troughMonth (eventPerformance scenarioC_series dotcom) = Some (month t).
Proof.
  destruct (recovery_search_from_trough scenarioC_series dotcom
              (point "2000-03" 100%float) (tl scenarioC_series))
    as (idx & t & H1 & H2 & H3 & _).
  - repeat constructor; simpl; intuition discriminate.
  - reflexivity.
  - exists idx, t. auto.
Defined.

(** C2, refuted as stated: the trough (50) is recorded under the peak 100;
    the first later point with a value [>= 100] is the one of 2000-05 (120),
    yet the recovery month is 2000-06, the first point to reach the peak as
    raised to 200 after the trough. *)
Lemma recovery_uses_final_peak :
  troughMonth (eventPerformance revised_peak_series dotcom) = Some "2000-04" /\
  maxDrawdown (eventPerformance revised_peak_series dotcom) = Some (50 / 100 - 1)%float /\
  peak_at (point "2000-03" 100%float) revised_peak_series 1 = 100%float /\
  nth_error revised_peak_series 2 = Some (point "2000-05" 120%float) /\
  JS.geb 120%float 100%float = true /\
  recoveryMonth (eventPerformance revised_peak_series dotcom) = Some "2000-06".
Proof. vm_compute. repeat split; reflexivity. Qed.

(** C7. For an event with points in its window, the scan yields a maximum
    drawdown [<= 0]; no point of the window declines from its running peak by
    more than it; and the trough is the first point of the window when no
    point declines at all, and otherwise the earliest point whose decline
    from its running peak is the maximum drawdown - not the lowest value, as
    the window 100, 90, 1000, 500 shows (trough 500, not 90). On scenario C
    the maximum drawdown is 80/150 - 1, the trough is the point of value 80
    and the recovery is at the point of value 200. *)
Theorem drawdown_scan_finds_largest_decline (series : list MonthlyPoint) (ev : MarketEvent)
  (first : MonthlyPoint) (rest : list MonthlyPoint) :
  filter (in_window ev) series = first :: rest ->
  let inRange := first :: rest in
  let s := drawdown_scan first inRange in
  let perf := eventPerformance series ev in
  maxDrawdown perf = Some (worstDD s) /\
  troughMonth perf = Some (sc_troughMonth s) /\
  PrimFloat.leb (worstDD s) 0 = true /\
  (forall i p,
     nth_error inRange i = Some p ->
     JS.gtb (peak_at first inRange i) 0%float = true ->
     PrimFloat.ltb (drawdown_at first inRange i p) (worstDD s) = false) /\
  ((worstDD s = 0%float /\ sc_troughMonth s = month first /\ troughValue s = valueUSD first) \/
   (exists j t,
      nth_error inRange j = Some t /\
      sc_troughMonth s = month t /\ troughValue s = valueUSD t /\
      JS.gtb (peak_at first inRange j) 0%float = true /\
      worstDD s = drawdown_at first inRange j t /\
      PrimFloat.ltb (worstDD s) 0 = true /\
      forall i p, i < j -> nth_error inRange i = Some p ->
        JS.gtb (peak_at first inRange i) 0%float = true ->
        PrimFloat.leb (drawdown_at first inRange i p) (worstDD s) = false)) /\
  (maxDrawdown (eventPerformance scenarioC_series dotcom) = Some (80 / 150 - 1)%float /\
   troughMonth (eventPerformance scenarioC_series dotcom) = Some "2000-06" /\
   nth_error scenarioC_series 3 = Some (point "2000-06" 80%float) /\
   recoveryMonth (eventPerformance scenarioC_series dotcom) = Some "2000-07" /\
   nth_error scenarioC_series 4 = Some (point "2000-07" 200%float)) /\
  (troughMonth (eventPerformance lowest_is_not_trough_series dotcom) = Some "2000-06" /\
   maxDrawdown (eventPerformance lowest_is_not_trough_series dotcom) = Some (500 / 1000 - 1)%float /\
   nth_error lowest_is_not_trough_series 1 = Some (point "2000-04" 90%float) /\
   nth_error lowest_is_not_trough_series 3 = Some (point "2000-06" 500%float)).
Proof.
  intros Hwin inRange s perf.
  destruct (eventPerformance_nonempty series ev first rest Hwin) as (Hdd & Htm & _).
  destruct (drawdown_scan_invariant first inRange) as [Hw Hnb Htr].
  split; [exact Hdd|]. split; [exact Htm|]. split; [exact Hw|]. split; [exact Hnb|].
  split; [exact Htr|]. split; vm_compute; repeat split; reflexivity.
Qed.

Lemma drawdown_scan_finds_largest_decline_witness :
  maxDrawdown (eventPerformance revised_peak_series dotcom)
  = Some (worstDD (drawdown_scan (point "2000-03" 100%float) revised_peak_series)).
Proof.
  apply (drawdown_scan_finds_largest_decline revised_peak_series dotcom
           (point "2000-03" 100%float) (tl revised_peak_series)).
  reflexivity.
Defined.

(** ** The order of the stored series *)

Lemma insert_sorted_sorted (x : string) (l : list string) :
  StronglySorted (fun a b => JS.str_leb a b = true) l ->
  StronglySorted (fun a b => JS.str_leb a b = true) (insert_sorted x l).
Proof.
  induction 1 as [|y l Hs IH Hy]; simpl.
  - repeat constructor.
  - destruct (JS.str_leb x y) eqn:E.
    + constructor; [constructor; assumption|].
      constructor; [exact E|].
      apply Forall_forall. intros z Hz.
      apply (str_leb_trans _ y); [exact E|].
      apply (proj1 (Forall_forall _ _) Hy z Hz).
    + constructor; [exact IH|].
      apply Forall_forall. intros z Hz.
      apply (Permutation_in _ (insert_sorted_perm x l)) in Hz as [<-|Hz].
      * unfold JS.str_leb in *.
        destruct (String.leb_total x y); congruence.
      * apply (proj1 (Forall_forall _ _) Hy z Hz).
Qed.

Lemma sort_strings_sorted (l : list string) :
  StronglySorted (fun a b => JS.str_leb a b = true) (sort_strings l).
Proof.
  induction l as [|x l IH]; simpl; [constructor|]. apply insert_sorted_sorted, IH.
Qed.

Lemma str_leb_neq_ltb (a b : string) :
  JS.str_leb a b = true -> a <> b -> JS.str_ltb a b = true.
Proof.
  unfold JS.str_leb, JS.str_ltb, String.leb, String.ltb.
  destruct (String.compare a b) eqn:E; try congruence.
  apply String.compare_eq_iff in E. congruence.
Qed.

Lemma str_ltb_irrefl (a : string) : JS.str_ltb a a = false.
Proof.
  unfold JS.str_ltb, String.ltb.
  pose proof (String.compare_antisym a a) as H.
  destruct (String.compare a a); try reflexivity; discriminate H.
Qed.

Lemma sorted_NoDup_strict (l : list string) :
  StronglySorted (fun a b => JS.str_leb a b = true) l -> NoDup l ->
  StronglySorted (fun a b => JS.str_ltb a b = true) l.
Proof.
  induction 1 as [|a l Hs IH Ha]; intros Hnd; [constructor|].
  inversion Hnd as [|? ? Hnotin Hnd']; subst.
  constructor; [apply IH, Hnd'|].
  apply Forall_forall. intros z Hz.
  apply str_leb_neq_ltb; [apply (proj1 (Forall_forall _ _) Ha z Hz)|].
  intros ->. contradiction.
Qed.

Lemma StronglySorted_filter {A : Type} (R : A -> A -> Prop) (f : A -> bool) (l : list A) :
  StronglySorted R l -> StronglySorted R (filter f l).
Proof.
  induction 1 as [|a l Hs IH Ha]; simpl; [constructor|].
  destruct (f a); [|exact IH].
  constructor; [exact IH|].
  apply Forall_forall. intros z Hz. apply filter_In in Hz as [Hz _].
  apply (proj1 (Forall_forall _ _) Ha z Hz).
Qed.

Lemma StronglySorted_map_inv {A B : Type} (R : B -> B -> Prop) (g : A -> B) (l : list A) :
  StronglySorted R (map g l) -> StronglySorted (fun x y => R (g x) (g y)) l.
Proof.
  induction l as [|a l IH]; simpl; intros H; [constructor|].
  inversion H as [|? ? Hs Ha]; subst.
  constructor; [apply IH, Hs|].
  apply Forall_forall. intros z Hz.
  apply (proj1 (Forall_forall _ _) Ha (g z)). apply in_map, Hz.
Qed.

Lemma StronglySorted_nth {A : Type} (R : A -> A -> Prop) (l : list A) :
  StronglySorted R l ->
  forall i j x y, i < j -> nth_error l i = Some x -> nth_error l j = Some y -> R x y.
Proof.
  induction 1 as [|a l Hs IH Ha]; intros i j x y Hij Hi Hj.
  - destruct i; discriminate.
  - destruct j as [|j]; [lia|]. simpl in Hj.
    destruct i as [|i]; simpl in Hi.
    + injection Hi as <-. apply (proj1 (Forall_forall _ _) Ha y).
      apply nth_error_In with j, Hj.
    + apply (IH i j); [lia|assumption|assumption].
Qed.

Lemma chronological_NoDup (series : list MonthlyPoint) :
  chronological series -> NoDup (map month series).
Proof.
  induction 1 as [|a l Hs IH Ha]; simpl; constructor; [|exact IH].
  intros Hin. apply in_map_iff in Hin as (z & Hz & Hin).
  pose proof (proj1 (Forall_forall _ _) Ha z Hin) as H. cbv beta in H.
  rewrite Hz, str_ltb_irrefl in H. discriminate.
Qed.

Lemma aggregated_series_chronological (perSymbol : list SymbolSeries) :
  chronological (withMoM (portfolioSeries perSymbol)).
Proof.
  unfold chronological.
  apply (StronglySorted_map_inv (fun a b => JS.str_ltb a b = true) month).
  rewrite withMoM_months, portfolioSeries_months.
  apply StronglySorted_filter, sorted_NoDup_strict.
  - apply sort_strings_sorted.
  - apply (Permutation_NoDup (Permutation_sym (sort_strings_perm _))).
    apply allMonths_NoDup.
Qed.

(** X1. The series [computeMonthlyDrops] stores is in strictly ascending order
    of its months, whatever the order in which the histories list them, and
    each of its values is positive. *)
Theorem stored_series_chronological (env : Env) (st : State) :
  let stored := monthlySeries (computeMonthlyDrops env st) in
  chronological stored /\
  Forall (fun p => JS.gtb (valueUSD p) 0%float = true) stored.
Proof.
  cbv zeta. split; [|apply (stored_series_well_formed env st)].
  destruct (computeMonthlyDrops_series env st) as [E|(ps & _ & E)]; rewrite E.
  - constructor.
  - apply aggregated_series_chronological.
Qed.

(** ** Month-end grouping *)

Lemma byMonth_kept (start : option string) (rows : list DailyRow) :
  forall acc,
    fold_left
      (fun byMonth r =>
         if match start with
            | Some d => str_truthy d && JS.str_ltb (Date r) d
            | None => false
            end
         then byMonth
         else map_set (JS.slice0 7 (Date r)) r byMonth)
      rows acc
    = fold_left (fun byMonth r => map_set (month_of r) r byMonth)
        (filter (on_or_after start) rows) acc.
Proof.
  induction rows as [|r rows IH]; intros acc; simpl; [reflexivity|].
  rewrite IH. unfold on_or_after at 2.
  destruct start as [d|]; simpl; [|reflexivity].
  destruct (str_truthy d && JS.str_ltb (Date r) d); reflexivity.
Qed.

Lemma map_get_keys_seen {V : Type} (k : string) (m : list (string * V)) :
  existsb (String.eqb k) (map fst m) = match map_get k m with Some _ => true | None => false end.
Proof.
  induction m as [|[k0 v0] m IH]; simpl; [reflexivity|].
  rewrite String.eqb_sym. destruct (String.eqb k0 k); [reflexivity|exact IH].
Qed.

Lemma byMonth_keys (l : list DailyRow) :
  forall acc,
    map fst (fold_left (fun byMonth r => map_set (month_of r) r byMonth) l acc)
    = fold_left (fun s r => set_add (month_of r) s) l (map fst acc).
Proof.
  induction l as [|r l IH]; intros acc; simpl; [reflexivity|].
  rewrite IH. f_equal. rewrite map_set_keys. unfold set_add.
  rewrite map_get_keys_seen. destruct (map_get (month_of r) acc); reflexivity.
Qed.

(** A [Map] filled by a loop of [set]: under each key, what the last
    element filed under it gave. *)
Section LastWins.

Context {R V : Type} (key : R -> string) (val : R -> V).

Lemma map_of_last (l : list R) :
  let m := fold_left (fun m r => map_set (key r) (val r) m) l [] in
  NoDup (map fst m) /\
  forall k v, map_get k m = Some v <-> exists r, last_with key l k r /\ v = val r.
Proof.
  induction l as [|r l IH] using rev_ind; cbv zeta.
  - simpl. split; [constructor|]. intros k v. split; [discriminate|].
    intros (r & (b & a & E & _) & _). destruct b; discriminate.
  - rewrite fold_left_app. cbn [fold_left]. cbv zeta in IH. destruct IH as [Hnd IH].
    set (m := fold_left _ l []) in *.
    split; [apply map_set_NoDup, Hnd|].
    intros k v. rewrite map_get_set. destruct (String.eqb (key r) k) eqn:E.
    + apply String.eqb_eq in E. split.
      * intros [= <-]. exists r. split; [|reflexivity].
        exists l, []. split; [reflexivity|]. split; [exact E|]. intros r' [].
      * intros (r0 & (b & a & Hl & Hk & Ha) & ->).
        destruct a as [|a0 a _] using rev_ind.
        -- apply app_inj_tail in Hl as [_ ->]. reflexivity.
        -- rewrite app_comm_cons, app_assoc in Hl.
           apply app_inj_tail in Hl as [_ ->].
           exfalso. apply (Ha a0); [apply in_or_app; right; left; reflexivity|exact E].
    + apply String.eqb_neq in E. rewrite IH. split.
      * intros (r0 & (b & a & Hl & Hk & Ha) & ->). exists r0. split; [|reflexivity].
        exists b, (a ++ [r]). split; [rewrite Hl, <- app_assoc; reflexivity|].
        split; [exact Hk|].
        intros r' Hr'. apply in_app_or in Hr' as [Hr'|[<-|[]]]; [apply Ha, Hr'|exact E].
      * intros (r0 & (b & a & Hl & Hk & Ha) & ->). exists r0. split; [|reflexivity].
        destruct a as [|a0 a _] using rev_ind.
        -- apply app_inj_tail in Hl as [_ ->]. congruence.
        -- rewrite app_comm_cons, app_assoc in Hl.
           apply app_inj_tail in Hl as [Hl _].
           exists b, a. split; [exact Hl|]. split; [exact Hk|].
           intros r' Hr'. apply Ha. apply in_or_app. left. exact Hr'.
Qed.

End LastWins.

Lemma groupByMonthEnd_kept (rows : list DailyRow) (start : option string) :
  groupByMonthEnd rows start
  = map (fun e => mkMonthClose (fst e) (JS.parseFloat (Close (snd e))))
      (fold_left (fun byMonth r => map_set (month_of r) r byMonth)
         (filter (on_or_after start) rows) []).
Proof. unfold groupByMonthEnd. rewrite byMonth_kept. reflexivity. Qed.

Lemma groupByMonthEnd_months (rows : list DailyRow) (start : option string) :
  map mc_month (groupByMonthEnd rows start) = months_seen (filter (on_or_after start) rows).
Proof.
  rewrite groupByMonthEnd_kept, map_map. cbn [mc_month].
  change (fun x : string * DailyRow => fst x) with (@fst string DailyRow).
  rewrite byMonth_keys. reflexivity.
Qed.

Lemma groupByMonthEnd_In (rows : list DailyRow) (start : option string) (m : string)
  (c : JS.number) :
  In (mkMonthClose m c) (groupByMonthEnd rows start) <->
  exists r, last_of_month (filter (on_or_after start) rows) r /\
            m = month_of r /\ c = JS.parseFloat (Close r).
Proof.
  rewrite groupByMonthEnd_kept.
  destruct (map_of_last month_of (fun r => r) (filter (on_or_after start) rows)) as [Hnd Hget].
  cbv zeta in Hget.
  set (byMonth := fold_left _ (filter (on_or_after start) rows) []) in *.
  rewrite in_map_iff. split.
  - intros ([k v] & [= <- <-] & Hin). simpl.
    apply In_map_get in Hin; [|exact Hnd]. apply Hget in Hin as (r & Hlast & ->).
    exists r. destruct Hlast as (b & a & Hl & Hk & Ha).
    split; [exists b, a; rewrite Hk; auto|auto].
  - intros (r & Hlast & -> & ->).
    exists (month_of r, r). split; [reflexivity|].
    apply map_get_In. apply Hget. exists r. auto.
Qed.

(** X2. [groupByMonthEnd] leaves out the records dated before a non-empty
    start date and yields, for the others, one entry per month, the months
    in the order of their first record, each with the close of the last
    record of its month. *)
Theorem groupByMonthEnd_month_ends (rows : list DailyRow) (start : option string) :
  let kept := filter (on_or_after start) rows in
  let out := groupByMonthEnd rows start in
  NoDup (map mc_month out) /\
  map mc_month out = months_seen kept /\
  forall m c,
    In (mkMonthClose m c) out <->
    exists r, last_of_month kept r /\ m = month_of r /\ c = JS.parseFloat (Close r).
Proof.
  cbv zeta. split; [|split].
  - rewrite groupByMonthEnd_kept, map_map. cbn [mc_month].
    change (fun x : string * DailyRow => fst x) with (@fst string DailyRow).
    apply (map_of_last month_of (fun r => r)).
  - apply groupByMonthEnd_months.
  - apply groupByMonthEnd_In.
Qed.

(** ** The months a position contributes *)

Lemma compare_slice0 (n : nat) :
  forall a b, String.compare a b <> Gt ->
              String.compare (JS.slice0 n a) (JS.slice0 n b) <> Gt.
Proof.
  unfold JS.slice0.
  induction n as [|n IH]; intros a b H.
  - destruct a, b; simpl; discriminate.
  - destruct a as [|c a], b as [|d b]; simpl in *; try discriminate; try congruence.
    destruct (Ascii.compare c d); [apply IH, H|discriminate|exact H].
Qed.

Lemma slice0_mono (n : nat) (a b : string) :
  JS.str_leb a b = true -> JS.str_leb (JS.slice0 n a) (JS.slice0 n b) = true.
Proof.
  unfold JS.str_leb, String.leb. intros H.
  pose proof (compare_slice0 n a b) as Hn.
  destruct (String.compare a b); try discriminate H;
    (destruct (String.compare (JS.slice0 n a) (JS.slice0 n b));
     [reflexivity|reflexivity|exfalso; apply Hn; [discriminate|reflexivity]]).
Qed.

Lemma str_ltb_false_leb (a b : string) :
  JS.str_ltb a b = false -> JS.str_leb b a = true.
Proof.
  unfold JS.str_ltb, JS.str_leb, String.ltb, String.leb.
  rewrite (String.compare_antisym b a).
  destruct (String.compare a b); simpl; congruence.
Qed.

Lemma last_of_month_In (l : list DailyRow) (r : DailyRow) :
  last_of_month l r -> In r l.
Proof. intros (b & a & -> & _). apply in_or_app. right. left. reflexivity. Qed.

(** X3. When the series of a position can be built, it has an entry for
    the month of the first trading day on or after the purchase date (the
    one whose close prices the shares) and no entry for a month before the
    month of the purchase date. *)
Theorem position_months_from_purchase (env : Env) (st : State) (r : Row) (s : SymbolSeries) :
  symbolSeries env st r = Ok s ->
  (exists hist,
     fetchHistoricalCloseOnOrAfter env (normalizeTicker (ticker r)) (date r) = Ok hist /\
     ss_shares s = (amountUSD_of r (fx st) / hist_close hist)%float /\
     In (JS.slice0 7 (dateUsed hist)) (map mc_month (monthSeries s))) /\
  forall e, In e (monthSeries s) ->
            JS.str_leb (JS.slice0 7 (date r)) (mc_month e) = true.
Proof.
  unfold symbolSeries. destruct (missing_field r) eqn:Emf; [discriminate|].
  destruct (fetchHistoricalCloseOnOrAfter env _ (date r)) as [hist|e0] eqn:Eh; [|discriminate].
  simpl. intros [= <-]. simpl.
  pose proof (groupByMonthEnd_months (allRows hist) (Some (date r))) as Hmonths.
  pose proof (groupByMonthEnd_In (allRows hist) (Some (date r))) as Hin.
  assert (Hdate : str_truthy (date r) = true).
  { unfold missing_field in Emf. apply orb_false_elim in Emf as [_ Emf].
    destruct (str_truthy (date r)); [reflexivity|discriminate]. }
  split.
  - exists hist. split; [reflexivity|]. split; [reflexivity|].
    unfold fetchHistoricalCloseOnOrAfter in Eh.
    destruct (histRows env _) as [rows|]; [|discriminate].
    destruct (find _ rows) as [target|] eqn:Ef; [|discriminate].
    injection Eh as <-. cbn [allRows dateUsed hist_close monthSeries] in *.
    apply find_some in Ef as [Hin_t Hge].
    (* the target is kept, so some record of its month is the last one *)
    assert (Hkept : In target (filter (on_or_after (Some (date r))) rows)).
    { apply filter_In. split; [exact Hin_t|]. unfold on_or_after. rewrite Hdate. simpl.
      unfold JS.str_geb in Hge. unfold JS.str_ltb, String.ltb.
      unfold String.leb in Hge. rewrite (String.compare_antisym (Date target) (date r)).
      destruct (String.compare (date r) (Date target)); simpl; try reflexivity; discriminate Hge. }
    rewrite Hmonths. unfold months_seen.
    assert (Hseen : forall l acc x,
               In x l \/ In (month_of x) acc ->
               In (month_of x) (fold_left (fun acc r => set_add (month_of r) acc) l acc)).
    { induction l as [|y l IH]; intros acc x [Hx|Hx]; simpl;
        [destruct Hx|exact Hx| |].
      - destruct Hx as [->|Hx]; [|apply IH; left; exact Hx].
        apply IH. right. unfold set_add.
        destruct (existsb _ acc) eqn:Ee.
        + apply existsb_exists in Ee as (z & Hz & Ez). apply String.eqb_eq in Ez. congruence.
        + apply in_or_app. right. left. reflexivity.
      - apply IH. right. unfold set_add.
        destruct (existsb _ acc); [exact Hx|apply in_or_app; left; exact Hx]. }
    apply (Hseen _ [] target). left. exact Hkept.
  - intros [m c] He. apply Hin in He as (row & Hlast & -> & _). simpl.
    apply last_of_month_In, filter_In in Hlast as [_ Hkeep].
    unfold on_or_after in Hkeep. rewrite Hdate in Hkeep. simpl in Hkeep.
    apply negb_true_iff in Hkeep.
    apply slice0_mono, str_ltb_false_leb, Hkeep.
Qed.

Lemma position_months_from_purchase_witness :
  exists hist,
    fetchHistoricalCloseOnOrAfter scenarioA_env "NVDA.US" "2000-01-01" = Ok hist /\
    (1000 / 10)%float = (1000 / hist_close hist)%float /\
    In (JS.slice0 7 (dateUsed hist))
      (map mc_month (groupByMonthEnd scenarioA_history (Some "2000-01-01"))).
Proof.
  exact (proj1 (position_months_from_purchase scenarioA_env (initial_state [usd_position] None)
                  usd_position
                  (mkSymbolSeries "NVDA.US" (1000 / 10)%float
                     (groupByMonthEnd scenarioA_history (Some "2000-01-01")))
                  eq_refl)).
Defined.

(** ** Strings: reversal, trimming, upper case *)

Lemma rev_string_rev_string (s : string) :
  forall acc acc', JS.rev_string (JS.rev_string s acc) acc' = JS.rev_string acc (s ++ acc')%string.
Proof.
  induction s as [|c s IH]; intros acc acc'; simpl; [reflexivity|].
  rewrite IH. reflexivity.
Qed.

Lemma rev_string_involutive (s : string) : JS.rev_string (JS.rev_string s "") "" = s.
Proof.
  rewrite rev_string_rev_string. simpl.
  induction s as [|c s IH]; simpl; [reflexivity|]. rewrite IH. reflexivity.
Qed.

Lemma rev_string_acc (s : string) :
  forall acc, JS.rev_string s acc = (JS.rev_string s "" ++ acc)%string.
Proof.
  induction s as [|c s IH]; intros acc; simpl; [reflexivity|].
  rewrite (IH (String c acc)), (IH (String c "")). clear IH.
  induction (JS.rev_string s "") as [|d r IHr]; simpl; [reflexivity|].
  rewrite IHr. reflexivity.
Qed.

Lemma rev_string_append (a b : string) :
  JS.rev_string (a ++ b)%string "" = (JS.rev_string b "" ++ JS.rev_string a "")%string.
Proof.
  assert (H : forall a acc, JS.rev_string (a ++ b)%string acc = JS.rev_string b (JS.rev_string a acc)).
  { clear a. induction a as [|c a IH]; intros acc; simpl; [reflexivity|]. apply IH. }
  rewrite H. apply rev_string_acc.
Qed.

Lemma trimStart_no_lead (s : string) : no_lead (JS.trimStart s).
Proof.
  induction s as [|c s IH]; simpl; [exact I|].
  destruct (JS.is_ws c) eqn:E; [exact IH|exact E].
Qed.

Lemma no_lead_trimStart (s : string) : no_lead s -> JS.trimStart s = s.
Proof. destruct s as [|c s]; simpl; [reflexivity|]. intros ->. reflexivity. Qed.

Lemma trimStart_suffix (s : string) : exists p, s = (p ++ JS.trimStart s)%string.
Proof.
  induction s as [|c s [p IH]]; simpl; [exists ""; reflexivity|].
  destruct (JS.is_ws c); [|exists ""; reflexivity].
  exists (String c p). simpl. rewrite <- IH. reflexivity.
Qed.

Lemma trimEnd_prefix (s : string) : exists q, s = (JS.trimEnd s ++ q)%string.
Proof.
  unfold JS.trimEnd. destruct (trimStart_suffix (JS.rev_string s "")) as [p Hp].
  exists (JS.rev_string p "").
  rewrite <- rev_string_append, <- Hp. symmetry. apply rev_string_involutive.
Qed.

Lemma no_lead_prefix (a b : string) : no_lead (a ++ b)%string -> no_lead a.
Proof. destruct a; simpl; auto. Qed.

Lemma trim_trimmed (s : string) : trimmed (JS.trim s).
Proof.
  unfold trimmed, JS.trim. split.
  - destruct (trimEnd_prefix (JS.trimStart s)) as [q Hq].
    apply (no_lead_prefix _ q). rewrite <- Hq. apply trimStart_no_lead.
  - unfold JS.trimEnd. rewrite rev_string_involutive. apply trimStart_no_lead.
Qed.

Lemma trimmed_trim (s : string) : trimmed s -> JS.trim s = s.
Proof.
  intros [H1 H2]. unfold JS.trim, JS.trimEnd.
  rewrite (no_lead_trimStart s H1), (no_lead_trimStart _ H2).
  apply rev_string_involutive.
Qed.

Lemma upper_char_idem (c : ascii) : JS.upper_char (JS.upper_char c) = JS.upper_char c.
Proof. destruct c as [[] [] [] [] [] [] [] []]; reflexivity. Qed.

Lemma upper_char_ws (c : ascii) : JS.is_ws (JS.upper_char c) = JS.is_ws c.
Proof. destruct c as [[] [] [] [] [] [] [] []]; reflexivity. Qed.

Lemma toUpperCase_idem (s : string) : JS.toUpperCase (JS.toUpperCase s) = JS.toUpperCase s.
Proof.
  induction s as [|c s IH]; simpl; [reflexivity|]. rewrite upper_char_idem, IH. reflexivity.
Qed.

Lemma toUpperCase_append (a b : string) :
  JS.toUpperCase (a ++ b)%string = (JS.toUpperCase a ++ JS.toUpperCase b)%string.
Proof. induction a as [|c a IH]; simpl; [reflexivity|]. rewrite IH. reflexivity. Qed.

Lemma toUpperCase_rev (s : string) :
  forall acc,
    JS.rev_string (JS.toUpperCase s) (JS.toUpperCase acc)
    = JS.toUpperCase (JS.rev_string s acc).
Proof.
  induction s as [|c s IH]; intros acc; simpl; [reflexivity|].
  rewrite <- IH. reflexivity.
Qed.

Lemma toUpperCase_trimmed (s : string) : trimmed s -> trimmed (JS.toUpperCase s).
Proof.
  intros [H1 H2]. split.
  - destruct s as [|c s]; simpl in *; [exact I|]. rewrite upper_char_ws. exact H1.
  - change "" with (JS.toUpperCase "") at 1. rewrite toUpperCase_rev.
    destruct (JS.rev_string s "") as [|c r]; simpl in *; [exact I|].
    rewrite upper_char_ws. exact H2.
Qed.

Lemma includes_char_append (c : ascii) (a b : string) :
  JS.includes_char c (a ++ b)%string = JS.includes_char c a || JS.includes_char c b.
Proof.
  induction a as [|d a IH]; simpl; [reflexivity|]. rewrite IH. apply orb_assoc.
Qed.

Lemma ascii_text_append (a b : string) :
  ascii_text (a ++ b)%string = ascii_text a && ascii_text b.
Proof.
  induction a as [|c a IH]; simpl; [reflexivity|]. rewrite IH. apply andb_assoc.
Qed.

Lemma ascii_text_rev (s : string) :
  forall acc, ascii_text (JS.rev_string s acc) = ascii_text s && ascii_text acc.
Proof.
  induction s as [|c s IH]; intros acc; simpl; [reflexivity|].
  rewrite IH. simpl.
  destruct (N_of_ascii c <? 128)%N; destruct (ascii_text s); destruct (ascii_text acc);
    reflexivity.
Qed.

Lemma ascii_text_trimStart (s : string) :
  ascii_text s = true -> ascii_text (JS.trimStart s) = true.
Proof.
  induction s as [|c s IH]; simpl; [reflexivity|].
  intros H. destruct (JS.is_ws c); [|exact H].
  apply andb_prop in H as [_ H]. apply IH, H.
Qed.

Lemma ascii_text_trim (s : string) : ascii_text s = true -> ascii_text (JS.trim s) = true.
Proof.
  intros H. unfold JS.trim, JS.trimEnd.
  rewrite ascii_text_rev, andb_true_r. apply ascii_text_trimStart.
  rewrite ascii_text_rev, andb_true_r. apply ascii_text_trimStart, H.
Qed.

Lemma upper_char_ascii (c : ascii) :
  (N_of_ascii (JS.upper_char c) <? 128)%N = (N_of_ascii c <? 128)%N.
Proof. destruct c as [[] [] [] [] [] [] [] []]; reflexivity. Qed.

Lemma ascii_text_toUpperCase (s : string) : ascii_text (JS.toUpperCase s) = ascii_text s.
Proof.
  induction s as [|c s IH]; simpl; [reflexivity|]. rewrite upper_char_ascii, IH. reflexivity.
Qed.

Lemma ascii_text_normalizeTicker (t : string) :
  ascii_text t = true -> ascii_text (normalizeTicker t) = true.
Proof.
  intros H. unfold normalizeTicker.
  assert (Hs : ascii_text (JS.toUpperCase (JS.trim t)) = true).
  { rewrite ascii_text_toUpperCase. apply ascii_text_trim, H. }
  destruct (JS.includes_char _ _); [exact Hs|].
  rewrite ascii_text_append, Hs. reflexivity.
Qed.

(** ** Ticker symbols *)

Lemma normalizeTicker_facts (t : string) :
  JS.toUpperCase (normalizeTicker t) = normalizeTicker t /\
  JS.includes_char "." (normalizeTicker t) = true /\
  trimmed (normalizeTicker t).
Proof.
  unfold normalizeTicker.
  pose proof (toUpperCase_trimmed _ (trim_trimmed t)) as Ht.
  pose proof (toUpperCase_idem (JS.trim t)) as Hu.
  set (sym := JS.toUpperCase (JS.trim t)) in *.
  destruct (JS.includes_char "." sym) eqn:E; [auto|].
  split; [rewrite toUpperCase_append, Hu; reflexivity|].
  split; [rewrite includes_char_append, E; reflexivity|].
  destruct Ht as [H1 H2]. split.
  - destruct sym; [reflexivity|exact H1].
  - rewrite rev_string_append. reflexivity.
Qed.

(** X4. For a ticker whose code units are all below 128, the symbol
    [normalizeTicker] yields is again such text, always carries a dot (the
    exchange suffix, [.US] when the ticker has none), is in upper case and
    has no white space around it; normalizing it again changes nothing, and
    neither does the [toUpperCase] with which [calculate] looks its quote up. *)
Theorem normalizeTicker_canonical (t : string) :
  ascii_text t = true ->
  let sym := normalizeTicker t in
  ascii_text sym = true /\
  JS.includes_char "." sym = true /\
  JS.toUpperCase sym = sym /\
  JS.trim sym = sym /\
  normalizeTicker sym = sym.
Proof.
  intros Ha. cbv zeta. destruct (normalizeTicker_facts t) as (Hup & Hdot & Htrim).
  apply trimmed_trim in Htrim.
  split; [apply ascii_text_normalizeTicker, Ha|].
  repeat split; try assumption.
  unfold normalizeTicker at 1. rewrite Htrim, Hup, Hdot. reflexivity.
Qed.

Lemma normalizeTicker_canonical_witness :
  ascii_text (normalizeTicker " nvda ") = true /\
  JS.includes_char "." (normalizeTicker " nvda ") = true /\
  JS.toUpperCase (normalizeTicker " nvda ") = normalizeTicker " nvda " /\
  JS.trim (normalizeTicker " nvda ") = normalizeTicker " nvda " /\
  normalizeTicker (normalizeTicker " nvda ") = normalizeTicker " nvda ".
Proof. apply (normalizeTicker_canonical " nvda "). reflexivity. Defined.

(** ** The results of [calculate] *)

Lemma for_each_Forall2 {A B : Type} (body : A -> result B) (l : list A) :
  forall bs, for_each body l = Ok bs -> Forall2 (fun a b => body a = Ok b) l bs.
Proof.
  induction l as [|a l IH]; simpl; intros bs H.
  - injection H as <-. constructor.
  - destruct (body a) as [b|e] eqn:Ea; simpl in H; [|discriminate].
    destruct (for_each body l) as [bs'|e] eqn:El; simpl in H; [|discriminate].
    injection H as <-. constructor; [exact Ea|apply IH; reflexivity].
Qed.

Lemma asNum_finite_or_nan (v : option string) :
  JS.isFinite (asNum v) = true \/ PrimFloat.is_nan (asNum v) = true.
Proof.
  unfold asNum. destruct v as [v|]; [|right; reflexivity].
  cbv zeta. destruct (_ || _); [right; reflexivity|].
  set (n := JS.Number _).
  destruct (JS.isFinite n) eqn:E; [left; exact E|right; reflexivity].
Qed.

Lemma valuePosition_fields (env : Env) (qm : string -> option JS.number)
  (rate : option JS.number) (r : Row) (x : PositionResult) :
  valuePosition env qm rate r = Ok x ->
  res_id x = id r /\ symbol x = normalizeTicker (ticker r) /\
  res_currency x = currency r /\ amountOriginal x = amount r /\
  amountInvested x = amountUSD_of r rate /\
  shares x = (amountInvested x / purchaseClose x)%float /\
  currentValueUSD x = (shares x * latestPrice x)%float /\
  (JS.isFinite (latestPrice x) = true \/ PrimFloat.is_nan (latestPrice x) = true).
Proof.
  unfold valuePosition. destruct (missing_field r); [discriminate|].
  destruct (fetchHistoricalCloseOnOrAfter env _ (date r)) as [hist|e]; [|discriminate].
  simpl. intros [= <-]. simpl. repeat split.
  destruct (qm _) as [c|]; [|apply asNum_finite_or_nan].
  destruct (JS.isFinite c) eqn:E; [left; exact E|apply asNum_finite_or_nan].
Qed.

(** X5. When [calculate] ends without an error, its results are one per
    position, in the order of the form, each with the id, the normalized
    symbol, the currency and the amount of its position; the shares are the
    amount invested divided by the purchase close, the current value is the
    shares times the latest price, and the latest price is a finite number
    or [NaN], never an infinity. *)
Theorem calculate_results_follow_rows (env : Env) (st : State) :
  error (calculate env st) = None ->
  Forall2
    (fun r x =>
       res_id x = id r /\ symbol x = normalizeTicker (ticker r) /\
       res_currency x = currency r /\ amountOriginal x = amount r /\
       shares x = (amountInvested x / purchaseClose x)%float /\
       currentValueUSD x = (shares x * latestPrice x)%float /\
       (JS.isFinite (latestPrice x) = true \/ PrimFloat.is_nan (latestPrice x) = true))
    (rows st) (results (calc (calculate env st))).
Proof.
  unfold calculate, calculate_try.
  destruct (fetchQuotesAndRate env st) as [[qm eurusd]|e]; [|discriminate].
  destruct (for_each _ (rows st)) as [rs|e] eqn:E; [|discriminate].
  intros _. simpl. apply for_each_Forall2 in E.
  induction E as [|r x l l' Hx _ IH]; constructor; [|exact IH].
  apply valuePosition_fields in Hx. tauto.
Qed.

Lemma calculate_results_follow_rows_witness :
  Forall2
    (fun r x =>
       res_id x = id r /\ symbol x = normalizeTicker (ticker r) /\
       res_currency x = currency r /\ amountOriginal x = amount r /\
       shares x = (amountInvested x / purchaseClose x)%float /\
       currentValueUSD x = (shares x * latestPrice x)%float /\
       (JS.isFinite (latestPrice x) = true \/ PrimFloat.is_nan (latestPrice x) = true))
    [usd_position]
    (results (calc (calculate scenarioA_env (initial_state [usd_position] None)))).
Proof.
  apply (calculate_results_follow_rows scenarioA_env (initial_state [usd_position] None)).
  reflexivity.
Defined.

(** ** The sign and the range of the cut-off *)

Lemma not_nan_comparable (x : float) : PrimFloat.is_nan x = false -> comparable x.
Proof.
  unfold comparable, PrimFloat.is_nan. rewrite eqb_spec, leb_spec.
  destruct (Prim2SF x) as [[]|[]| |[] m e]; try reflexivity; try discriminate;
    unfold SFeqb, SFleb; destruct (SFcompare _ _) as [[]|]; simpl; congruence.
Qed.

Lemma nan_not_comparable (x : float) : PrimFloat.is_nan x = true -> Prim2SF x = S754_nan.
Proof.
  unfold PrimFloat.is_nan. rewrite eqb_spec.
  destruct (Prim2SF x) as [[]|[]| |[] m e]; try reflexivity; try discriminate;
    unfold SFeqb, SFcompare; rewrite Z.compare_refl;
    change (Pos.compare_cont Eq m m) with (Pos.compare m m);
    rewrite Pos.compare_refl; discriminate.
Qed.

(** The quotient of [-|x|] by a positive finite number is [NaN] or [<= 0]. *)
Lemma SFdiv_opp_abs_nonpos (x : spec_float) (my : positive) (ey : Z) :
  valid_binary x = true ->
  SFdiv prec emax (SFopp (SFabs x)) (S754_finite false my ey) = S754_nan \/
  SFleb (SFdiv prec emax (SFopp (SFabs x)) (S754_finite false my ey)) (S754_zero false) = true.
Proof.
  intros V. destruct x as [s|s| |s m e]; cbn [SFabs SFopp negb].
  - right. reflexivity.
  - right. reflexivity.
  - left. reflexivity.
  - right. rewrite Binary64Facts.SFdiv_opp_finite.
    cbn [valid_binary] in V. unfold bounded in V. apply andb_prop in V as [C _].
    destruct (Binary64Facts.canonical_units _ _ C) as (_ & _ & E).
    destruct (Binary64Facts.SFdiv_repr_nonnan m my e ey E) as [I HI].
    destruct (SFdiv prec emax _ _) as [[]|[]| |[] m' e']; cbn [Binary64.repr] in HI;
      try contradiction; reflexivity.
Qed.

Lemma threshold_of_nonpos (t : JS.number) :
  comparable (threshold_of t) -> PrimFloat.leb (threshold_of t) 0 = true.
Proof.
  unfold comparable, threshold_of. rewrite !leb_spec, div_spec, opp_spec, abs_spec.
  change (Prim2SF 100) with (S754_finite false 7036874417766400 (-46)).
  change (Prim2SF 0) with (S754_zero false). unfold SF64div.
  destruct (SFdiv_opp_abs_nonpos (Prim2SF t) 7036874417766400 (-46) (Prim2SF_valid t))
    as [H|H]; [rewrite H; discriminate|intros _; exact H].
Qed.

(** ** What the Drop Detector reports *)

(** X6. Whatever number the threshold is (zero, negative, infinite or
    [NaN] included), every point reported as a drop is a point of the series
    whose change is defined and [<= 0]: a rise is never reported. *)
Theorem drops_are_declines (t : JS.number) (series : list MonthlyPoint) (p : MonthlyPoint) :
  In p (detectDrops t series) ->
  In p series /\
  exists c, mom p = Some c /\ PrimFloat.leb c (threshold_of t) = true /\
            PrimFloat.leb c 0 = true.
Proof.
  unfold detectDrops. intros H. apply filter_In in H as [Hin Hd]. split; [exact Hin|].
  unfold is_drop in Hd. destruct (mom p) as [c|]; [|discriminate].
  exists c. split; [reflexivity|]. split; [exact Hd|].
  apply (FloatOrder.leb_trans _ (threshold_of t)); [exact Hd|].
  apply threshold_of_nonpos. exact (proj2 (FloatOrder.leb_comparable _ _ Hd)).
Qed.

Lemma drops_are_declines_witness :
  In (mkMonthlyPoint "2020-04" 70%float (Some (70 / 95 - 1)%float)) (withMoM scenarioB_values) /\
  exists c, Some (70 / 95 - 1)%float = Some c /\
            PrimFloat.leb c (threshold_of 15%float) = true /\ PrimFloat.leb c 0 = true.
Proof.
  apply (drops_are_declines 15%float (withMoM scenarioB_values)
           (mkMonthlyPoint "2020-04" 70%float (Some (70 / 95 - 1)%float))).
  vm_compute. left. reflexivity.
Defined.

Lemma Math_min_100 (x : JS.number) :
  PrimFloat.is_nan x = false ->
  PrimFloat.is_nan (Math_min 100%float x) = false /\ PrimFloat.leb (Math_min 100%float x) 100 = true.
Proof.
  intros Hx. unfold Math_min. rewrite Hx.
  change (PrimFloat.is_nan 100 || false) with false. cbv iota.
  pose proof (not_nan_comparable x Hx) as Cx.
  assert (C100 : comparable 100%float) by reflexivity.
  destruct (PrimFloat.ltb 100 x) eqn:E1; [split; reflexivity|].
  destruct (PrimFloat.ltb x 100) eqn:E2.
  - split; [exact Hx|apply FloatOrder.ltb_leb, E2].
  - change (PrimFloat.get_sign 100) with false. cbv iota.
    split; [exact Hx|apply FloatOrder.not_ltb_leb; assumption].
Qed.

Lemma Math_max_1 (m : JS.number) :
  PrimFloat.is_nan m = false -> PrimFloat.leb m 100 = true ->
  PrimFloat.leb 1 (Math_max 1%float m) = true /\ PrimFloat.leb (Math_max 1%float m) 100 = true.
Proof.
  intros Hm Hle. unfold Math_max. rewrite Hm.
  change (PrimFloat.is_nan 1 || false) with false. cbv iota.
  destruct (PrimFloat.ltb 1 m) eqn:E1; [split; [apply FloatOrder.ltb_leb, E1|exact Hle]|].
  destruct (PrimFloat.ltb m 1) eqn:E2; [split; reflexivity|].
  change (PrimFloat.get_sign 1) with false. cbv iota. split; reflexivity.
Qed.

(** X7. The threshold the input stores is [NaN] when the text of the field
    is not a number, and otherwise lies between 1 and 100; with a threshold
    the input stored, every point reported as a drop lost at least 1 %: its
    change is [<= -1/100]. *)
Theorem threshold_input_range (value : string) :
  let t := threshold_input value in
  ((PrimFloat.is_nan (JS.Number value) = true /\ PrimFloat.is_nan t = true) \/
   (PrimFloat.is_nan (JS.Number value) = false /\
    PrimFloat.leb 1 t = true /\ PrimFloat.leb t 100 = true)) /\
  forall st series p,
    In p (detectDrops (dropThresholdPct (onThresholdChange value st)) series) ->
    exists c, mom p = Some c /\ PrimFloat.leb c (-1 / 100)%float = true.
Proof.
  cbv zeta.
  assert (R : (PrimFloat.is_nan (JS.Number value) = true /\
               PrimFloat.is_nan (threshold_input value) = true) \/
              (PrimFloat.is_nan (JS.Number value) = false /\
               PrimFloat.leb 1 (threshold_input value) = true /\
               PrimFloat.leb (threshold_input value) 100 = true)).
  { unfold threshold_input. destruct (PrimFloat.is_nan (JS.Number value)) eqn:En.
    - left. split; [reflexivity|]. unfold Math_min. rewrite En.
      rewrite orb_true_r. reflexivity.
    - right. split; [reflexivity|].
      destruct (Math_min_100 _ En) as [Hn Hle]. apply Math_max_1; assumption. }
  split; [exact R|].
  intros st series p Hp. simpl in Hp.
  unfold detectDrops in Hp. apply filter_In in Hp as [_ Hd].
  unfold is_drop in Hd. destruct (mom p) as [c|]; [|discriminate].
  exists c. split; [reflexivity|].
  destruct R as [[_ Hnan]|(_ & H1 & H100)].
  - exfalso. apply nan_not_comparable in Hnan.
    revert Hd. unfold threshold_of.
    rewrite leb_spec, div_spec, opp_spec, abs_spec, Hnan.
    unfold SFleb, SFcompare. cbn [SFabs SFopp SFdiv].
    destruct (Prim2SF c) as [[]|[]| |[] m e]; discriminate.
  - apply (FloatOrder.leb_trans _ (threshold_of (threshold_input value))); [exact Hd|].
    change (-1 / 100)%float with (- PrimFloat.abs 1 / 100)%float.
    unfold threshold_of. apply Binary64Facts.div100_opp_antimono; [reflexivity|exact H1].
Qed.

(** ** The rows of the crisis table *)

Lemma filter_nil_iff {A : Type} (f : A -> bool) (l : list A) :
  filter f l = [] <-> forall x, In x l -> f x = false.
Proof.
  induction l as [|a l IH]; simpl; [tauto|].
  destruct (f a) eqn:E; split.
  - discriminate.
  - intros H. rewrite (H a) in E; [discriminate|auto].
  - intros H x [<-|Hx]; [exact E|apply IH; assumption].
  - intros H. apply IH. auto.
Qed.

(** ** Crisis windows on a chronological series *)

Lemma StronglySorted_last {A : Type} (R : A -> A -> Prop) (l : list A) :
  StronglySorted R l ->
  forall d q, In q l -> q = last l d \/ R q (last l d).
Proof.
  induction 1 as [|a l Hs IH Ha]; intros d q Hq; [destruct Hq|].
  destruct l as [|b l]; [destruct Hq as [<-|[]]; left; reflexivity|].
  change (last (a :: b :: l) d) with (last (b :: l) d).
  destruct Hq as [<-|Hq]; [|apply IH, Hq].
  right. apply (proj1 (Forall_forall _ _) Ha).
  destruct (exists_last (l := b :: l) ltac:(discriminate)) as (l' & z & E).
  rewrite E. rewrite last_last. apply in_or_app. right. left. reflexivity.
Qed.

Lemma last_In {A : Type} (l : list A) (a d : A) : In (last (a :: l) d) (a :: l).
Proof.
  destruct (exists_last (l := a :: l) ltac:(discriminate)) as (l' & z & E).
  rewrite E, last_last. apply in_or_app. right. left. reflexivity.
Qed.

Lemma str_ltb_leb (a b : string) : JS.str_ltb a b = true -> JS.str_leb a b = true.
Proof.
  unfold JS.str_ltb, JS.str_leb, String.ltb, String.leb.
  destruct (String.compare a b); congruence.
Qed.

Lemma str_leb_refl (a : string) : JS.str_leb a a = true.
Proof. unfold JS.str_leb. destruct (String.leb_total a a); assumption. Qed.

(** X9. On a series in chronological order with positive values (as every
    stored series is), the start and end values of an event with data are
    the values of the earliest and of the latest month of the series inside
    the window, the change is their difference, and the relative change is
    always there: the difference divided by the start value. *)
Theorem window_endpoints (series : list MonthlyPoint) (ev : MarketEvent) (sv : JS.number) :
  chronological series ->
  Forall (fun p => JS.gtb (valueUSD p) 0%float = true) series ->
  startValue (eventPerformance series ev) = Some sv ->
  exists pf pl,
    In pf series /\ in_window ev pf = true /\
    In pl series /\ in_window ev pl = true /\
    (forall q, In q series -> in_window ev q = true ->
       JS.str_leb (month pf) (month q) = true /\ JS.str_leb (month q) (month pl) = true) /\
    sv = valueUSD pf /\
    endValue (eventPerformance series ev) = Some (valueUSD pl) /\
    absChange (eventPerformance series ev) = Some (valueUSD pl - valueUSD pf)%float /\
    pctChange (eventPerformance series ev)
    = Some ((valueUSD pl - valueUSD pf) / valueUSD pf)%float.
Proof.
  intros Hch Hpos. unfold eventPerformance.
  pose proof (StronglySorted_filter _ (in_window ev) _ Hch) as Hs.
  assert (Hf : forall q, In q (filter (in_window ev) series) <->
                         In q series /\ in_window ev q = true) by (intros q; apply filter_In).
  destruct (filter (in_window ev) series) as [|first rest] eqn:Ef;
    cbn [startValue endValue absChange pctChange]; [discriminate|].
  intros [= <-].
  exists first, (last (first :: rest) first).
  destruct (proj1 (Hf first) ltac:(left; reflexivity)) as [Hin1 Hw1].
  destruct (proj1 (Hf _) (last_In rest first first)) as [Hin2 Hw2].
  split; [exact Hin1|]. split; [exact Hw1|]. split; [exact Hin2|]. split; [exact Hw2|].
  split.
  { intros q Hq Hwq.
    assert (Hq' : In q (first :: rest)) by (apply Hf; split; assumption).
    split.
    - inversion Hs as [|? ? _ Ha]; subst.
      destruct Hq' as [<-|Hq']; [apply str_leb_refl|].
      apply str_ltb_leb. apply (proj1 (Forall_forall _ _) Ha q Hq').
    - destruct (StronglySorted_last _ _ Hs first q Hq') as [->|Hlt];
        [apply str_leb_refl|apply str_ltb_leb, Hlt]. }
  split; [reflexivity|]. split; [reflexivity|]. split; [reflexivity|].
  rewrite (proj1 (Forall_forall _ _) Hpos first Hin1). reflexivity.
Qed.

Lemma window_endpoints_witness :
  exists pf pl,
    In pf scenarioC_series /\ in_window dotcom pf = true /\
    In pl scenarioC_series /\ in_window dotcom pl = true /\
    (forall q, In q scenarioC_series -> in_window dotcom q = true ->
       JS.str_leb (month pf) (month q) = true /\ JS.str_leb (month q) (month pl) = true) /\
    100%float = valueUSD pf /\
    endValue (eventPerformance scenarioC_series dotcom) = Some (valueUSD pl) /\
    absChange (eventPerformance scenarioC_series dotcom)
    = Some (valueUSD pl - valueUSD pf)%float /\
    pctChange (eventPerformance scenarioC_series dotcom)
    = Some ((valueUSD pl - valueUSD pf) / valueUSD pf)%float.
Proof.
  apply (window_endpoints scenarioC_series dotcom 100%float).
  - repeat constructor.
  - repeat constructor.
  - reflexivity.
Defined.

(** X10. On a series in chronological order, the trough month of an event
    is a month of the series inside the window, and the recovery month,
    when there is one, is a later month of the series (it may lie after the
    window); the two counts of months to recovery are taken up to it. *)
Theorem recovery_follows_trough (series : list MonthlyPoint) (ev : MarketEvent) (tm : string) :
  chronological series ->
  troughMonth (eventPerformance series ev) = Some tm ->
  (exists t, In t series /\ month t = tm /\ in_window ev t = true) /\
  forall rm,
    recoveryMonth (eventPerformance series ev) = Some rm ->
    JS.str_ltb tm rm = true /\
    (exists r, In r series /\ month r = rm) /\
    monthsToRecoveryFromStart (eventPerformance series ev)
    = Some (monthsBetween (ev_startMonth ev) rm) /\
    monthsToRecoveryFromTrough (eventPerformance series ev)
    = Some (monthsBetween tm rm).
Proof.
  intros Hch. pose proof (chronological_NoDup series Hch) as Hnd.
  unfold eventPerformance.
  destruct (filter (in_window ev) series) as [|first rest] eqn:Ef; simpl; [discriminate|].
  intros [= <-].
  destruct (trough_in_window first rest) as (t & Ht & Hm & _).
  fold (drawdown_scan first (first :: rest)).
  set (s := drawdown_scan first (first :: rest)) in *.
  rewrite <- Ef in Ht. apply filter_In in Ht as [Hin Hw].
  split; [exists t; repeat split; auto|].
  intros rm Hrm.
  unfold recovery_search in *. rewrite Hm in *.
  destruct (findIndex_month series t Hnd Hin) as (idx & Hidx & Hnth).
  rewrite Hidx in *.
  destruct (find _ (skipn (S idx) series)) as [r|] eqn:Efind; [|discriminate].
  simpl in Hrm. injection Hrm as <-.
  apply find_skipn_Some in Efind as (i & Hi & Hnth_r & _).
  split; [|split; [|split; reflexivity]].
  - apply (StronglySorted_nth _ _ Hch idx i t r); [lia|assumption|assumption].
  - exists r. split; [apply nth_error_In with i, Hnth_r|reflexivity].
Qed.

Lemma recovery_follows_trough_witness :
  exists t, In t scenarioC_series /\ month t = "2000-06" /\ in_window dotcom t = true.
Proof.
  apply (recovery_follows_trough scenarioC_series dotcom "2000-06").
  - repeat constructor.
  - reflexivity.
Defined.

(** ** Annual extremes in euros *)

Lemma eur_or_again (rate : option JS.number) (v w : JS.number) :
  eur_or rate v (eur_or rate w None) = eur_or rate v None.
Proof. unfold eur_or. destruct rate as [x|]; [destruct (JS.truthy x)|]; reflexivity. Qed.

Lemma map_set_In {V : Type} (k k' : string) (v v' : V) (m : list (string * V)) :
  In (k', v') (map_set k v m) -> v' = v \/ In (k', v') m.
Proof.
  induction m as [|[k0 v0] m IH]; simpl.
  - intros [[= _ <-]|[]]. left. reflexivity.
  - destruct (String.eqb k0 k); simpl.
    + intros [[= _ <-]|H]; [left; reflexivity|right; right; exact H].
    + intros [H|H]; [right; left; exact H|]. destruct (IH H); auto.
Qed.

Lemma update_extremes_eur (rate : option JS.number) (p : MonthlyPoint) (c : YearExtreme) :
  minEUR c = eur_or rate (minUSD c) None /\ maxEUR c = eur_or rate (maxUSD c) None ->
  minEUR (update_extremes rate p c) = eur_or rate (minUSD (update_extremes rate p c)) None /\
  maxEUR (update_extremes rate p c) = eur_or rate (maxUSD (update_extremes rate p c)) None.
Proof.
  intros [Hmin Hmax]. unfold update_extremes.
  destruct (PrimFloat.ltb (valueUSD p) (minUSD c)); cbn [maxUSD];
    destruct (JS.gtb (valueUSD p) (maxUSD c)); cbn [minEUR maxEUR minUSD maxUSD];
    rewrite ?Hmin, ?Hmax, ?eur_or_again; split; reflexivity || assumption.
Qed.

Lemma year_map_eur (rate : option JS.number) (series : list MonthlyPoint) :
  forall k e, In (k, e) (year_map rate series) ->
    minEUR e = eur_or rate (minUSD e) None /\ maxEUR e = eur_or rate (maxUSD e) None.
Proof.
  unfold year_map. induction series as [|p l IH] using rev_ind; [intros k e []|].
  rewrite fold_left_app. simpl. intros k e. unfold year_step at 1.
  destruct (map_get _ _) as [current|] eqn:Eg; intros H;
    apply map_set_In in H as [->|H]; try (apply (IH k e H)).
  - apply update_extremes_eur. apply map_get_In in Eg. apply (IH _ _ Eg).
  - split; reflexivity.
Qed.

(** X11. The euro columns of the annual extremes follow the dollar ones:
    with a usable rate (neither absent, nor zero, nor [NaN]) the minimum and
    the maximum in euros are the ones in dollars divided by the rate; without
    one they are absent. *)
Theorem annual_extremes_in_euros (localeCompare : Collation) (rate : option JS.number)
  (series : list MonthlyPoint) (y : YearExtreme) :
  In y (yearExtremes_of localeCompare rate series) ->
  (option_truthy rate = false -> minEUR y = None /\ maxEUR y = None) /\
  (forall x, rate = Some x -> JS.truthy x = true ->
     minEUR y = Some (minUSD y / x)%float /\ maxEUR y = Some (maxUSD y / x)%float).
Proof.
  intros Hin.
  assert (H : minEUR y = eur_or rate (minUSD y) None /\ maxEUR y = eur_or rate (maxUSD y) None).
  { unfold yearExtremes_of in Hin. destruct series as [|p0 l]; [destruct Hin|].
    apply (Permutation_in _ (sort_years_perm _ _)) in Hin.
    apply in_map_iff in Hin as ([k e] & <- & Hin). apply (year_map_eur rate _ k e Hin). }
  destruct H as [-> ->]. unfold eur_or, option_truthy. split.
  - destruct rate as [x|]; [intros ->|]; split; reflexivity.
  - intros x -> ->. split; reflexivity.
Qed.

Lemma annual_extremes_in_euros_witness :
  minEUR (mkYearExtreme "2000" 80%float 200%float "2000-06" "2000-07"
            (Some (80 / 2)%float) (Some (200 / 2)%float)) = Some (80 / 2)%float.
Proof.
  apply (annual_extremes_in_euros String.compare (Some 2%float) scenarioC_series
           (mkYearExtreme "2000" 80%float 200%float "2000-06" "2000-07"
              (Some (80 / 2)%float) (Some (200 / 2)%float))
           ltac:(left; reflexivity)); reflexivity.
Defined.

(** ** Editing the form *)

(** A row with a missing field, anywhere in the form, makes both
    computations end with an error and nothing to show. *)
Lemma missing_field_blocks (env : Env) (st : State) (r : Row) :
  In r (rows st) -> missing_field r = true ->
  (error (calculate env st) <> None /\ results (calc (calculate env st)) = []) /\
  (error (computeMonthlyDrops env st) <> None /\
   monthlySeries (computeMonthlyDrops env st) = [] /\
   bigDrops (computeMonthlyDrops env st) = []).
Proof.
  intros Hin Hmf. split.
  - unfold calculate, calculate_try.
    destruct (fetchQuotesAndRate env st) as [[qm eurusd]|e]; [|split; [discriminate|reflexivity]].
    destruct (for_each_throws (valuePosition env qm (eurusdNow_of st eurusd))
                (rows st) r MissingField Hin) as [e' He'].
    + unfold valuePosition. rewrite Hmf. reflexivity.
    + rewrite He'. split; [discriminate|reflexivity].
  - unfold computeMonthlyDrops, monthly_try.
    destruct (for_each_throws (symbolSeries env st) (rows st) r MissingField Hin) as [e' He'].
    + unfold symbolSeries. rewrite Hmf. reflexivity.
    + rewrite He'. simpl. repeat split; discriminate.
Qed.

(** X12. The row [addRow] appends (at the end, with the id after the last
    one) has an empty ticker, so until it is filled in or removed both
    computations end with an error and nothing to show, whatever the network
    answers. *)
Theorem added_row_blocks_computations (env : Env) (st : State) :
  rows (addRow st) = rows st ++ [newRow (rows st)] /\
  (error (calculate env (addRow st)) <> None /\
   results (calc (calculate env (addRow st))) = []) /\
  (error (computeMonthlyDrops env (addRow st)) <> None /\
   monthlySeries (computeMonthlyDrops env (addRow st)) = [] /\
   bigDrops (computeMonthlyDrops env (addRow st)) = []).
Proof.
  split; [reflexivity|].
  apply (missing_field_blocks env (addRow st) (newRow (rows st))); [|reflexivity].
  simpl. apply in_or_app. right. left. reflexivity.
Qed.

(** X13. An amount field whose text is empty, zero or not a number makes
    the amount of its row falsy, and both computations then end with an
    error and nothing to show. *)
Theorem unusable_amount_blocks_computations (env : Env) (st : State) (i : JS.number)
  (val : string) (r : Row) :
  In r (rows st) ->
  PrimFloat.eqb (id r) i = true ->
  JS.truthy (JS.Number val) = false ->
  let st' := handleChange i (EditAmount val) st in
  (error (calculate env st') <> None /\ results (calc (calculate env st')) = []) /\
  (error (computeMonthlyDrops env st') <> None /\
   monthlySeries (computeMonthlyDrops env st') = [] /\
   bigDrops (computeMonthlyDrops env st') = []).
Proof.
  intros Hin Hid Hval st'.
  apply (missing_field_blocks env st' (edit_row (EditAmount val) r)).
  - unfold st', handleChange. simpl. apply in_map_iff. exists r. rewrite Hid. auto.
  - unfold missing_field. simpl. rewrite Hval. simpl.
    rewrite orb_true_r. reflexivity.
Qed.

Lemma unusable_amount_blocks_computations_witness :
  (error (calculate scenarioA_env
            (handleChange 1%float (EditAmount "") (initial_state initial_rows None))) <> None /\
   results (calc (calculate scenarioA_env
                    (handleChange 1%float (EditAmount "") (initial_state initial_rows None)))) = []) /\
  (error (computeMonthlyDrops scenarioA_env
            (handleChange 1%float (EditAmount "") (initial_state initial_rows None))) <> None /\
   monthlySeries (computeMonthlyDrops scenarioA_env
                    (handleChange 1%float (EditAmount "") (initial_state initial_rows None))) = [] /\
   bigDrops (computeMonthlyDrops scenarioA_env
               (handleChange 1%float (EditAmount "") (initial_state initial_rows None))) = []).
Proof.
  apply (unusable_amount_blocks_computations scenarioA_env (initial_state initial_rows None)
           1%float "" (mkRow 1%float "NVDA" 1000%float EUR "2000-01-05")).
  - left. reflexivity.
  - reflexivity.
  - reflexivity.
Defined.

Lemma filter_all {A : Type} (f : A -> bool) (l : list A) :
  (forall x, In x l -> f x = true) -> filter f l = l.
Proof.
  induction l as [|a l IH]; simpl; intros H; [reflexivity|].
  rewrite (H a (or_introl eq_refl)), IH; auto.
Qed.

(** Removing the row [addRow] appended, when its id is the id of no row
    already there (and is a number equal to itself), gives the state back. *)
Lemma removeRow_addRow (st : State) :
  PrimFloat.eqb (nextId (rows st)) (nextId (rows st)) = true ->
  (forall r, In r (rows st) -> PrimFloat.eqb (id r) (nextId (rows st)) = false) ->
  removeRow (nextId (rows st)) (addRow st) = st.
Proof.
  intros Hself Hfresh. destruct st as [rs ue f c e t dl ms bd].
  unfold removeRow, addRow, setRows. simpl in *. f_equal.
  rewrite filter_app. simpl. rewrite Hself. simpl. rewrite app_nil_r.
  apply filter_all. intros r Hr. rewrite (Hfresh r Hr). reflexivity.
Qed.

(** ** Pages *)

Lemma ceil_div_bounds (n d : nat) :
  0 < d -> n <= ceil_div n d * d /\ (0 < n -> (ceil_div n d - 1) * d < n).
Proof.
  intros Hd. unfold ceil_div.
  pose proof (Nat.div_mod_eq (n + d - 1) d) as E.
  pose proof (Nat.mod_upper_bound (n + d - 1) d ltac:(lia)) as B.
  split; [nia|]. intros Hn.
  assert (1 <= (n + d - 1) / d).
  { apply Nat.div_le_lower_bound; lia. }
  nia.
Qed.

Lemma pages_concat {A : Type} (ps : nat) (l : list A) (n : nat) :
  List.concat (map (fun k => firstn ps (skipn (k * ps) l)) (seq 0 n)) = firstn (n * ps) l.
Proof.
  induction n as [|n IH]; [reflexivity|].
  rewrite seq_S, map_app, List.concat_app, IH. simpl. rewrite app_nil_r.
  rewrite <- (firstn_skipn (n * ps) l) at 3.
  rewrite firstn_app, firstn_firstn.
  replace (Nat.min (ps + n * ps) (n * ps)) with (n * ps) by lia.
  destruct (Nat.le_gt_cases (List.length l) (n * ps)) as [Hle|Hgt].
  - rewrite (skipn_all2 l Hle). rewrite !firstn_nil. reflexivity.
  - rewrite length_firstn. replace (Nat.min (n * ps) (List.length l)) with (n * ps) by lia.
    replace (ps + n * ps - n * ps) with ps by lia. reflexivity.
Qed.

Lemma visibleDrops_page (page ps : nat) (drops : list MonthlyPoint) :
  visibleDrops false page ps drops = firstn ps (skipn ((page - 1) * ps) drops).
Proof.
  unfold visibleDrops, slice, page_end, page_start.
  set (s := (page - 1) * ps).
  destruct (Nat.le_gt_cases (List.length drops) s) as [Hle|Hgt].
  - rewrite (skipn_all2 drops Hle), !firstn_nil. reflexivity.
  - destruct (Nat.le_gt_cases (List.length drops) (s + ps)) as [Hle2|Hgt2].
    + rewrite Nat.min_l by lia.
      rewrite !firstn_all2; [reflexivity| |]; rewrite length_skipn; lia.
    + rewrite Nat.min_r by lia. f_equal. lia.
Qed.

(** X14. With a page size above zero, the pages 1 to [totalPages] show
    every drop exactly once and in order (laid end to end they are the
    list); no page has more rows than the page size, and when there are
    drops none of these pages is empty. *)
Theorem pages_partition_drops (pageSize : nat) (drops : list MonthlyPoint) :
  0 < pageSize ->
  let n := totalPages (List.length drops) pageSize in
  List.concat (map (fun page => visibleDrops false page pageSize drops) (seq 1 n)) = drops /\
  forall page, 1 <= page <= n ->
    List.length (visibleDrops false page pageSize drops) <= pageSize /\
    (drops <> [] -> visibleDrops false page pageSize drops <> []).
Proof.
  intros Hps n.
  destruct (ceil_div_bounds (List.length drops) pageSize Hps) as [Hup Hlow].
  split.
  - rewrite <- seq_shift, map_map.
    rewrite (map_ext _ (fun k => firstn pageSize (skipn (k * pageSize) drops))).
    + rewrite pages_concat. apply firstn_all2. unfold n, totalPages. nia.
    + intros k. rewrite visibleDrops_page. simpl. rewrite Nat.sub_0_r. reflexivity.
  - intros page Hpage. rewrite visibleDrops_page. split.
    + rewrite length_firstn. lia.
    + intros Hne Hnil.
      assert (Hlen : 0 < List.length drops) by (destruct drops; [congruence|simpl; lia]).
      apply (f_equal (@List.length _)) in Hnil.
      rewrite length_firstn, length_skipn in Hnil. simpl in Hnil.
      specialize (Hlow Hlen).
      assert (n = ceil_div (List.length drops) pageSize) by (unfold n, totalPages; nia).
      assert ((page - 1) * pageSize < List.length drops) by nia.
      lia.
Qed.

Lemma pages_partition_drops_witness :
  List.concat (map (fun page => visibleDrops false page 2 scenarioC_series)
            (seq 1 (totalPages (List.length scenarioC_series) 2)))
  = scenarioC_series.
Proof.
  apply (pages_partition_drops 2 scenarioC_series). lia.
Defined.

(** The two page buttons keep the page between 1 and [totalPages]; going
    to the following page and back returns to the page one was on, unless it
    was the last. *)
Lemma page_buttons_in_range (len pageSize p : nat) :
  1 <= p <= totalPages len pageSize ->
  1 <= previousPage p <= totalPages len pageSize /\
  1 <= followingPage len pageSize p <= totalPages len pageSize /\
  (p < totalPages len pageSize -> previousPage (followingPage len pageSize p) = p) /\
  (p = totalPages len pageSize -> followingPage len pageSize p = p).
Proof.
  unfold previousPage, followingPage, totalPages. lia.
Qed.

(** ** Parsed lines *)

Lemma csv_row_own (cells : list (string)) (hs : list string) (h : string) :
  forall row i,
    map_get h (fst (fold_left
                      (fun acc x => (assign x (nth_error cells (snd acc)) (fst acc), S (snd acc)))
                      hs (row, i)))
    = if String.eqb h "__proto__" then map_get h row
      else match last_index h hs with
           | Some j => Some (nth_error cells (i + j))
           | None => map_get h row
           end.
Proof.
  induction hs as [|x hs IH]; intros row i; cbn [fold_left fst snd last_index].
  - destruct (String.eqb h "__proto__"); reflexivity.
  - rewrite IH. unfold assign.
    destruct (String.eqb h "__proto__") eqn:Eh.
    + apply String.eqb_eq in Eh. subst h.
      destruct (String.eqb x "__proto__") eqn:Ex; [reflexivity|].
      rewrite map_get_set, Ex. reflexivity.
    + destruct (last_index h hs) as [j|].
      * f_equal. f_equal. lia.
      * destruct (String.eqb x "__proto__") eqn:Ex.
        -- apply String.eqb_eq in Ex. subst x. rewrite String.eqb_sym, Eh. reflexivity.
        -- rewrite map_get_set. destruct (String.eqb x h); [|reflexivity].
           f_equal. f_equal. lia.
Qed.

(** X15. [parseCSV] gives one row per non-empty line after the header
    line of the trimmed text, in the order of the lines (a carriage return
    before the line feed is not part of a line). In a row, what is read
    under a header other than [__proto__] is the cell of the line in the
    column of that header, the last one if the header is repeated, and
    [undefined] when the line has too few cells; under a name that is no
    header it is what [Object.prototype] has under that name, and
    [undefined] when it has nothing; under [__proto__] it is the prototype,
    a header of that name or not. *)
Theorem parseCSV_rows (text : string) :
  let lines := split_lines (JS.trim text) "" in
  let headers := JS.split "," (hd "" lines) in
  Forall2
    (fun line row =>
       forall h,
         field h row
         = if String.eqb h "__proto__" then Inherited h
           else
             match last_index h headers with
             | Some i =>
                 match nth_error (JS.split "," line) i with
                 | Some cell => Text cell
                 | None => Undefined
                 end
             | None => if inherited h then Inherited h else Undefined
             end)
    (filter str_truthy (tl lines)) (parseCSV text).
Proof.
  cbv zeta. unfold parseCSV.
  destruct (split_lines (JS.trim text) "") as [|header lines]; simpl; [constructor|].
  induction (filter str_truthy lines) as [|line l IH]; simpl; constructor; [|exact IH].
  intros h. unfold csv_row, field. rewrite csv_row_own. simpl map_get.
  destruct (String.eqb h "__proto__") eqn:Eh.
  - apply String.eqb_eq in Eh. subst h. reflexivity.
  - destruct (last_index h (JS.split "," header)) as [i|]; [|reflexivity].
    simpl. destruct (nth_error _ i); reflexivity.
Qed.

(** ** Text with code units below 128 *)

Lemma ascii_split_on (sep : ascii) (s : string) :
  forall cur, ascii_text s = true -> ascii_text cur = true ->
    Forall (fun x => ascii_text x = true) (JS.split_on sep s cur).
Proof.
  induction s as [|c s IH]; intros cur Hs Hc; simpl.
  - constructor; [|constructor]. rewrite ascii_text_rev, Hc. reflexivity.
  - simpl in Hs. apply andb_prop in Hs as [Hc0 Hs].
    destruct (Ascii.eqb c sep).
    + constructor; [rewrite ascii_text_rev, Hc; reflexivity|]. apply IH; [exact Hs|reflexivity].
    + apply IH; [exact Hs|]. simpl. rewrite Hc0, Hc. reflexivity.
Qed.

Lemma ascii_split_lines (n : nat) :
  forall s cur, String.length s <= n -> ascii_text s = true -> ascii_text cur = true ->
    Forall (fun x => ascii_text x = true) (split_lines s cur).
Proof.
  induction n as [|n IH]; intros s cur Hn Hs Hc.
  - destruct s; [|simpl in Hn; lia]. simpl.
    constructor; [|constructor]. rewrite ascii_text_rev, Hc. reflexivity.
  - destruct s as [|c s]; simpl.
    + constructor; [|constructor]. rewrite ascii_text_rev, Hc. reflexivity.
    + simpl in Hn, Hs. apply andb_prop in Hs as [Hc0 Hs].
      assert (Hcur : ascii_text (String c cur) = true) by (simpl; rewrite Hc0, Hc; reflexivity).
      assert (Hrev : ascii_text (JS.rev_string cur "") = true)
        by (rewrite ascii_text_rev, Hc; reflexivity).
      destruct (Ascii.eqb c "010").
      * constructor; [exact Hrev|]. apply IH; [lia|exact Hs|reflexivity].
      * destruct (Ascii.eqb c "013"); [|apply IH; [lia|exact Hs|exact Hcur]].
        destruct s as [|d s']; [apply IH; [lia|exact Hs|exact Hcur]|].
        destruct (Ascii.eqb d "010"); [|apply IH; [lia|exact Hs|exact Hcur]].
        constructor; [exact Hrev|].
        simpl in Hn, Hs. apply andb_prop in Hs as [_ Hs].
        apply IH; [lia|exact Hs|reflexivity].
Qed.

Lemma ascii_row_set (k : string) (v : option string) (r : CsvRow) :
  match v with Some s => ascii_text s = true | None => True end ->
  ascii_row r -> ascii_row (map_set k v r).
Proof.
  intros Hv. unfold ascii_row. induction r as [|[k0 v0] r IH]; simpl; intros H.
  - constructor; [exact Hv|constructor].
  - inversion H as [|? ? H0 Hr]; subst. destruct (String.eqb k0 k).
    + constructor; [exact Hv|exact Hr].
    + constructor; [exact H0|apply IH, Hr].
Qed.

Lemma ascii_csv_row (headers : list string) (line : string) :
  ascii_text line = true -> ascii_row (csv_row headers line).
Proof.
  intros Hl. unfold csv_row.
  pose proof (ascii_split_on "," line "" Hl eq_refl) as Hcells.
  fold (JS.split "," line) in Hcells.
  assert (H : forall hs row i, ascii_row row ->
            ascii_row (fst (fold_left
                              (fun acc h => (assign h (nth_error (JS.split "," line) (snd acc))
                                               (fst acc), S (snd acc)))
                              hs (row, i)))).
  { induction hs as [|x hs IH]; intros row i Hrow; simpl; [exact Hrow|].
    apply IH. unfold assign. destruct (String.eqb x "__proto__"); [exact Hrow|].
    apply ascii_row_set; [|exact Hrow].
    destruct (nth_error _ i) as [cell|] eqn:E; [|exact I].
    apply (proj1 (Forall_forall _ _) Hcells cell). apply nth_error_In with i. exact E. }
  apply H. constructor.
Qed.

Lemma ascii_parseCSV (text : string) :
  ascii_text text = true -> Forall ascii_row (parseCSV text).
Proof.
  intros Ht. unfold parseCSV.
  pose proof (ascii_split_lines _ (JS.trim text) "" (le_n _) (ascii_text_trim _ Ht) eq_refl)
    as Hlines.
  destruct (split_lines (JS.trim text) "") as [|header lines]; [constructor|].
  inversion Hlines as [|? ? _ Hl]; subst.
  apply Forall_forall. intros r Hr. apply in_map_iff in Hr as (line & <- & Hin).
  apply filter_In in Hin as [Hin _].
  apply ascii_csv_row. apply (proj1 (Forall_forall _ _) Hl line Hin).
Qed.

Lemma ascii_quote_symbol (r : CsvRow) : ascii_row r -> ascii_text (quote_symbol r) = true.
Proof.
  intros Hr. unfold quote_symbol, field. rewrite ascii_text_toUpperCase.
  destruct (map_get "Symbol" r) as [[s|]|] eqn:E; try reflexivity.
  apply map_get_In in E.
  apply (proj1 (Forall_forall _ _) Hr ("Symbol", Some s) E).
Qed.

Lemma asNum_of_finite_or_nan (v : Value) :
  JS.isFinite (asNum_of v) = true \/ PrimFloat.is_nan (asNum_of v) = true.
Proof.
  destruct v; cbn [asNum_of]; [apply asNum_finite_or_nan|apply asNum_finite_or_nan|].
  right. reflexivity.
Qed.

(** ** The quote map *)

(** X16. For a response and a ticker whose code units are all below 128:
    in the map [fetchLatestQuotes] builds, the keys are such text in upper
    case and each close is a finite number or [NaN]; the entry [calculate]
    looks up for the ticker is read from the last line of the response whose
    symbol, put in upper case, is the normalized ticker: the case of the
    symbol in the response and of the ticker in the form, and white space
    around the ticker, make no difference. *)
Theorem quote_lookup (text : string) (qm : string -> option JS.number) :
  ascii_text text = true ->
  fetchLatestQuotes (Some text) = Some qm ->
  (forall key c, qm key = Some c ->
     ascii_text key = true /\
     JS.toUpperCase key = key /\
     (JS.isFinite c = true \/ PrimFloat.is_nan c = true)) /\
  (forall t c,
     ascii_text t = true ->
     (qm (JS.toUpperCase (normalizeTicker t)) = Some c <->
      exists r, last_with quote_symbol (parseCSV text) (normalizeTicker t) r /\
                c = asNum_of (field "Close" r))).
Proof.
  intros Ha [= <-].
  destruct (map_of_last quote_symbol quote_close (parseCSV text)) as [_ Hget].
  cbv zeta in Hget. fold (quoteMap_of (parseCSV text)) in Hget.
  split.
  - intros key c Hc. apply Hget in Hc as (r & (b & a & Hl & Hk & _) & ->).
    split; [|split].
    + rewrite <- Hk. apply ascii_quote_symbol.
      apply (proj1 (Forall_forall _ _) (ascii_parseCSV text Ha) r).
      rewrite Hl. apply in_or_app. right. left. reflexivity.
    + rewrite <- Hk. apply toUpperCase_idem.
    + apply asNum_of_finite_or_nan.
  - intros t c _. rewrite (proj1 (normalizeTicker_facts t)). apply Hget.
Qed.

Lemma quote_lookup_witness :
  (forall key c,
     map_get key (quoteMap_of (parseCSV quotes_response)) = Some c ->
     ascii_text key = true /\
     JS.toUpperCase key = key /\
     (JS.isFinite c = true \/ PrimFloat.is_nan c = true)) /\
  (forall t c,
     ascii_text t = true ->
     (map_get (JS.toUpperCase (normalizeTicker t)) (quoteMap_of (parseCSV quotes_response))
      = Some c <->
      exists r, last_with quote_symbol (parseCSV quotes_response) (normalizeTicker t) r /\
                c = asNum_of (field "Close" r))).
Proof.
  apply (quote_lookup quotes_response
           (fun key => map_get key (quoteMap_of (parseCSV quotes_response))));
    reflexivity.
Defined.

Example quotes_response_parsed :
  map quote_symbol (parseCSV quotes_response) = ["NVDA.US"; "MSFT.US"] /\
  map (fun r => field "Date" r) (parseCSV quotes_response)
  = [Text "2024-01-02"; Text "2024-01-02"] /\
  map (fun r => field "Adj" r) (parseCSV quotes_response) = [Undefined; Undefined] /\
  map (fun r => field "toString" r) (parseCSV quotes_response)
  = [Inherited "toString"; Inherited "toString"] /\
  map_get "MSFT.US" (quoteMap_of (parseCSV quotes_response)) = Some 370.5%float /\
  option_map PrimFloat.is_nan (map_get "NVDA.US" (quoteMap_of (parseCSV quotes_response)))
  = Some true /\
  map_get "nvda.us" (quoteMap_of (parseCSV quotes_response)) = None /\
  fetchEURUSD (Some quotes_response) = Some PrimFloat.nan /\
  fetchEURUSD (Some "Symbol,Date,Time,Open,High,Low,Close,Volume") = None.
Proof. vm_compute. repeat split; reflexivity. Qed.

(** ** Arithmetic on whole numbers is exact *)

Module WholeNumbers.

Import Binary64 Binary64Facts.

Local Open Scope Z_scope.

(** The spec-level float of an integer. *)
Local Abbreviation F n := (binary_normalize prec emax n 0 false).

Lemma Zdigits2_unique (q d : Z) : 0 < d -> 2 ^ (d - 1) <= q < 2 ^ d -> Zdigits2 q = d.
Proof.
  intros Hd [H1 H2].
  assert (Hq : 0 < q) by (pose proof (pow2_pos (d - 1) ltac:(lia)); lia).
  destruct (Zdigits2_bounds q Hq) as [B1 B2].
  pose proof (Zdigits2_nonneg q ltac:(lia)) as Hn.
  assert (Zdigits2 q - 1 < d) by (apply pow2_lt_inv; lia).
  assert (d - 1 < Zdigits2 q) by (apply pow2_lt_inv; lia).
  lia.
Qed.

Lemma Zdigits2_shift (n s : Z) : 0 < n -> 0 <= s -> Zdigits2 (n * 2 ^ s) = Zdigits2 n + s.
Proof.
  intros Hn Hs. destruct (Zdigits2_bounds n Hn) as [B1 B2].
  pose proof (Zdigits2_nonneg n ltac:(lia)) as Hd.
  assert (0 < Zdigits2 n).
  { destruct (Z.eq_dec (Zdigits2 n) 0) as [E|]; [|lia]. rewrite E in B2. simpl in B2. lia. }
  pose proof (pow2_pos s Hs) as Hp.
  apply Zdigits2_unique; [lia|].
  replace (Zdigits2 n + s - 1) with (Zdigits2 n - 1 + s) by lia.
  rewrite !Z.pow_add_r by lia. split.
  - apply Z.mul_le_mono_nonneg_r; lia.
  - apply Z.mul_lt_mono_pos_r; lia.
Qed.

Lemma whole_digits (n : Z) : 0 < n < 2 ^ 53 -> 1 <= Zdigits2 n <= 53.
Proof.
  intros Hn. destruct (Zdigits2_bounds n ltac:(lia)) as [B1 B2].
  pose proof (Zdigits2_nonneg n ltac:(lia)).
  split.
  - destruct (Z.eq_dec (Zdigits2 n) 0) as [E|]; [|lia]. rewrite E in B2. simpl in B2. lia.
  - assert (Zdigits2 n - 1 < 53); [|lia]. apply pow2_lt_inv; lia.
Qed.

(** Rounding [n * 2 ^ (- e)] at the exponent [e], for a whole [n] below
    [2 ^ 53] whose 53-bit form sits at an exponent no lower than [e], gives
    [n] itself. *)
Lemma round_aux_whole (n e : Z) :
  0 < n < 2 ^ 53 -> emin64 <= e -> e <= Zdigits2 n - 53 ->
  repr (binary_round_aux prec emax false (n * 2 ^ (- e)) e loc_Exact) (n * 2 ^ (- emin64)).
Proof.
  intros Hn He Hf.
  pose proof (whole_digits n Hn) as Hd.
  destruct (Zdigits2_bounds n ltac:(lia)) as [B1 B2].
  set (dn := Zdigits2 n) in *. set (f := dn - 53).
  assert (He0 : e <= 0) by lia.
  pose proof (pow2_pos (- e) ltac:(lia)) as Hpe.
  set (q := n * 2 ^ (- e)).
  assert (Hq : 0 < q) by (unfold q; nia).
  assert (Hdq : Zdigits2 q = dn - e).
  { unfold q. rewrite Zdigits2_shift by lia. fold dn. lia. }
  rewrite binary_round_aux_finalize. unfold shr_fexp.
  destruct (shr_located (shr_record_of_loc q loc_Exact) e
              (fexp prec emax (Zdigits2 q + e) - e) q 1 ltac:(lia) (located_exact q ltac:(lia)))
    as [Hloc Hsnd].
  rewrite Hdq, fexp64 in Hloc, Hsnd.
  replace (Z.max (dn - e + e - 53) emin64 - e) with (f - e) in Hloc, Hsnd by (unfold f; lia).
  rewrite Hdq, fexp64.
  replace (Z.max (dn - e + e - 53) emin64 - e) with (f - e) by (unfold f; lia).
  replace (Z.max (f - e) 0) with (f - e) in Hloc, Hsnd by lia.
  destruct (shr _ e (f - e)) as [mrs e1]. cbn [fst snd] in *.
  rewrite Z.mul_1_r in Hloc.
  pose proof (pow2_pos (f - e) ltac:(lia)) as Hps.
  destruct (round_nearest_even_located mrs q (2 ^ (f - e)) Hps Hloc) as [_ Hk].
  set (k := round_nearest_even (shr_m mrs) (loc_of_shr_record mrs)) in *.
  set (K := n * 2 ^ (- f)).
  assert (HqK : q = K * 2 ^ (f - e)).
  { unfold q, K. rewrite <- Z.mul_assoc, <- Z.pow_add_r by lia. f_equal. f_equal. lia. }
  assert (Ek : k = K).
  { rewrite HqK in Hk. rewrite <- Z.mul_sub_distr_r in Hk.
    rewrite Z.abs_mul in Hk. rewrite (Z.abs_eq (2 ^ (f - e))) in Hk by lia.
    assert (Z.abs (k - K) < 1); [|lia].
    apply (Z.mul_lt_mono_pos_r (2 ^ (f - e))); lia. }
  rewrite Ek, Hsnd. replace (e + (f - e)) with f by lia.
  pose proof (pow2_pos (- f) ltac:(unfold f; lia)) as Hpf.
  assert (HK1 : K < 2 ^ 53).
  { unfold K. replace 53 with (dn + (- f)) by (unfold f; lia).
    rewrite Z.pow_add_r by (unfold f; lia). apply Z.mul_lt_mono_pos_r; lia. }
  assert (HK2 : 2 ^ 52 <= K).
  { unfold K. replace 52 with (dn - 1 + (- f)) by (unfold f; lia).
    rewrite Z.pow_add_r by (unfold f; lia). apply Z.mul_le_mono_nonneg_r; lia. }
  replace (n * 2 ^ (- emin64)) with (K * 2 ^ (f - emin64)).
  - apply finalize_repr; unfold f in *; lia.
  - unfold K. rewrite <- Z.mul_assoc, <- Z.pow_add_r by (unfold f; lia).
    f_equal. f_equal. lia.
Qed.

Lemma iter_xO_pow2 (m d : positive) : Zpos (Pos.iter xO m d) = Zpos m * 2 ^ Zpos d.
Proof.
  induction d as [|d IH] using Pos.peano_ind.
  - simpl. lia.
  - rewrite Pos.iter_succ. rewrite Pos2Z.inj_succ, Z.pow_succ_r by lia.
    rewrite Pos2Z.inj_xO, IH. ring.
Qed.

Lemma shl_align_value (m : positive) (e e' : Z) :
  e' <= e -> Zpos (fst (shl_align m e e')) = Zpos m * 2 ^ (e - e') /\ snd (shl_align m e e') = e'.
Proof.
  intros H. unfold shl_align. destruct (e' - e) as [|d|d] eqn:E; cbn [fst snd].
  - replace (e - e') with 0 by lia. split; lia.
  - lia.
  - rewrite iter_xO_pow2. replace (e - e') with (Zpos d) by lia. split; reflexivity.
Qed.

(** [binary_round] on [n * 2 ^ (- e)] at the exponent [e] gives [n]. *)
Lemma binary_round_whole (n e : Z) (m : positive) :
  0 < n < 2 ^ 53 -> emin64 <= e <= 0 -> Zpos m = n * 2 ^ (- e) ->
  repr (binary_round prec emax false m e) (n * 2 ^ (- emin64)).
Proof.
  intros Hn He Hm.
  pose proof (whole_digits n Hn) as Hd.
  unfold binary_round.
  change (Zpos (digits2_pos m)) with (Zdigits2 (Zpos m)).
  rewrite Hm, Zdigits2_shift by lia. rewrite fexp64.
  replace (Z.max (Zdigits2 n + - e + e - 53) emin64) with (Zdigits2 n - 53)
    by lia.
  destruct (Z.le_gt_cases e (Zdigits2 n - 53)) as [Hle|Hgt].
  - (* no shift to the left *)
    unfold shl_align. destruct (Zdigits2 n - 53 - e) eqn:E; try lia;
      rewrite Hm; apply round_aux_whole; assumption || lia.
  - destruct (shl_align_value m e (Zdigits2 n - 53) ltac:(lia)) as [Hv He'].
    destruct (shl_align m e (Zdigits2 n - 53)) as [mz ez]. cbn [fst snd] in *. subst ez.
    rewrite Hv, Hm, <- Z.mul_assoc, <- Z.pow_add_r by lia.
    replace (- e + (e - (Zdigits2 n - 53))) with (- (Zdigits2 n - 53)) by lia.
    apply round_aux_whole; lia.
Qed.

Lemma binary_round_opp (m : positive) (e : Z) :
  binary_round prec emax true m e = SFopp (binary_round prec emax false m e).
Proof.
  unfold binary_round. destruct (shl_align m e _) as [mz ez]. apply binary_round_aux_opp.
Qed.

(** Two non-negative floats that stand for the same number of units (below
    the overflow) are the same. *)
Lemma repr_unique (r1 r2 : spec_float) (I : Z) :
  repr r1 I -> repr r2 I -> I < 2 ^ (emax - emin64) -> r1 = r2.
Proof.
  intros H1 H2 Hb.
  destruct r1 as [[]|[]| |[] m1 e1]; cbn [repr] in H1; try contradiction; try lia;
    destruct r2 as [[]|[]| |[] m2 e2]; cbn [repr] in H2; try contradiction; try lia;
    try reflexivity.
  destruct H1 as (C1 & E1 & _ & HI1). destruct H2 as (C2 & E2 & _ & HI2).
  pose proof (proj2 (canonical_leb_units m1 m2 e1 e2 C1 C2) ltac:(lia)) as L12.
  pose proof (proj2 (canonical_leb_units m2 m1 e2 e1 C2 C1) ltac:(lia)) as L21.
  unfold SFleb, SFcompare in L12, L21.
  rewrite (Z.compare_antisym e1 e2) in L21.
  destruct (Z.compare_spec e1 e2) as [Ee|Ee|Ee]; cbn [CompOpp] in *; try discriminate.
  subst e2. f_equal.
  change (Pos.compare_cont Eq m1 m2) with (Pos.compare m1 m2) in L12.
  change (Pos.compare_cont Eq m2 m1) with (Pos.compare m2 m1) in L21.
  rewrite (Pos.compare_antisym m1 m2) in L21.
  destruct (Pos.compare_spec m1 m2); cbn [CompOpp] in *; congruence.
Qed.

Lemma whole_units_bound (n : Z) : 0 < n < 2 ^ 53 -> n * 2 ^ (- emin64) < 2 ^ (emax - emin64).
Proof.
  intros Hn. unfold emax.
  change (2 ^ (1024 - -1074)) with (2 ^ 53 * 2 ^ 971 * 2 ^ (- -1074)).
  pose proof (pow2_pos (- -1074) ltac:(lia)). pose proof (pow2_pos 971 ltac:(lia)).
  apply Z.mul_lt_mono_pos_r; [lia|]. nia.
Qed.

Lemma F_repr (n : Z) : 0 < n < 2 ^ 53 -> repr (F n) (n * 2 ^ (- emin64)).
Proof.
  intros Hn. destruct n as [|p|p]; try lia. cbn [binary_normalize].
  apply binary_round_whole; [assumption|lia|]. simpl. lia.
Qed.

Lemma F_opp (n : Z) : F (- n) = SFopp (F n) \/ n = 0.
Proof.
  destruct n as [|p|p]; [right; reflexivity|left|left]; cbn [Z.opp binary_normalize].
  - apply binary_round_opp.
  - rewrite binary_round_opp. destruct (binary_round prec emax false p 0) as [[]|[]| |[] ? ?];
      reflexivity.
Qed.

(** The shape of the float of a positive whole number. *)
Lemma F_shape (n : Z) :
  0 < n < 2 ^ 53 ->
  exists m e,
    F n = S754_finite false m e /\ -52 <= e <= 0 /\ Zpos m = n * 2 ^ (- e) /\
    2 ^ 52 <= Zpos m /\ canonical_mantissa prec emax m e = true.
Proof.
  intros Hn. pose proof (F_repr n Hn) as R. pose proof (whole_units_bound n Hn) as B.
  pose proof (pow2_pos (- emin64) ltac:(lia)) as Hp.
  destruct (F n) as [[]|[]| |[] m e]; cbn [repr] in R; try contradiction; try nia.
  destruct R as (C & E1 & E2 & HI).
  destruct (canonical_units m e C) as (M1 & M2 & _).
  assert (He : e <= 0).
  { destruct (Z.le_gt_cases e 0) as [|Hgt]; [assumption|exfalso].
    specialize (M2 ltac:(lia)).
    assert (2 ^ (- emin64) * 2 ^ 1 <= 2 ^ (e - emin64)).
    { rewrite <- Z.pow_add_r by lia. apply pow2_le_mono. lia. }
    change (2 ^ 53) with (2 ^ 52 * 2 ^ 1) in Hn.
    assert (n * 2 ^ (- emin64) < 2 ^ 52 * (2 ^ (- emin64) * 2 ^ 1)) by nia.
    assert (2 ^ 52 * (2 ^ (- emin64) * 2 ^ 1) <= Zpos m * 2 ^ (e - emin64)).
    { apply Z.mul_le_mono_nonneg; lia. }
    lia. }
  assert (Hme : Zpos m = n * 2 ^ (- e)).
  { replace (- emin64) with (- e + (e - emin64)) in HI by lia.
    rewrite Z.pow_add_r, Z.mul_assoc in HI by lia.
    pose proof (pow2_pos (e - emin64) ltac:(lia)).
    apply (Z.mul_cancel_r _ _ (2 ^ (e - emin64))); lia. }
  assert (He52 : -52 <= e).
  { pose proof (pow2_pos (- e) ltac:(lia)).
    assert (2 ^ (- e) < 2 ^ 53) by nia.
    apply pow2_lt_inv in H0; lia. }
  exists m, e. split; [reflexivity|]. split; [lia|].
  split; [exact Hme|]. split; [|exact C].
  apply M2. destruct (Z.eq_dec e emin64) as [->|]; [|lia]. exfalso.
  (* at the least exponent the mantissa would exceed 53 bits *)
  rewrite Hme in M1.
  assert (2 ^ 53 <= 2 ^ (- -1074)) by (apply pow2_le_mono; lia). nia.
Qed.

(** [binary_normalize] on [n * 2 ^ (- e)] at the exponent [e] is the float
    of [n]. *)
Lemma normalize_whole (N e n : Z) :
  emin64 <= e <= 0 -> N = n * 2 ^ (- e) -> - 2 ^ 53 < n < 2 ^ 53 ->
  binary_normalize prec emax N e false = F n.
Proof.
  intros He HN Hn. pose proof (pow2_pos (- e) ltac:(lia)) as Hp.
  assert (Hpos : forall p k, 0 < k < 2 ^ 53 -> Zpos p = k * 2 ^ (- e) ->
                   binary_round prec emax false p e = F k).
  { intros p k Hk Hpk.
    apply (repr_unique _ _ (k * 2 ^ (- emin64))).
    - apply binary_round_whole; assumption.
    - apply F_repr, Hk.
    - apply whole_units_bound, Hk. }
  destruct N as [|p|p]; cbn [binary_normalize].
  - assert (n = 0) by nia. subst n. reflexivity.
  - apply Hpos; [nia|exact HN].
  - assert (Hn' : 0 < - n < 2 ^ 53) by nia.
    rewrite binary_round_opp, (Hpos p (- n) Hn') by lia.
    destruct (F_opp (- n)) as [E|E]; [|lia]. rewrite Z.opp_involutive in E. symmetry. exact E.
Qed.

Lemma F_cases (n : Z) :
  - 2 ^ 53 < n < 2 ^ 53 ->
  (n = 0 /\ F n = S754_zero false) \/
  exists s m e,
    F n = S754_finite s m e /\ -52 <= e <= 0 /\
    cond_Zopp s (Zpos m) = n * 2 ^ (- e) /\ 2 ^ 52 <= Zpos m /\
    canonical_mantissa prec emax m e = true.
Proof.
  intros Hn. destruct (Z.lt_trichotomy n 0) as [Hneg|[->|Hpos]].
  - right. destruct (F_shape (- n) ltac:(lia)) as (m & e & E & He & Hm & H52 & C).
    destruct (F_opp (- n)) as [E'|E']; [|lia]. rewrite Z.opp_involutive, E in E'.
    exists true, m, e. split; [exact E'|]. split; [exact He|]. split; [|split; assumption].
    cbn [cond_Zopp]. rewrite Hm. ring.
  - left. split; reflexivity.
  - right. destruct (F_shape n ltac:(lia)) as (m & e & E & He & Hm & H52 & C).
    exists false, m, e. repeat split; try assumption; lia.
Qed.

Lemma aligned_value (s : bool) (m : positive) (e ez n : Z) :
  ez <= e <= 0 -> cond_Zopp s (Zpos m) = n * 2 ^ (- e) ->
  cond_Zopp s (Zpos (fst (shl_align m e ez))) = n * 2 ^ (- ez).
Proof.
  intros He Hm. destruct (shl_align_value m e ez ltac:(lia)) as [-> _].
  replace (- ez) with (- e + (e - ez)) by lia. rewrite Z.pow_add_r, Z.mul_assoc, <- Hm by lia.
  destruct s; cbn [cond_Zopp]; ring.
Qed.

Lemma SFadd_whole (a b : Z) :
  - 2 ^ 53 < a < 2 ^ 53 -> - 2 ^ 53 < b < 2 ^ 53 -> - 2 ^ 53 < a + b < 2 ^ 53 ->
  SFadd prec emax (F a) (F b) = F (a + b).
Proof.
  intros Ha Hb Hab.
  destruct (F_cases a Ha) as [[-> Ea]|(sa & ma & ea & Ea & Hea & Hma & _)];
    destruct (F_cases b Hb) as [[-> Eb]|(sb & mb & eb & Eb & Heb & Hmb & _)].
  - reflexivity.
  - rewrite Ea, Eb. cbn [SFadd Z.add]. symmetry. exact Eb.
  - rewrite Ea, Eb, Z.add_0_r. cbn [SFadd]. symmetry. exact Ea.
  - rewrite Ea, Eb. cbn [SFadd]. cbv zeta.
    apply normalize_whole; [lia| |lia].
    rewrite (aligned_value sa ma ea (Z.min ea eb) a ltac:(lia) Hma).
    rewrite (aligned_value sb mb eb (Z.min ea eb) b ltac:(lia) Hmb). ring.
Qed.

Lemma SFsub_whole (a b : Z) :
  - 2 ^ 53 < a < 2 ^ 53 -> - 2 ^ 53 < b < 2 ^ 53 -> - 2 ^ 53 < a - b < 2 ^ 53 ->
  SFsub prec emax (F a) (F b) = F (a - b).
Proof.
  intros Ha Hb Hab.
  destruct (F_cases a Ha) as [[-> Ea]|(sa & ma & ea & Ea & Hea & Hma & _)];
    destruct (F_cases b Hb) as [[-> Eb]|(sb & mb & eb & Eb & Heb & Hmb & _)].
  - reflexivity.
  - rewrite Ea. cbn [Z.sub Z.add]. destruct (F_opp b) as [E|E]; [|subst b; discriminate Eb].
    rewrite E, Eb. reflexivity.
  - rewrite Ea, Eb, Z.sub_0_r. cbn [SFsub]. symmetry. exact Ea.
  - rewrite Ea, Eb. cbn [SFsub]. cbv zeta.
    apply normalize_whole; [lia| |lia].
    rewrite (aligned_value sa ma ea (Z.min ea eb) a ltac:(lia) Hma).
    rewrite (aligned_value sb mb eb (Z.min ea eb) b ltac:(lia) Hmb). ring.
Qed.

Lemma SFmul_whole (a b : Z) :
  - 2 ^ 53 < a < 2 ^ 53 -> 0 < b < 2 ^ 53 -> - 2 ^ 53 < a * b < 2 ^ 53 ->
  SFmul prec emax (F a) (F b) = F (a * b).
Proof.
  intros Ha Hb Hab.
  destruct (F_shape b Hb) as (mb & eb & Eb & Heb & Hmb & Hb52 & _).
  destruct (F_cases a Ha) as [[-> Ea]|(sa & ma & ea & Ea & Hea & Hma & Ha52 & _)].
  - rewrite Eb. reflexivity.
  - rewrite Ea, Eb. cbn [SFmul xorb]. rewrite xorb_false_r.
    pose proof (pow2_pos (- ea) ltac:(lia)) as Hpa.
    pose proof (pow2_pos (- eb) ltac:(lia)) as Hpb.
    assert (Hprod : forall k, 0 < k < 2 ^ 53 -> Zpos ma = k * 2 ^ (- ea) -> 0 < k * b < 2 ^ 53 ->
              binary_round_aux prec emax false (Zpos (ma * mb)) (ea + eb) loc_Exact = F (k * b)).
    { intros k Hk Hmk Hkb.
      assert (Hval : Zpos (ma * mb) = k * b * 2 ^ (- (ea + eb))).
      { rewrite Pos2Z.inj_mul, Hmk, Hmb.
        replace (- (ea + eb)) with (- ea + - eb) by lia. rewrite Z.pow_add_r by lia. ring. }
      rewrite Hval.
      apply (repr_unique _ _ (k * b * 2 ^ (- emin64))).
      - apply round_aux_whole; [lia|lia|].
        (* the product of two 53-bit mantissas has at least 105 bits *)
        pose proof (whole_digits (k * b) Hkb) as Hd.
        pose proof (Zdigits2_lt (k * b) ltac:(lia)) as Hlt.
        assert (H104 : 2 ^ 104 <= Zpos (ma * mb)).
        { rewrite Pos2Z.inj_mul. change (2 ^ 104) with (2 ^ 52 * 2 ^ 52).
          apply Z.mul_le_mono_nonneg; lia. }
        rewrite Hval in H104.
        pose proof (pow2_pos (- (ea + eb)) ltac:(lia)) as Hpe.
        assert (2 ^ 104 < 2 ^ (Zdigits2 (k * b)) * 2 ^ (- (ea + eb))).
        { eapply Z.le_lt_trans; [exact H104|]. apply Z.mul_lt_mono_pos_r; lia. }
        rewrite <- Z.pow_add_r in H by lia.
        apply pow2_lt_inv in H; lia.
      - apply F_repr, Hkb.
      - apply whole_units_bound, Hkb. }
    destruct sa; cbn [cond_Zopp] in Hma.
    + rewrite binary_round_aux_opp, (Hprod (- a)) by nia.
      destruct (F_opp (- a * b)) as [E|E]; [|nia].
      rewrite <- E. f_equal. ring.
    + apply Hprod; nia.
Qed.

Lemma F_valid (n : Z) : - 2 ^ 53 < n < 2 ^ 53 -> valid_binary (F n) = true.
Proof.
  intros Hn.
  destruct (F_cases n Hn) as [[-> E]|(s & m & e & E & He & _ & _ & C)]; rewrite E; [reflexivity|].
  cbn [valid_binary]. unfold bounded. rewrite C. apply Z.leb_le. unfold emax, prec. lia.
Qed.

Local Open Scope float_scope.

Lemma of_Z_spec (n : Z) : (- 2 ^ 53 < n < 2 ^ 53)%Z -> Prim2SF (JS.of_Z n) = F n.
Proof. intros Hn. unfold JS.of_Z. apply Prim2SF_SF2Prim, F_valid, Hn. Qed.

Lemma whole_spec (n : Z) : (- 2 ^ 53 < n < 2 ^ 53)%Z -> Prim2SF (whole n) = F n.
Proof.
  intros Hn. unfold whole. destruct (Z.ltb_spec n 0).
  - rewrite opp_spec, of_Z_spec by lia.
    destruct (F_opp (- n)%Z) as [E|E]; [|lia]. rewrite Z.opp_involutive in E. symmetry. exact E.
  - apply of_Z_spec, Hn.
Qed.

Lemma whole_add (a b : Z) :
  (- 2 ^ 53 < a < 2 ^ 53)%Z -> (- 2 ^ 53 < b < 2 ^ 53)%Z -> (- 2 ^ 53 < a + b < 2 ^ 53)%Z ->
  whole a + whole b = whole (a + b).
Proof.
  intros. apply Prim2SF_inj. rewrite add_spec, !whole_spec by assumption.
  apply SFadd_whole; assumption.
Qed.

Lemma whole_sub (a b : Z) :
  (- 2 ^ 53 < a < 2 ^ 53)%Z -> (- 2 ^ 53 < b < 2 ^ 53)%Z -> (- 2 ^ 53 < a - b < 2 ^ 53)%Z ->
  whole a - whole b = whole (a - b).
Proof.
  intros. apply Prim2SF_inj. rewrite sub_spec, !whole_spec by assumption.
  apply SFsub_whole; assumption.
Qed.

Lemma whole_mul (a b : Z) :
  (- 2 ^ 53 < a < 2 ^ 53)%Z -> (0 < b < 2 ^ 53)%Z -> (- 2 ^ 53 < a * b < 2 ^ 53)%Z ->
  whole a * whole b = whole (a * b).
Proof.
  intros. apply Prim2SF_inj. rewrite mul_spec, !whole_spec by (assumption || lia).
  apply SFmul_whole; assumption.
Qed.

End WholeNumbers.

(** ** Numerals *)

Lemma digit_char (c : ascii) (d : Z) :
  JS.digit_of 10 c = Some d ->
  (0 <= d <= 9)%Z /\
  JS.is_ws c = false /\
  Ascii.eqb c "-" = false /\
  (forall s, JS.read_sign (String c s) = (false, String c s)) /\
  (forall s, prefix "Infinity" (String c s) = false) /\
  Ascii.eqb c "x" || Ascii.eqb c "X" = false /\
  Ascii.eqb c "o" || Ascii.eqb c "O" = false /\
  Ascii.eqb c "b" || Ascii.eqb c "B" = false.
Proof.
  destruct c as [[] [] [] [] [] [] [] []]; intros H; vm_compute in H; try discriminate H;
    injection H as <-; repeat split; try reflexivity; try lia; discriminate.
Qed.

Lemma numeral_value_nonneg (s : string) :
  forall acc v, (0 <= acc)%Z -> numeral_value s acc = Some v -> (0 <= v)%Z.
Proof.
  induction s as [|c s IH]; simpl; intros acc v Hacc H.
  - injection H as <-. exact Hacc.
  - destruct (JS.digit_of 10 c) as [d|] eqn:Ed; [|discriminate].
    apply digit_char in Ed as [Hd _]. apply (IH (10 * acc + d)%Z); [lia|exact H].
Qed.

Lemma read_digits_numeral (s : string) :
  forall acc cnt v,
    numeral_value s acc = Some v ->
    JS.read_digits 10 s acc cnt = (v, (cnt + Z.of_nat (String.length s))%Z, "").
Proof.
  induction s as [|c s IH]; simpl String.length; intros acc cnt v H.
  - simpl in *. injection H as <-. f_equal. f_equal. lia.
  - cbn [numeral_value] in H. cbn [JS.read_digits].
    destruct (JS.digit_of 10 c) as [d|]; [|discriminate].
    rewrite (IH _ _ _ H). f_equal. f_equal. lia.
Qed.

Lemma numeral_rev_no_lead (s : string) :
  forall acc a v, numeral_value s a = Some v -> no_lead acc -> no_lead (JS.rev_string s acc).
Proof.
  induction s as [|c s IH]; simpl; intros acc a v H Hacc; [exact Hacc|].
  destruct (JS.digit_of 10 c) as [d|] eqn:Ed; [|discriminate].
  apply (IH _ _ _ H). simpl. apply (digit_char c d Ed).
Qed.

Lemma numeral_trim (s : string) (v : Z) : numeral s v -> JS.trim s = s.
Proof.
  intros [Hne H]. apply trimmed_trim. split.
  - destruct s as [|c s]; [exact I|]. simpl in *.
    destruct (JS.digit_of 10 c) as [d|] eqn:Ed; [|discriminate]. apply (digit_char c d Ed).
  - apply (numeral_rev_no_lead s "" 0%Z v H). exact I.
Qed.

Lemma whole_zero : whole 0 = 0%float.
Proof. reflexivity. Qed.

Lemma read_decimal_numeral (s : string) (v : Z) :
  numeral s v -> JS.read_decimal s = Some (whole v, "").
Proof.
  intros [Hne H]. pose proof (numeral_value_nonneg s 0 v ltac:(lia) H) as Hv.
  destruct s as [|c s]; [congruence|].
  pose proof H as H0. cbn [numeral_value] in H0.
  destruct (JS.digit_of 10 c) as [d|] eqn:Ed; [|discriminate].
  destruct (digit_char c d Ed) as (_ & _ & _ & Hsign & Hinf & _).
  unfold JS.read_decimal. rewrite Hsign, Hinf.
  rewrite (read_digits_numeral _ 0%Z 0%Z v H).
  assert (Hlen : ((0 + Z.of_nat (String.length (String c s)) + 0 =? 0) = false)%Z).
  { apply Z.eqb_neq. simpl String.length. lia. }
  cbv iota beta. rewrite Hlen. cbn [JS.read_exponent JS.signed].
  f_equal. f_equal. unfold JS.of_decimal, whole.
  destruct (Z.eqb_spec v 0) as [->|Hv0]; [reflexivity|].
  replace (v <? 0)%Z with false by (symmetry; apply Z.ltb_ge; lia).
  change (0 <=? 0 - 0)%Z with true. cbv iota.
  f_equal. change (10 ^ (0 - 0))%Z with 1%Z. lia.
Qed.

(** [Number] on a run of decimal digits is its value. *)
Lemma Number_numeral (s : string) (v : Z) : numeral s v -> JS.Number s = whole v.
Proof.
  intros Hn. unfold JS.Number. rewrite (numeral_trim s v Hn).
  pose proof (read_decimal_numeral s v Hn) as Hr.
  destruct Hn as [Hne H].
  destruct s as [|c s]; [congruence|].
  assert (Hgen : match JS.read_decimal (String c s) with
                 | Some (x, EmptyString) => x
                 | _ => PrimFloat.nan
                 end = whole v) by (rewrite Hr; reflexivity).
  cbn [numeral_value] in H.
  destruct (JS.digit_of 10 c) as [d|] eqn:Ed; [|discriminate].
  destruct s as [|c2 r].
  - destruct c as [[] [] [] [] [] [] [] []]; try exact Hgen; vm_compute in Ed; discriminate Ed.
  - cbn [numeral_value] in H.
    destruct (JS.digit_of 10 c2) as [d2|] eqn:Ed2; [|discriminate].
    destruct (digit_char c2 d2 Ed2) as (_ & _ & _ & _ & _ & Hx & Ho & Hb).
    destruct c as [[] [] [] [] [] [] [] []]; try exact Hgen; try (vm_compute in Ed; discriminate Ed).
    rewrite Hx, Ho, Hb. exact Hgen.
Qed.

Lemma split_on_numeral (s : string) :
  forall cur a v, numeral_value s a = Some v ->
    JS.split_on "-" s cur = [JS.rev_string cur s].
Proof.
  induction s as [|c s IH]; simpl; intros cur a v H; [reflexivity|].
  destruct (JS.digit_of 10 c) as [d|] eqn:Ed; [|discriminate].
  destruct (digit_char c d Ed) as (_ & _ & -> & _). exact (IH (String c cur) _ _ H).
Qed.

Lemma split_on_numeral_dash (s t : string) :
  forall cur a v, numeral_value s a = Some v ->
    JS.split_on "-" (s ++ String "-" t)%string cur = JS.rev_string cur s :: JS.split_on "-" t "".
Proof.
  induction s as [|c s IH]; simpl; intros cur a v H; [reflexivity|].
  destruct (JS.digit_of 10 c) as [d|] eqn:Ed; [|discriminate].
  destruct (digit_char c d Ed) as (_ & _ & -> & _). exact (IH (String c cur) _ _ H).
Qed.

Lemma split_month (y m : string) (vy vm : Z) :
  numeral y vy -> numeral m vm ->
  split_number (y ++ String "-" m)%string 0 = whole vy /\
  split_number (y ++ String "-" m)%string 1 = whole vm.
Proof.
  intros Hy Hm. unfold split_number, JS.split.
  rewrite (split_on_numeral_dash y m "" 0%Z vy (proj2 Hy)).
  rewrite (split_on_numeral m "" 0%Z vm (proj2 Hm)). simpl.
  split; apply Number_numeral; assumption.
Qed.

(** ** Months between two months *)

(** X17. For two months written as a year and a month in decimal digits
    joined by a dash (as the months of the series and of the events are),
    [monthsBetween] is exactly the number of calendar months from the first
    to the second, twelve per year, negative when the second comes first:
    the floating-point arithmetic rounds nothing. *)
Theorem monthsBetween_calendar (ya ma yb mb : string) (y1 m1 y2 m2 : Z) :
  numeral ya y1 -> numeral ma m1 -> numeral yb y2 -> numeral mb m2 ->
  (y1 < 2 ^ 48)%Z -> (m1 < 2 ^ 48)%Z -> (y2 < 2 ^ 48)%Z -> (m2 < 2 ^ 48)%Z ->
  monthsBetween (ya ++ String "-" ma)%string (yb ++ String "-" mb)%string
  = whole ((y2 - y1) * 12 + (m2 - m1)).
Proof.
  intros Hya Hma Hyb Hmb By1 Bm1 By2 Bm2.
  pose proof (numeral_value_nonneg ya 0%Z y1 ltac:(lia) (proj2 Hya)).
  pose proof (numeral_value_nonneg ma 0%Z m1 ltac:(lia) (proj2 Hma)).
  pose proof (numeral_value_nonneg yb 0%Z y2 ltac:(lia) (proj2 Hyb)).
  pose proof (numeral_value_nonneg mb 0%Z m2 ltac:(lia) (proj2 Hmb)).
  unfold monthsBetween.
  destruct (split_month ya ma y1 m1 Hya Hma) as [-> ->].
  destruct (split_month yb mb y2 m2 Hyb Hmb) as [-> ->].
  change 12%float with (whole 12).
  rewrite !WholeNumbers.whole_sub, WholeNumbers.whole_mul, WholeNumbers.whole_add by lia.
  reflexivity.
Qed.

Lemma monthsBetween_calendar_witness :
  monthsBetween "2000-03" "2002-10" = whole 31.
Proof.
  apply (monthsBetween_calendar "2000" "03" "2002" "10" 2000 3 2002 10);
    try (split; [discriminate|reflexivity]); reflexivity.
Defined.

(** ** The ids of the rows *)

Lemma whole_ltb (a b : Z) :
  (0 <= a < b)%Z -> (b < 2 ^ 53)%Z -> PrimFloat.ltb (whole a) (whole b) = true.
Proof.
  intros Hab Hb. rewrite ltb_spec, !WholeNumbers.whole_spec by lia.
  destruct (WholeNumbers.F_shape b ltac:(lia)) as (mb & eb & Eb & Heb & Hmb & _ & Cb).
  rewrite Eb. destruct (Z.eq_dec a 0) as [->|Ha]; [reflexivity|].
  destruct (WholeNumbers.F_shape a ltac:(lia)) as (ma & ea & Ea & Hea & Hma & _ & Ca).
  rewrite Ea.
  assert (Hle : SFleb (S754_finite false mb eb) (S754_finite false ma ea) = false).
  { destruct (SFleb _ _) eqn:E; [|reflexivity]. exfalso.
    apply Binary64Facts.canonical_leb_units in E; [|assumption|assumption].
    rewrite Hma, Hmb in E.
    rewrite <- !Z.mul_assoc, <- !Z.pow_add_r in E by lia.
    replace (- eb + (eb - -1074))%Z with 1074%Z in E by lia.
    replace (- ea + (ea - -1074))%Z with 1074%Z in E by lia.
    pose proof (Binary64Facts.pow2_pos 1074 ltac:(lia)). nia. }
  destruct (SFltb _ _) eqn:E; [reflexivity|].
  assert (Ra : SFleb (S754_finite false ma ea) (S754_finite false ma ea) = true).
  { rewrite <- Ea. eapply Binary64Facts.repr_leb_refl, WholeNumbers.F_repr. lia. }
  assert (Rb : SFleb (S754_finite false mb eb) (S754_finite false mb eb) = true).
  { rewrite <- Eb. eapply Binary64Facts.repr_leb_refl, WholeNumbers.F_repr. lia. }
  rewrite (FloatOrder.SFnot_ltb_leb _ _ Ra Rb E) in Hle. discriminate.
Qed.

Lemma whole_eqb_refl (n : Z) :
  (- 2 ^ 53 < n < 2 ^ 53)%Z -> PrimFloat.eqb (whole n) (whole n) = true.
Proof.
  intros Hn. rewrite eqb_spec, WholeNumbers.whole_spec by lia.
  destruct (WholeNumbers.F_cases n Hn) as [[_ ->]|(s & m & e & -> & _)]; [reflexivity|].
  unfold SFeqb, SFcompare. rewrite Z.compare_refl.
  change (Pos.compare_cont Eq m m) with (Pos.compare m m). rewrite Pos.compare_refl.
  destruct s; reflexivity.
Qed.

Lemma ltb_not_eqb (x y : float) : PrimFloat.ltb x y = true -> PrimFloat.eqb x y = false.
Proof.
  rewrite ltb_spec, eqb_spec. unfold SFltb, SFeqb.
  destruct (SFcompare _ _) as [[]|]; congruence.
Qed.

Lemma nextId_whole (rs : list Row) (ids : list Z) :
  map id rs = map whole ids ->
  Forall (fun i => 0 <= i < 2 ^ 53 - 1)%Z ids ->
  nextId rs = whole (last ids 0 + 1)%Z.
Proof.
  intros Hmap Hb. unfold nextId.
  destruct ids as [|i ids] using rev_ind.
  - destruct rs; [reflexivity|discriminate].
  - clear IHids. rewrite last_last.
    destruct rs as [|r rs] using rev_ind; [destruct ids; discriminate|]. clear IHrs.
    rewrite !map_app in Hmap. simpl in Hmap. apply app_inj_tail in Hmap as [_ Hid].
    rewrite rev_app_distr. simpl. rewrite Hid.
    apply Forall_app in Hb as [_ Hi]. inversion Hi as [|? ? Hi' _]; subst.
    change 1%float with (whole 1). apply WholeNumbers.whole_add; lia.
Qed.

Lemma sorted_snoc (l : list Z) (x : Z) :
  StronglySorted Z.lt l -> (forall i, In i l -> (i < x)%Z) -> StronglySorted Z.lt (l ++ [x]).
Proof.
  induction 1 as [|a l Hs IH Ha]; intros Hx; simpl; [repeat constructor|].
  constructor.
  - apply IH. intros i Hi. apply Hx. right. exact Hi.
  - apply Forall_app. split; [exact Ha|]. constructor; [|constructor].
    apply Hx. left. reflexivity.
Qed.

(** X18. When the ids of the rows are whole numbers from 0, below
    [2 ^ 53 - 1] and in strictly ascending order (as they are from the
    start, 1, 2, 3), the id [addRow] gives the new row is the last id plus
    one, above every id of the form, so the ids stay whole and strictly
    ascending; and removing the new row by its id gives the state back as it
    was before [addRow]. *)
Theorem addRow_gives_fresh_id (st : State) (ids : list Z) :
  map id (rows st) = map whole ids ->
  StronglySorted Z.lt ids ->
  Forall (fun i => 0 <= i < 2 ^ 53 - 1)%Z ids ->
  map id (rows (addRow st)) = map whole (ids ++ [(last ids 0 + 1)%Z]) /\
  StronglySorted Z.lt (ids ++ [(last ids 0 + 1)%Z]) /\
  (forall r, In r (rows st) -> PrimFloat.ltb (id r) (id (newRow (rows st))) = true) /\
  removeRow (id (newRow (rows st))) (addRow st) = st.
Proof.
  intros Hmap Hs Hb.
  pose proof (nextId_whole (rows st) ids Hmap Hb) as Hnext.
  assert (Hmax : forall i, In i ids -> (0 <= i < last ids 0 + 1)%Z).
  { intros i Hi. pose proof (proj1 (Forall_forall _ _) Hb i Hi) as Hi0. cbv beta in Hi0.
    destruct (StronglySorted_last _ _ Hs 0%Z i Hi) as [<-|Hlt]; lia. }
  assert (Hlast : (0 <= last ids 0 < 2 ^ 53 - 1)%Z).
  { destruct ids as [|i0 ids0]; [simpl; lia|].
    apply (proj1 (Forall_forall _ _) Hb (last (i0 :: ids0) 0%Z)). apply last_In. }
  assert (Hlt : forall r, In r (rows st) ->
                  PrimFloat.ltb (id r) (id (newRow (rows st))) = true).
  { intros r Hr. cbn [newRow id]. rewrite Hnext.
    assert (Hin : In (id r) (map whole ids)) by (rewrite <- Hmap; apply in_map, Hr).
    apply in_map_iff in Hin as (i & <- & Hi).
    apply whole_ltb; [apply Hmax, Hi|lia]. }
  split; [|split; [|split; [exact Hlt|]]].
  - simpl. rewrite !map_app, Hmap. simpl. rewrite Hnext. reflexivity.
  - apply sorted_snoc; [exact Hs|]. intros i Hi. apply Hmax, Hi.
  - apply removeRow_addRow.
    + cbn [newRow id]. rewrite Hnext. apply whole_eqb_refl. lia.
    + intros r Hr. apply ltb_not_eqb, Hlt, Hr.
Qed.

Lemma addRow_gives_fresh_id_witness :
  removeRow (id (newRow initial_rows)) (addRow (initial_state initial_rows None))
  = initial_state initial_rows None.
Proof.
  apply (addRow_gives_fresh_id (initial_state initial_rows None) [1; 2; 3]%Z).
  - reflexivity.
  - repeat constructor.
  - repeat constructor; lia.
Defined.

(** ** Totals of whole amounts *)

(** X19. When the amounts of the results are whole numbers from 0 whose
    sum is below [2 ^ 53], the two totals of the original amounts are exact:
    the total in euros is the sum of the amounts of the positions in euros,
    the total in dollars the sum of the others, with no rounding; and with
    no result at all every total is zero, the percentage included (it is not
    the [NaN] of 0/0). *)
Theorem totals_of_whole_amounts (st : State) (amounts : list Z) :
  map amountOriginal (results (calc st)) = map whole amounts ->
  Forall (fun a => 0 <= a)%Z amounts ->
  (fold_left Z.add amounts 0 < 2 ^ 53)%Z ->
  let entered := combine (map res_currency (results (calc st))) amounts in
  investedOriginalEUR (totals st) = whole (amount_in EUR entered) /\
  investedOriginalUSD (totals st) = whole (amount_in USD entered) /\
  (amount_in EUR entered + amount_in USD entered = fold_left Z.add amounts 0)%Z /\
  (results (calc st) = [] ->
   investedUSD (totals st) = 0%float /\ curUSD (totals st) = 0%float /\
   plUSD (totals st) = 0%float /\ plPct (totals st) = 0%float).
Proof.
  intros Hmap Hpos Hb entered. unfold totals. cbn [investedOriginalEUR investedOriginalUSD
    investedUSD curUSD plUSD plPct]. unfold entered. clear entered.
  set (rs := results (calc st)) in *. clearbody rs.
  (* the sums over the results, generalized over what has been added so far *)
  assert (Hgen : forall c (rs : list PositionResult) (amounts : list Z) (acc accA : Z),
             map amountOriginal rs = map whole amounts ->
             Forall (fun a => 0 <= a)%Z amounts ->
             (0 <= acc <= accA)%Z ->
             (fold_left Z.add amounts accA < 2 ^ 53)%Z ->
             fold_left (fun s r => (s + original_in c r)%float) rs (whole acc)
             = whole (fold_left (fun s p => if Currency_eqb (fst p) c then (s + snd p)%Z else s)
                        (combine (map res_currency rs) amounts) acc) /\
             (fold_left (fun s p => if Currency_eqb (fst p) c then (s + snd p)%Z else s)
                (combine (map res_currency rs) amounts) acc
              <= fold_left Z.add amounts accA)%Z).
  { intros c. induction rs0 as [|r rs0 IH]; intros [|a amounts0] acc accA Hm Hp Hacc Hlt;
      try discriminate Hm.
    - simpl. split; [reflexivity|lia].
    - simpl in Hm. injection Hm as Ha Hm. inversion Hp as [|? ? Ha0 Hp']; subst.
      cbn [map combine fold_left fst snd] in *.
      assert (Hmono : forall l a b, (a <= b)%Z -> (fold_left Z.add l a <= fold_left Z.add l b)%Z).
      { induction l as [|x l IHl]; intros x1 x2 Hx; [exact Hx|]. simpl. apply IHl. lia. }
      assert (Hge : forall l a, Forall (fun a => 0 <= a)%Z l -> (a <= fold_left Z.add l a)%Z).
      { induction l as [|x l IHl]; intros x1 Hl; [apply Z.le_refl|]. simpl.
        inversion Hl; subst. eapply Z.le_trans; [|apply IHl; assumption]. lia. }
      pose proof (Hge amounts0 (accA + a)%Z Hp') as Hbound.
      unfold original_in at 2. destruct (Currency_eqb (res_currency r) c).
      + rewrite Ha, WholeNumbers.whole_add by lia.
        apply (IH amounts0 (acc + a)%Z (accA + a)%Z); [assumption|assumption|lia|assumption].
      + change 0%float with (whole 0). rewrite WholeNumbers.whole_add by lia.
        rewrite Z.add_0_r.
        apply (IH amounts0 acc (accA + a)%Z); [assumption|assumption|lia|assumption]. }
  split; [|split; [|split]].
  - apply (Hgen EUR rs amounts 0%Z 0%Z Hmap Hpos ltac:(lia) Hb).
  - apply (Hgen USD rs amounts 0%Z 0%Z Hmap Hpos ltac:(lia) Hb).
  - unfold amount_in. clear Hgen Hb Hpos.
    assert (H : forall (rs : list PositionResult) (amounts : list Z) (a b : Z),
               map amountOriginal rs = map whole amounts ->
               (fold_left (fun s p => if Currency_eqb (fst p) EUR then (s + snd p)%Z else s)
                  (combine (map res_currency rs) amounts) a
                + fold_left (fun s p => if Currency_eqb (fst p) USD then (s + snd p)%Z else s)
                    (combine (map res_currency rs) amounts) b
                = fold_left Z.add amounts (a + b))%Z).
    { induction rs0 as [|r rs0 IH]; intros [|x amounts0] a b Hm; try discriminate Hm;
        [reflexivity|].
      simpl in Hm. injection Hm as _ Hm. cbn [map combine fold_left fst snd].
      destruct (res_currency r); cbn [Currency_eqb]; rewrite (IH _ _ _ Hm); f_equal; lia. }
    apply (H rs amounts 0%Z 0%Z Hmap).
  - intros ->. repeat split; reflexivity.
Qed.

Lemma totals_of_whole_amounts_witness :
  investedOriginalEUR
    (totals (calculate scenarioA_env (initial_state [usd_position] None)))
  = whole (amount_in EUR [(USD, 1000%Z)]) /\
  investedOriginalUSD
    (totals (calculate scenarioA_env (initial_state [usd_position] None)))
  = whole (amount_in USD [(USD, 1000%Z)]).
Proof.
  destruct (totals_of_whole_amounts
              (calculate scenarioA_env (initial_state [usd_position] None)) [1000%Z])
    as (H1 & H2 & _).
  - reflexivity.
  - constructor; [lia|constructor].
  - reflexivity.
  - split; [exact H1|exact H2].
Defined.

(** ** The pager *)

Lemma totalPages_positive (len ps : nat) : 1 <= totalPages len ps.
Proof. unfold totalPages. lia. Qed.

(** X20. In every state the pager can reach, by the page buttons, the
    choice of a page size, the show-all button, a render with new drops or a
    new threshold and the effect that follows it, the page size is one of the
    options, the page is at least 1 and, when paging, the rows shown are at
    most a page. Once the effect has run the page is at most [totalPages],
    and some rows are shown whenever there are drops at all. While the
    effect is due (the render that has the new drops with the page as it
    was) this need not hold; the effect is then a possible step, and it
    leaves the pager on page 1, paged, with nothing due. *)
Theorem pager_stays_in_range (p : Pager) :
  pager_reachable p ->
  In (pageSize p) [10; 20; 50; 100] /\
  1 <= page p /\
  List.length (visibleDrops false (page p) (pageSize p) (shown p)) <= pageSize p /\
  (resetDue p = false ->
     page p <= totalPages (List.length (shown p)) (pageSize p) /\
     (shown p <> [] -> visibleDrops (showAll p) (page p) (pageSize p) (shown p) <> [])) /\
  (resetDue p = true ->
     exists q, pager_step p q /\ shown q = shown p /\ pageSize q = pageSize p /\
               page q = 1 /\ showAll q = false /\ resetDue q = false).
Proof.
  intros Hr.
  assert (Hinv : In (pageSize p) [10; 20; 50; 100] /\
                 1 <= page p /\
                 (resetDue p = false ->
                    page p <= totalPages (List.length (shown p)) (pageSize p))).
  { induction Hr as [|p q Hp (IHs & IH1 & IHp) Hstep].
    - split; [simpl; auto|]. split; [simpl; lia|discriminate].
    - destruct Hstep as [p|p|p n Hn|p|p drops|p Hdue];
        cbn [shown page pageSize showAll resetDue].
      + split; [exact IHs|]. unfold previousPage. split; [lia|].
        intros Hd. specialize (IHp Hd). lia.
      + split; [exact IHs|]. unfold followingPage, totalPages. split; [lia|].
        intros _. lia.
      + split; [exact Hn|]. split; [lia|]. intros _.
        pose proof (totalPages_positive (List.length (shown p)) n). lia.
      + split; [exact IHs|]. split; assumption.
      + split; [exact IHs|]. split; [exact IH1|discriminate].
      + split; [exact IHs|]. split; [lia|]. intros _.
        pose proof (totalPages_positive (List.length (shown p)) (pageSize p)). lia. }
  destruct Hinv as (Hs & H1 & Hp).
  assert (Hps : 0 < pageSize p) by (simpl in Hs; lia).
  split; [exact Hs|]. split; [exact H1|].
  rewrite visibleDrops_page. split; [rewrite length_firstn; lia|]. split.
  - intros Hd. specialize (Hp Hd). split; [exact Hp|].
    intros Hne. destruct (showAll p); [exact Hne|].
    rewrite visibleDrops_page. intros Hnil.
    destruct (ceil_div_bounds (List.length (shown p)) (pageSize p) Hps) as [_ Hlow].
    assert (Hlen : 0 < List.length (shown p)) by (destruct (shown p); [congruence|simpl; lia]).
    apply (f_equal (@List.length _)) in Hnil.
    rewrite length_firstn, length_skipn in Hnil. simpl in Hnil.
    specialize (Hlow Hlen). unfold totalPages in Hp. nia.
  - intros Hd. exists (mkPager (shown p) 1 (pageSize p) false false).
    split; [apply step_effect, Hd|]. repeat split.
Qed.

Lemma stale_pager_reachable : pager_reachable stale_pager.
Proof.
  apply (reachable_step (mkPager many_drops 3 10 false false)).
  - apply (reachable_step (mkPager many_drops 2 10 false false)).
    + apply (reachable_step (mkPager many_drops 1 10 false false)).
      * apply (reachable_step (mkPager many_drops 1 10 false true)).
        -- apply (reachable_step (mkPager many_drops 1 20 false true)).
           ++ apply (reachable_step initial_pager); [constructor|].
              apply (step_drops initial_pager many_drops).
           ++ apply (step_pageSize (mkPager many_drops 1 20 false true) 10). simpl. auto.
        -- apply (step_effect (mkPager many_drops 1 10 false true)). reflexivity.
      * apply (step_following (mkPager many_drops 1 10 false false)).
    + apply (step_following (mkPager many_drops 2 10 false false)).
  - apply (step_drops (mkPager many_drops 3 10 false false) scenarioC_series).
Qed.

(** Before the effect has run, the page can lie beyond the last page: the
    table then shows no row though there are drops. *)
Example stale_page_shows_no_row :
  pager_reachable stale_pager /\
  shown stale_pager <> [] /\
  totalPages (List.length (shown stale_pager)) (pageSize stale_pager) = 1 /\
  page stale_pager = 3 /\
  visibleDrops (showAll stale_pager) (page stale_pager) (pageSize stale_pager)
    (shown stale_pager) = [].
Proof.
  split; [exact stale_pager_reachable|]. split; [discriminate|]. repeat split.
Qed.

Lemma pager_stays_in_range_witness :
  In (pageSize stale_pager) [10; 20; 50; 100] /\
  1 <= page stale_pager /\
  List.length (visibleDrops false (page stale_pager) (pageSize stale_pager) (shown stale_pager))
  <= pageSize stale_pager.
Proof.
  destruct (pager_stays_in_range stale_pager stale_pager_reachable) as (H1 & H2 & H3 & _).
  split; [exact H1|]. split; [exact H2|exact H3].
Defined.

(** ** What holds in every state of the page *)

Lemma calculate_fx (env : Env) (st : State) :
  usable_or_absent (fx st) -> usable_or_absent (fx (calculate env st)).
Proof.
  intros H. unfold calculate, calculate_try.
  destruct (fetchQuotesAndRate env st) as [[qm eurusd]|e]; [|exact H].
  assert (Hfx : usable_or_absent (if useEur st && option_truthy eurusd then eurusd else fx st)).
  { destruct (useEur st); [|exact H]. destruct eurusd as [x|]; [|exact H]. simpl.
    destruct (JS.truthy x) eqn:E; [exact E|exact H]. }
  destruct (for_each _ _); exact Hfx.
Qed.

Lemma calculate_frame (env : Env) (st : State) :
  monthlySeries (calculate env st) = monthlySeries st /\
  bigDrops (calculate env st) = bigDrops st /\
  dropThresholdPct (calculate env st) = dropThresholdPct st /\
  rows (calculate env st) = rows st.
Proof.
  unfold calculate. destruct (calculate_try env st) as [fx' [rs|e]]; repeat split.
Qed.

(** X21. In every state the page can reach from its first render, by any
    sequence of computations (whatever the network answers), edits of the
    form, changes of the check box and of the threshold: the stored rate is
    absent or usable (never zero, never [NaN]); the stored monthly series is
    in strictly ascending order of its months with positive values; the drops
    shown are the drops of that series for some threshold (the one in force
    when they were computed, which a later change of the threshold does not
    revisit), each a point of the series whose change is [<= 0]; and the
    threshold is [NaN] or between 1 and 100. *)
Theorem page_invariant (st : State) :
  page_reachable st ->
  usable_or_absent (fx st) /\
  chronological (monthlySeries st) /\
  Forall (fun p => JS.gtb (valueUSD p) 0%float = true) (monthlySeries st) /\
  (exists t, bigDrops st = detectDrops t (monthlySeries st)) /\
  (forall p, In p (bigDrops st) ->
     In p (monthlySeries st) /\ exists c, mom p = Some c /\ PrimFloat.leb c 0 = true) /\
  (PrimFloat.is_nan (dropThresholdPct st) = true \/
   (PrimFloat.leb 1 (dropThresholdPct st) = true /\
    PrimFloat.leb (dropThresholdPct st) 100 = true)).
Proof.
  intros Hr.
  assert (Hinv : usable_or_absent (fx st) /\
                 chronological (monthlySeries st) /\
                 Forall (fun p => JS.gtb (valueUSD p) 0%float = true) (monthlySeries st) /\
                 (exists t, bigDrops st = detectDrops t (monthlySeries st)) /\
                 (PrimFloat.is_nan (dropThresholdPct st) = true \/
                  (PrimFloat.leb 1 (dropThresholdPct st) = true /\
                   PrimFloat.leb (dropThresholdPct st) 100 = true))).
  { induction Hr as [|st st' Hr (Hfx & Hch & Hpos & Hdrops & Hthr) Hstep].
    - split; [exact I|]. split; [constructor|]. split; [constructor|].
      split; [exists 15%float; reflexivity|]. right. split; reflexivity.
    - destruct Hstep as [env st|env st|i e st|st|i st|b st|value st].
      + destruct (calculate_frame env st) as (-> & -> & -> & _).
        split; [apply calculate_fx, Hfx|]. auto.
      + split; [|split; [|split; [|split]]].
        * unfold computeMonthlyDrops. destruct (monthly_try env st); exact Hfx.
        * destruct (computeMonthlyDrops_series env st) as [E|(ps & _ & E)]; rewrite E;
            [constructor|apply aggregated_series_chronological].
        * apply (stored_series_well_formed env st).
        * unfold computeMonthlyDrops. destruct (monthly_try env st) as [series|e0]; simpl.
          -- exists (dropThresholdPct st). reflexivity.
          -- exists 15%float. reflexivity.
        * unfold computeMonthlyDrops. destruct (monthly_try env st); exact Hthr.
      + repeat split; assumption.
      + repeat split; assumption.
      + repeat split; assumption.
      + repeat split; assumption.
      + split; [exact Hfx|]. split; [exact Hch|]. split; [exact Hpos|]. split; [exact Hdrops|].
        cbn [onThresholdChange set_dropThresholdPct dropThresholdPct].
        unfold threshold_input. destruct (PrimFloat.is_nan (JS.Number value)) eqn:En.
        * left. unfold Math_min. rewrite En, orb_true_r. reflexivity.
        * right. destruct (Math_min_100 _ En) as [Hn Hle]. apply Math_max_1; assumption. }
  destruct Hinv as (Hfx & Hch & Hpos & [t Ht] & Hthr).
  repeat (split; [assumption|]). split; [exists t; exact Ht|]. split; [|exact Hthr].
  intros p Hp. rewrite Ht in Hp. unfold detectDrops in Hp. apply filter_In in Hp as [Hin Hd].
  split; [exact Hin|].
  unfold is_drop in Hd. destruct (mom p) as [c|]; [|discriminate].
  exists c. split; [reflexivity|].
  apply (FloatOrder.leb_trans _ (threshold_of t)); [exact Hd|].
  apply threshold_of_nonpos. exact (proj2 (FloatOrder.leb_comparable _ _ Hd)).
Qed.

Lemma page_invariant_witness :
  usable_or_absent
    (fx (calculate scenarioA_env (onThresholdChange "25" (addRow page_state)))).
Proof.
  apply (page_invariant (calculate scenarioA_env (onThresholdChange "25" (addRow page_state)))).
  apply page_next with (onThresholdChange "25" (addRow page_state)); [|constructor].
  apply page_next with (addRow page_state); [|constructor].
  apply page_next with page_state; [constructor|constructor].
Defined.

(** ** The order of calendar months *)

Lemma digit_code (c : ascii) (d : Z) :
  JS.digit_of 10 c = Some d -> Z.of_N (N_of_ascii c) = (48 + d)%Z.
Proof.
  destruct c as [[] [] [] [] [] [] [] []]; intros H; vm_compute in H; try discriminate H;
    injection H as <-; reflexivity.
Qed.

Lemma numeral_value_bounds (s : string) :
  forall acc v,
    numeral_value s acc = Some v ->
    (acc * 10 ^ Z.of_nat (String.length s) <= v
     < (acc + 1) * 10 ^ Z.of_nat (String.length s))%Z.
Proof.
  induction s as [|c s IH]; intros acc v H.
  - simpl in *. injection H as <-. lia.
  - cbn [numeral_value] in H. destruct (JS.digit_of 10 c) as [d|] eqn:Ed; [|discriminate].
    destruct (digit_char c d Ed) as [Hd _].
    specialize (IH _ _ H). simpl String.length. rewrite Nat2Z.inj_succ, Z.pow_succ_r by lia.
    pose proof (Z.pow_pos_nonneg 10 (Z.of_nat (String.length s)) ltac:(lia) ltac:(lia)).
    nia.
Qed.

(** Two runs of digits of the same length compare as their values do; when
    the values are equal, what follows them decides. *)
Lemma compare_numerals (s : string) :
  forall t acc v1 v2 r1 r2,
    String.length s = String.length t ->
    numeral_value s acc = Some v1 -> numeral_value t acc = Some v2 ->
    match String.compare (s ++ r1) (t ++ r2) with
    | Lt => (v1 < v2)%Z \/ (v1 = v2 /\ String.compare r1 r2 = Lt)
    | Eq => v1 = v2 /\ String.compare r1 r2 = Eq
    | Gt => (v2 < v1)%Z \/ (v1 = v2 /\ String.compare r1 r2 = Gt)
    end.
Proof.
  induction s as [|c s IH]; intros [|c' t] acc v1 v2 r1 r2 Hlen H1 H2; try discriminate Hlen.
  - simpl in *. injection H1 as <-. injection H2 as <-.
    destruct (String.compare r1 r2); auto.
  - cbn [numeral_value] in H1, H2.
    destruct (JS.digit_of 10 c) as [d|] eqn:Ed; [|discriminate].
    destruct (JS.digit_of 10 c') as [d'|] eqn:Ed'; [|discriminate].
    pose proof (digit_code c d Ed) as Hc. pose proof (digit_code c' d' Ed') as Hc'.
    pose proof (numeral_value_bounds _ _ _ H1) as B1.
    pose proof (numeral_value_bounds _ _ _ H2) as B2.
    simpl in Hlen. injection Hlen as Hlen. rewrite <- Hlen in B2.
    pose proof (Z.pow_pos_nonneg 10 (Z.of_nat (String.length s)) ltac:(lia) ltac:(lia)) as Hp.
    simpl String.append. cbn [String.compare]. unfold Ascii.compare.
    destruct (N.compare_spec (N_of_ascii c) (N_of_ascii c')) as [E|E|E].
    + assert (d = d') by lia. subst d'. apply (IH t _ _ _ r1 r2 Hlen H1 H2).
    + left. assert (d + 1 <= d')%Z by lia. nia.
    + left. assert (d' + 1 <= d)%Z by lia. nia.
Qed.

(** The number of a calendar month: twelve per year. *)
Lemma month_text_order (a b : string) (y1 m1 y2 m2 : Z) :
  month_text a y1 m1 -> month_text b y2 m2 ->
  (JS.str_ltb a b = true -> (y1 * 12 + m1 < y2 * 12 + m2)%Z) /\
  (JS.str_leb a b = true -> (y1 * 12 + m1 <= y2 * 12 + m2)%Z).
Proof.
  intros (ya & ma & -> & Hya & Hma & La & Lma & Ra) (yb & mb & -> & Hyb & Hmb & Lb & Lmb & Rb).
  pose proof (compare_numerals ya yb 0%Z y1 y2 (String "-" ma) (String "-" mb)
                ltac:(congruence) (proj2 Hya) (proj2 Hyb)) as Hy.
  pose proof (compare_numerals ma mb 0%Z m1 m2 "" "" ltac:(congruence) (proj2 Hma) (proj2 Hmb))
    as Hm.
  assert (Eapp : forall s, (s ++ "")%string = s).
  { induction s as [|c s IHs]; simpl; [reflexivity|]. rewrite IHs. reflexivity. }
  rewrite !Eapp in Hm.
  assert (Hdash : String.compare (String "-" ma) (String "-" mb) = String.compare ma mb)
    by reflexivity.
  rewrite Hdash in Hy.
  unfold JS.str_ltb, JS.str_leb, String.ltb, String.leb.
  revert Hy Hm.
  destruct (String.compare (ya ++ String "-" ma) (yb ++ String "-" mb));
    destruct (String.compare ma mb); intros Hy Hm; split; intros H;
    try discriminate H; intuition (try discriminate; lia).
Qed.

(** ** The months to recovery *)

Lemma months_apart (a b : string) (y1 m1 y2 m2 : Z) :
  month_text a y1 m1 -> month_text b y2 m2 ->
  monthsBetween a b = whole ((y2 - y1) * 12 + (m2 - m1)).
Proof.
  intros (ya & ma & -> & Hya & Hma & La & Lma & Ra) (yb & mb & -> & Hyb & Hmb & Lb & Lmb & Rb).
  pose proof (numeral_value_nonneg ya 0%Z y1 ltac:(lia) (proj2 Hya)).
  pose proof (numeral_value_nonneg yb 0%Z y2 ltac:(lia) (proj2 Hyb)).
  pose proof (numeral_value_bounds ya 0%Z y1 (proj2 Hya)) as B1.
  pose proof (numeral_value_bounds yb 0%Z y2 (proj2 Hyb)) as B2.
  rewrite La in B1. rewrite Lb in B2.
  change (10 ^ Z.of_nat 4)%Z with 10000%Z in *.
  unfold monthsBetween.
  destruct (split_month ya ma y1 m1 Hya Hma) as [-> ->].
  destruct (split_month yb mb y2 m2 Hyb Hmb) as [-> ->].
  change 12%float with (whole 12).
  rewrite !WholeNumbers.whole_sub, WholeNumbers.whole_mul, WholeNumbers.whole_add
    by (change (2 ^ 53)%Z with 9007199254740992%Z; lia).
  reflexivity.
Qed.

(** X22. On a series in chronological order whose months are calendar
    months [YYYY-MM], for an event whose window starts at a calendar month:
    when there is a recovery month, the months to recovery from the trough
    are a whole number of months, at least one, and the months to recovery
    from the start of the window are a whole number no smaller, both exact. *)
Theorem recovery_takes_whole_months (series : list MonthlyPoint) (ev : MarketEvent)
  (rm : string) (ys ms : Z) :
  chronological series ->
  calendar_series series ->
  month_text (ev_startMonth ev) ys ms ->
  recoveryMonth (eventPerformance series ev) = Some rm ->
  exists n k : Z,
    (1 <= n <= k)%Z /\
    monthsToRecoveryFromTrough (eventPerformance series ev) = Some (whole n) /\
    monthsToRecoveryFromStart (eventPerformance series ev) = Some (whole k).
Proof.
  intros Hch Hcal Hstart Hrm.
  pose proof (chronological_NoDup series Hch) as Hnd.
  unfold eventPerformance in *.
  destruct (filter (in_window ev) series) as [|first rest] eqn:Ef; [discriminate|].
  cbn [recoveryMonth monthsToRecoveryFromTrough monthsToRecoveryFromStart] in *.
  destruct (trough_in_window first rest) as (t & Ht & Hm & _).
  fold (drawdown_scan first (first :: rest)) in *.
  set (s := drawdown_scan first (first :: rest)) in *.
  rewrite <- Ef in Ht. apply filter_In in Ht as [Hin Hw].
  rewrite Hrm. cbn [option_map].
  unfold recovery_search in Hrm. rewrite Hm in *.
  destruct (findIndex_month series t Hnd Hin) as (idx & Hidx & Hnth).
  rewrite Hidx in Hrm.
  destruct (find _ (skipn (S idx) series)) as [r|] eqn:Efind; [|discriminate].
  simpl in Hrm. injection Hrm as <-.
  apply find_skipn_Some in Efind as (i & Hi & Hnth_r & _).
  pose proof (StronglySorted_nth _ _ Hch idx i t r ltac:(lia) Hnth Hnth_r) as Hlt.
  cbv beta in Hlt.
  destruct (proj1 (Forall_forall _ _) Hcal t Hin) as (yt & mt & Htxt).
  destruct (proj1 (Forall_forall _ _) Hcal r (nth_error_In _ _ Hnth_r)) as (yr & mr & Hrxt).
  pose proof (proj1 (month_text_order _ _ _ _ _ _ Htxt Hrxt) Hlt) as Htr.
  unfold in_window in Hw. apply andb_prop in Hw as [Hge _]. unfold JS.str_geb in Hge.
  pose proof (proj2 (month_text_order _ _ _ _ _ _ Hstart Htxt) Hge) as Hst.
  exists ((yr - yt) * 12 + (mr - mt))%Z, ((yr - ys) * 12 + (mr - ms))%Z.
  split; [lia|].
  rewrite (months_apart _ _ _ _ _ _ Htxt Hrxt), (months_apart _ _ _ _ _ _ Hstart Hrxt).
  split; reflexivity.
Qed.

Lemma recovery_takes_whole_months_witness :
  exists n k : Z,
    (1 <= n <= k)%Z /\
    monthsToRecoveryFromTrough (eventPerformance scenarioC_series dotcom) = Some (whole n) /\
    monthsToRecoveryFromStart (eventPerformance scenarioC_series dotcom) = Some (whole k).
Proof.
  apply (recovery_takes_whole_months scenarioC_series dotcom "2000-07" 2000 3).
  - repeat constructor.
  - repeat constructor;
      [exists 2000%Z, 3%Z|exists 2000%Z, 4%Z|exists 2000%Z, 5%Z|exists 2000%Z, 6%Z
      |exists 2000%Z, 7%Z];
      (eexists "2000", _; split; [reflexivity|];
       repeat split; try reflexivity; try discriminate; lia).
  - exists "2000", "03". repeat split; try reflexivity; try discriminate; lia.
  - reflexivity.
Defined.

(** ** Annual Extremes Calculator: the order of the years *)

(** The order on code units is a collation that orders digits. *)
Lemma code_units_order_digits : orders_digits String.compare.
Proof.
  intros a b va vb [_ Ha] [_ Hb] Hlen.
  pose proof (compare_numerals a b 0%Z va vb "" "" Hlen Ha Hb) as H.
  assert (Eapp : forall s, (s ++ "")%string = s).
  { induction s as [|c s IHs]; simpl; [reflexivity|]. rewrite IHs. reflexivity. }
  rewrite !Eapp in H. simpl in H.
  destruct (String.compare a b); symmetry.
  - apply Z.compare_eq_iff. tauto.
  - apply Z.compare_lt_iff. destruct H as [H|[_ H]]; [exact H|discriminate].
  - apply Z.compare_gt_iff. destruct H as [H|[_ H]]; [exact H|discriminate].
Qed.

Lemma four_digit_year_of (y : YearExtreme) (v : Z) :
  String.length (year y) = 4 -> numeral (year y) v -> four_digit_year y.
Proof.
  intros Hl Hn. split; [exact Hl|]. unfold year_number. rewrite (proj2 Hn). exact Hn.
Qed.

Lemma year_number_inj (a b : YearExtreme) :
  four_digit_year a -> four_digit_year b ->
  year_number a = year_number b -> year a = year b.
Proof.
  intros [La Ha] [Lb Hb] E.
  pose proof (code_units_order_digits _ _ _ _ Ha Hb ltac:(congruence)) as H.
  rewrite E, Z.compare_refl in H. apply String.compare_eq_iff, H.
Qed.

Section SortByNumber.

Context (localeCompare : Collation) (Hdigits : orders_digits localeCompare).

Lemma year_leb_number (a b : YearExtreme) :
  four_digit_year a -> four_digit_year b ->
  year_leb localeCompare a b = (year_number a <=? year_number b)%Z.
Proof.
  intros [La Ha] [Lb Hb]. unfold year_leb, Z.leb.
  rewrite (Hdigits _ _ _ _ Ha Hb) by congruence. reflexivity.
Qed.

Lemma insert_year_sorted (x : YearExtreme) (l : list YearExtreme) :
  four_digit_year x -> Forall four_digit_year l ->
  StronglySorted (fun a b => (year_number a <= year_number b)%Z) l ->
  StronglySorted (fun a b => (year_number a <= year_number b)%Z)
    (insert_year localeCompare x l).
Proof.
  intros Hx Hl Hs. induction Hs as [|y l Hs IH Hy]; simpl.
  - repeat constructor.
  - inversion Hl as [|? ? Hy4 Hl']; subst.
    rewrite (year_leb_number x y Hx Hy4).
    destruct (Z.leb_spec (year_number x) (year_number y)) as [E|E].
    + constructor; [constructor; assumption|].
      constructor; [exact E|].
      apply Forall_forall. intros z Hz.
      pose proof (proj1 (Forall_forall _ _) Hy z Hz). cbv beta in *. lia.
    + constructor; [apply IH, Hl'|].
      apply Forall_forall. intros z Hz.
      apply (Permutation_in _ (insert_year_perm localeCompare x l)) in Hz as [<-|Hz].
      * lia.
      * apply (proj1 (Forall_forall _ _) Hy z Hz).
Qed.

Lemma sort_years_sorted (l : list YearExtreme) :
  Forall four_digit_year l ->
  StronglySorted (fun a b => (year_number a <= year_number b)%Z) (sort_years localeCompare l).
Proof.
  induction l as [|x l IH]; intros Hl; simpl; [constructor|].
  inversion Hl as [|? ? Hx Hl']; subst.
  apply insert_year_sorted; [exact Hx| |apply IH, Hl'].
  apply Forall_forall. intros z Hz.
  apply (Permutation_in _ (sort_years_perm localeCompare l)) in Hz.
  apply (proj1 (Forall_forall _ _) Hl' z Hz).
Qed.

End SortByNumber.

Lemma sorted_years_strict (l : list YearExtreme) :
  Forall four_digit_year l -> NoDup (map year l) ->
  StronglySorted (fun a b => (year_number a <= year_number b)%Z) l ->
  StronglySorted (fun a b => (year_number a < year_number b)%Z) l.
Proof.
  intros Hl Hnd Hs. induction Hs as [|y l Hs IH Hy]; [constructor|].
  inversion Hl as [|? ? Hy4 Hl']; subst.
  simpl in Hnd. inversion Hnd as [|? ? Hni Hnd']; subst.
  constructor; [apply IH; assumption|].
  apply Forall_forall. intros z Hz.
  pose proof (proj1 (Forall_forall _ _) Hy z Hz) as Hle. cbv beta in Hle.
  destruct (Z.eq_dec (year_number y) (year_number z)) as [E|E]; [|lia].
  exfalso. apply Hni.
  rewrite (year_number_inj y z Hy4 (proj1 (Forall_forall _ _) Hl' z Hz) E).
  apply in_map, Hz.
Qed.

(** C6. On a series with no [NaN] value (the values of an aggregated series
    are positive), the annual extremes have, for every point, an entry of
    its year with [minUSD <= valueUSD <= maxUSD]; each entry's [minMonth] and
    [maxMonth] are months of points of that year that carry the extreme
    value, and of the first such point in the order of the series: every
    earlier point of the year is strictly above the minimum, respectively
    strictly below the maximum; the entries are one per year; and when the
    months start with a year of four digits (as the months [YYYY-MM] do) and
    the collation of the host puts digits in the order of the numbers, the
    entries come in strictly ascending order of the numbers of their years,
    in whatever order the series has them. *)
Theorem annual_extremes_bound_the_year (localeCompare : Collation) (rate : option JS.number)
  (series : list MonthlyPoint) :
  comparable_series series ->
  let out := yearExtremes_of localeCompare rate series in
  (forall p, In p series ->
     exists y, In y out /\ year y = year_of p /\
               PrimFloat.leb (minUSD y) (valueUSD p) = true /\
               PrimFloat.leb (valueUSD p) (maxUSD y) = true) /\
  (forall y, In y out ->
     (forall p, In p series -> year_of p = year y ->
        PrimFloat.leb (minUSD y) (valueUSD p) = true /\
        PrimFloat.leb (valueUSD p) (maxUSD y) = true) /\
     (exists before pmin after,
        series = before ++ pmin :: after /\
        year_of pmin = year y /\ month pmin = minMonth y /\ valueUSD pmin = minUSD y /\
        forall q, In q before -> year_of q = year y ->
                  PrimFloat.ltb (minUSD y) (valueUSD q) = true) /\
     (exists before pmax after,
        series = before ++ pmax :: after /\
        year_of pmax = year y /\ month pmax = maxMonth y /\ valueUSD pmax = maxUSD y /\
        forall q, In q before -> year_of q = year y ->
                  PrimFloat.ltb (valueUSD q) (maxUSD y) = true)) /\
  NoDup (map year out) /\
  (four_digit_years series -> orders_digits localeCompare ->
     Forall four_digit_year out /\
     StronglySorted (fun a b => (year_number a < year_number b)%Z) out).
Proof.
  intros Hc out.
  destruct (year_map_invariant rate series Hc) as [Hk Hpres Hent].
  assert (Hout : series <> [] ->
                 out = sort_years localeCompare (map snd (year_map rate series))).
  { unfold out, yearExtremes_of. destruct series; [congruence|reflexivity]. }
  assert (Hin : forall y, In y out <-> series <> [] /\ In y (map snd (year_map rate series))).
  { intros y. destruct series as [|p0 l] eqn:Es.
    - simpl. split; [intros []|intros [H _]; congruence].
    - rewrite Hout by discriminate. split.
      + intros H. split; [discriminate|].
        exact (Permutation_in _ (sort_years_perm _ _) H).
      + intros [_ H].
        exact (Permutation_in _ (Permutation_sym (sort_years_perm _ _)) H). }
  assert (Hentry : forall y, In y out -> map_get (year y) (year_map rate series) = Some y).
  { intros y Hy. apply Hin in Hy as [_ Hy]. apply in_map_iff in Hy as ([k e] & <- & He).
    simpl. apply In_map_get in He; [|exact Hk].
    destruct (Hent _ _ He) as (-> & _). exact He. }
  assert (Hnd : NoDup (map year out)).
  { destruct series as [|p0 l] eqn:Es; [constructor|].
    rewrite Hout by discriminate.
    apply (Permutation_NoDup
             (Permutation_sym
                (Permutation_map year (sort_years_perm _ _)))).
    rewrite map_map.
    replace (map (fun x => year (snd x)) (year_map rate (p0 :: l)))
      with (map fst (year_map rate (p0 :: l))); [exact Hk|].
    apply map_ext_in. intros [k e] He. simpl.
    apply In_map_get in He; [|exact Hk]. destruct (Hent _ _ He) as (-> & _). reflexivity. }
  split; [|split; [|split; [exact Hnd|]]].
  - intros p Hp. destruct (Hpres p Hp) as [e He].
    destruct (Hent _ _ He) as (Hy & [Hmin _] & [Hmax _]).
    exists e. split.
    + apply Hin. split; [intros ->; destruct Hp|].
      apply in_map_iff. exists (year_of p, e). split; [reflexivity|].
      apply map_get_In, He.
    + auto.
  - intros y Hy. apply Hentry in Hy.
    destruct (Hent _ _ Hy) as (_ & [Hmin Hminf] & [Hmax Hmaxf]).
    split; [|split]; auto.
  - intros Hyears Hdigits.
    assert (H4 : Forall four_digit_year out).
    { apply Forall_forall. intros y Hy. apply Hentry in Hy.
      destruct (Hent _ _ Hy) as (_ & [_ (before & best & after & Hs & Hb & _)] & _).
      assert (Hbest : In best series) by (rewrite Hs; apply in_or_app; right; left; reflexivity).
      destruct (proj1 (Forall_forall _ _) Hyears best Hbest) as (Hl & v & Hv).
      rewrite Hb in Hl, Hv. apply (four_digit_year_of y v Hl Hv). }
    split; [exact H4|].
    apply sorted_years_strict; [exact H4|exact Hnd|].
    destruct series as [|p0 l] eqn:Es; [constructor|].
    rewrite Hout in * by discriminate.
    apply (sort_years_sorted localeCompare Hdigits).
    apply Forall_forall. intros z Hz.
    apply (proj1 (Forall_forall _ _) H4 z).
    exact (Permutation_in _ (Permutation_sym (sort_years_perm _ _)) Hz).
Qed.

Lemma annual_extremes_bound_the_year_witness :
  map year_number (yearExtremes_of String.compare None unordered_years_series)
  = [1999%Z; 2000%Z; 2001%Z] /\
  StronglySorted (fun a b => (year_number a < year_number b)%Z)
    (yearExtremes_of String.compare None unordered_years_series).
Proof.
  split; [reflexivity|].
  destruct (annual_extremes_bound_the_year String.compare None unordered_years_series)
    as (_ & _ & _ & H).
  - repeat constructor.
  - apply H; [|exact code_units_order_digits].
    repeat constructor;
      [exists 2001%Z|exists 2000%Z|exists 2001%Z|exists 1999%Z];
      (split; [discriminate|reflexivity]).
Defined.

(** ** The window of an event, in calendar months *)

Lemma month_text_index (s : string) (y m : Z) :
  month_text s y m -> month_index s = (y * 12 + m)%Z.
Proof.
  intros (ys & ms & -> & [_ Hy] & [_ Hm] & Ly & Lm & _).
  destruct ys as [|a [|b [|c [|d [|e ys]]]]]; try discriminate Ly.
  destruct ms as [|f [|g [|h ms]]]; try discriminate Lm.
  unfold month_index.
  change (substring 0 4 _) with (String a (String b (String c (String d "")))).
  change (substring 5 2 _) with (String f (String g "")).
  rewrite Hy, Hm. reflexivity.
Qed.

Lemma str_leb_false_ltb (a b : string) : JS.str_leb a b = false -> JS.str_ltb b a = true.
Proof.
  unfold JS.str_ltb, JS.str_leb, String.ltb, String.leb.
  rewrite (String.compare_antisym b a).
  destruct (String.compare a b); simpl; congruence.
Qed.

Lemma month_text_leb (a b : string) (y1 m1 y2 m2 : Z) :
  month_text a y1 m1 -> month_text b y2 m2 ->
  JS.str_leb a b = (month_index a <=? month_index b)%Z.
Proof.
  intros Ha Hb.
  rewrite (month_text_index _ _ _ Ha), (month_text_index _ _ _ Hb).
  destruct (JS.str_leb a b) eqn:E.
  - symmetry. apply Z.leb_le. apply (proj2 (month_text_order _ _ _ _ _ _ Ha Hb) E).
  - symmetry. apply Z.leb_gt. apply str_leb_false_ltb in E.
    apply (proj1 (month_text_order _ _ _ _ _ _ Hb Ha) E).
Qed.

Lemma in_window_calendar (ev : MarketEvent) (p : MonthlyPoint) :
  (exists y m, month_text (ev_startMonth ev) y m) ->
  (exists y m, month_text (ev_endMonth ev) y m) ->
  (exists y m, month_text (month p) y m) ->
  in_window ev p = in_calendar_window ev p.
Proof.
  intros (ys & ms & Hs) (ye & me & He) (y & m & Hp).
  unfold in_window, in_calendar_window, JS.str_geb.
  fold (JS.str_leb (ev_startMonth ev) (month p)).
  rewrite (month_text_leb _ _ _ _ _ _ Hs Hp), (month_text_leb _ _ _ _ _ _ Hp He).
  reflexivity.
Qed.

Lemma MARKET_EVENTS_months :
  Forall (fun ev => (exists y m, month_text (ev_startMonth ev) y m) /\
                    (exists y m, month_text (ev_endMonth ev) y m))
    MARKET_EVENTS.
Proof.
  assert (H : forall a b c d f g y m,
             numeral_value (String a (String b (String c (String d "")))) 0 = Some y ->
             numeral_value (String f (String g "")) 0 = Some m ->
             (1 <=? m)%Z && (m <=? 12)%Z = true ->
             exists y m, month_text
                           (String a (String b (String c (String d (String "-" (String f (String g ""))))))) y m).
  { intros a b c d f g y m Hy Hm Hr. exists y, m.
    exists (String a (String b (String c (String d "")))), (String f (String g "")).
    apply andb_prop in Hr as [H1 H2]. apply Z.leb_le in H1, H2.
    repeat split; try assumption; discriminate. }
  unfold MARKET_EVENTS.
  repeat constructor; cbn [ev_startMonth ev_endMonth]; eapply H; reflexivity.
Qed.

Lemma find_hd_filter {A : Type} (f : A -> bool) (l : list A) :
  find f l = hd_error (filter f l).
Proof.
  induction l as [|a l IH]; simpl; [reflexivity|]. destruct (f a); [reflexivity|exact IH].
Qed.

Lemma hd_error_rev_last {A : Type} (l : list A) (a d : A) :
  hd_error (rev (a :: l)) = Some (last (a :: l) d).
Proof.
  revert a. induction l as [|b l IH]; intros a; [reflexivity|].
  change (rev (a :: b :: l)) with (rev (b :: l) ++ [a]).
  change (last (a :: b :: l) d) with (last (b :: l) d).
  specialize (IH b). destruct (rev (b :: l)) as [|x r] eqn:E; [discriminate IH|].
  simpl in *. exact IH.
Qed.

(** ** The rows of the crisis table *)

(** X8. On a series (not empty) whose months are calendar months
    [YYYY-MM], the crisis table has one row per market event, in the order
    of the list, each with the id, the name and the window of its event. A
    point counts for an event when its month is, as a calendar month,
    neither before the first month of the event nor after its last: the
    start and end values of the row are the values of the first and of the
    last such point of the series; the row has no data (all its figures are
    [null]) when there is no such point, and otherwise its start value, end
    value, change, maximum drawdown and trough month are all there. *)
Theorem eventPerformances_rows (series : list MonthlyPoint) :
  series <> [] ->
  calendar_series series ->
  Forall2 (row_of_event series) MARKET_EVENTS (eventPerformances_of series).
Proof.
  intros Hne Hcal. unfold eventPerformances_of.
  destruct series as [|p0 l] eqn:Es; [congruence|]. rewrite <- Es in *. clear Es Hne p0 l.
  pose proof MARKET_EVENTS_months as Hev.
  induction MARKET_EVENTS as [|ev evs IH]; simpl; constructor;
    [|apply IH; inversion Hev; assumption].
  inversion Hev as [|? ? [Hs He] _]; subst. clear IH Hev.
  assert (Hf : forall l, (forall p, In p l -> In p series) ->
                 filter (in_window ev) l = filter (in_calendar_window ev) l).
  { intros l Hl. apply filter_ext_in. intros p Hp.
    apply (in_window_calendar ev p Hs He).
    apply (proj1 (Forall_forall _ _) Hcal p (Hl p Hp)). }
  unfold row_of_event.
  rewrite !find_hd_filter, filter_rev, <- (Hf series) by auto.
  unfold eventPerformance.
  destruct (filter (in_window ev) series) as [|first rest] eqn:Ef;
    cbn [perf_id perf_name startMonth endMonth startValue endValue absChange maxDrawdown
         troughMonth].
  - do 6 (split; [reflexivity|]). split.
    + intros _. repeat split.
    + intros p Hp Hw. exfalso.
      rewrite <- (in_window_calendar ev p Hs He) in Hw
        by (apply (proj1 (Forall_forall _ _) Hcal p Hp)).
      rewrite (proj1 (filter_nil_iff _ _) Ef p Hp) in Hw. discriminate.
  - do 5 (split; [reflexivity|]). split.
    + rewrite (hd_error_rev_last rest first first). reflexivity.
    + split.
      * intros H. exfalso.
        assert (Hin : In first (filter (in_window ev) series))
          by (rewrite Ef; left; reflexivity).
        apply filter_In in Hin as [Hin Hw].
        rewrite (in_window_calendar ev first Hs He) in Hw
          by (apply (proj1 (Forall_forall _ _) Hcal first Hin)).
        rewrite (H first Hin) in Hw. discriminate.
      * intros _ _ _. repeat split; discriminate.
Qed.

Lemma eventPerformances_rows_witness :
  Forall2 (row_of_event scenarioC_series) MARKET_EVENTS (eventPerformances_of scenarioC_series).
Proof.
  apply (eventPerformances_rows scenarioC_series).
  - discriminate.
  - repeat constructor;
      [exists 2000%Z, 3%Z|exists 2000%Z, 4%Z|exists 2000%Z, 5%Z|exists 2000%Z, 6%Z
      |exists 2000%Z, 7%Z];
      (eexists "2000", _; split; [reflexivity|];
       repeat split; try reflexivity; try discriminate; lia).
Defined.
